(** * Molecular barcode (UMI) extraction and clustering

    A shallow embedding of [stpipeline/common/clustering.py] and the
    properties its specification states about it, followed by further
    properties of its functions and of the filter of the mapped reads of
    [stpipeline/common/sam_utils.py].

    Python values are embedded as follows: [int] is [Z] (or [nat] where the
    code only ever counts), [str] is [string], a list is a [list], a [dict]
    keyed by strings is a [gmap string _], a [dict] keyed by small integers
    is a [gmap nat _] iterated in ascending key order, exceptions are the
    [Raise] case of [result], and the process-wide random source of
    [random.choice] is an explicit stream threaded through the calls. *)

From Stdlib Require Import ZArith List String Ascii Lia Permutation Sorted Bool Arith.
From stdpp Require Import gmap strings list fin_maps.

Local Open Scope Z_scope.

(** ** Exceptions and results

    [AssertionError] is raised by the [assert] of the extractor (the
    specification's InvalidRangeError); [LengthMismatchError] is the error
    of the distance primitive on strings of different lengths;
    [IndexError] and [KeyError] are those of list and dictionary
    accesses. *)

Inductive exn : Set :=
| AssertionError
| LengthMismatchError
| IndexError
| KeyError.

Inductive result (A : Type) : Type :=
| Ok (a : A)
| Raise (e : exn).

Arguments Ok {A} a.
Arguments Raise {A} e.

Global Instance result_ret : MRet result := fun A a => Ok a.

Global Instance result_bind : MBind result := fun A B k r =>
  match r with
  | Ok a => k a
  | Raise e => Raise e
  end.

(** ** Python's [sorted]

    [sorted] is a stable sort.  A stable sort is a function of the input
    and of the order on the keys only (see [sorted_unique] below), so the
    insertion sort that puts an element in front of the first one that is
    not smaller computes what Python's sort computes. *)

Section Sort.
Context {A : Type} (le : A -> A -> bool).

Fixpoint insert_sorted (x : A) (l : list A) : list A :=
  match l with
  | [] => [x]
  | y :: l' => if le x y then x :: l else y :: insert_sorted x l'
  end.

Fixpoint sorted (l : list A) : list A :=
  match l with
  | [] => []
  | x :: l' => insert_sorted x (sorted l')
  end.
(** Two elements that the order does not tell apart: a stable sort keeps
    such elements in their input order. *)
Definition same_key (x y : A) : bool := le x y && le y x.
End Sort.

(** [str] comparison is lexicographic on the characters' codes. *)
Definition str_le (a b : string) : bool := String.leb a b.

(** ** Strings *)

(** [s[start:stop]] for [0 <= start < stop], the only case the extractor
    reaches: the slice is cut at the end of [s]. *)
Definition slice (s : string) (start stop : Z) : string :=
  String.substring (Z.to_nat start) (Z.to_nat (stop - start)) s.

(** [s.count(c)] for a one-character [c]. *)
Fixpoint str_count (c : ascii) (s : string) : nat :=
  match s with
  | EmptyString => O
  | String c' s' => ((if Ascii.eqb c' c then 1 else 0) + str_count c s')%nat
  end.

(** ** [extractMolecularBarcodes] *)

Section Extract.
(** A read is a tuple whose first position is the sequence of the read. *)
Context {Read : Type} (read_0 : Read -> string).

(** The tuples (molecular_barcode, read object, occurrences, number Ns). *)
Definition extraction : Type := string * Read * nat * nat.

Definition x_0 (x : extraction) : string := x.1.1.1.
Definition x_1 (x : extraction) : Read := x.1.1.2.
Definition x_2 (x : extraction) : nat := x.1.2.
Definition x_3 (x : extraction) : nat := x.2.

(** The sort key [(x[0], -x[2], x[3])] and the order of such tuples. *)
Definition extraction_key (x : extraction) : string * Z * nat :=
  (x_0 x, - Z.of_nat (x_2 x), x_3 x).

Definition key_le (k1 k2 : string * Z * nat) : bool :=
  match String.compare k1.1.1 k2.1.1 with
  | Lt => true
  | Gt => false
  | Eq =>
      match Z.compare k1.1.2 k2.1.2 with
      | Lt => true
      | Gt => false
      | Eq => (k1.2 <=? k2.2)%nat
      end
  end.

Definition extraction_le (x y : extraction) : bool :=
  key_le (extraction_key x) (extraction_key y).

(** The first loop: the list of (barcode, read) and the hash with the
    occurrences. *)
Definition extract_loop1 (mc_start_position mc_end_position : Z)
    (st : list (string * Read) * gmap string nat) (read : Read)
    : list (string * Read) * gmap string nat :=
  let '(molecular_barcodes, molecular_barcodes_counts) := st in
  let mc := slice (read_0 read) mc_start_position mc_end_position in
  (molecular_barcodes ++ [(mc, read)],
   <[mc := S (default O (molecular_barcodes_counts !! mc))]>
     molecular_barcodes_counts).

(** The second loop: the list with occurrences and N content. *)
Definition extract_loop2 (molecular_barcodes_counts : gmap string nat)
    (molecular_barcodes_count_list : list extraction) (mc : string * Read)
    : list extraction :=
  let count := default O (molecular_barcodes_counts !! mc.1) in
  let count_n := str_count "N"%char mc.1 in
  molecular_barcodes_count_list ++ [(mc.1, mc.2, count, count_n)].

Definition extractMolecularBarcodes (reads : list Read)
    (mc_start_position mc_end_position : Z) : result (list extraction) :=
  if (mc_end_position >? mc_start_position) && (mc_start_position >=? 0)
  then
    let '(molecular_barcodes, molecular_barcodes_counts) :=
      fold_left (extract_loop1 mc_start_position mc_end_position)
                reads ([], ∅) in
    let molecular_barcodes_count_list :=
      fold_left (extract_loop2 molecular_barcodes_counts)
                molecular_barcodes [] in
    Ok (sorted extraction_le molecular_barcodes_count_list)
  else Raise AssertionError.
End Extract.

(** The order the extractor promises: barcode ascending, then occurrences
    descending, then number of Ns ascending. *)
Definition extraction_before {Read : Type} (x y : @extraction Read) : Prop :=
  String.compare (x_0 x) (x_0 y) = Lt
  \/ (x_0 x = x_0 y
      /\ ((x_2 y < x_2 x)%nat
          \/ (x_2 x = x_2 y /\ (x_3 x <= x_3 y)%nat))).

(** ** The random source and the monad of the clustering functions

    [random.choice] draws from a process-wide source.  The source is made
    explicit as the stream of its raw draws; a draw [r] picks the element
    of index [r mod len(seq)], and choosing from an empty sequence raises
    [IndexError]. *)

Definition rng : Type := nat -> nat.

Definition M (A : Type) : Type := rng -> result (A * rng).

Global Instance M_ret : MRet M := fun A a g => Ok (a, g).

Global Instance M_bind : MBind M := fun A B k c g =>
  match c g with
  | Ok (a, g') => k a g'
  | Raise e => Raise e
  end.

Definition lift {A : Type} (r : result A) : M A := fun g =>
  match r with
  | Ok a => Ok (a, g)
  | Raise e => Raise e
  end.

Definition random_choice {A : Type} (seq : list A) : M A := fun g =>
  match seq !! (g O mod length seq)%nat with
  | Some x => Ok (x, fun n => g (S n))
  | None => Raise IndexError
  end.

(** A [for] loop that threads the variables it assigns. *)
Fixpoint for_in {T : Type -> Type} `{!MBind T, !MRet T} {A S : Type}
    (l : list A) (body : S -> A -> T S) (st : S) : T S :=
  match l with
  | [] => mret st
  | x :: l' => st' ← body st x; for_in l' body st'
  end.

Fixpoint enumerate_from {A : Type} (i : nat) (l : list A) : list (nat * A) :=
  match l with
  | [] => []
  | x :: l' => (i, x) :: enumerate_from (S i) l'
  end.

Definition enumerate {A : Type} (l : list A) : list (nat * A) :=
  enumerate_from O l.

(** [d.iteritems()] of a dictionary keyed by small non-negative integers:
    CPython stores such keys at the slot of their value, so the items come
    in ascending key order. *)
Definition iteritems {V : Type} (d : gmap nat V) : list (nat * V) :=
  sorted (fun a b => (a.1 <=? b.1)%nat) (map_to_list d).

(** ** The distance primitive *)

Fixpoint mismatches (s1 s2 : string) : nat :=
  match s1, s2 with
  | String c1 s1', String c2 s2' =>
      ((if Ascii.eqb c1 c2 then 0 else 1) + mismatches s1' s2')%nat
  | _, _ => O
  end.

(** Modelled from the spec: [hamming_distance] of
    [stpipeline.common.distance], which is not among the sources.  It
    returns the number of positions at which two equal-length strings
    differ and fails with [LengthMismatchError] on strings of different
    lengths. *)
Definition hamming_distance (s1 s2 : string) : result nat :=
  if (String.length s1 =? String.length s2)%nat
  then Ok (mismatches s1 s2)
  else Raise LengthMismatchError.

(** The edit distance with insertions and deletions. *)
Fixpoint edit_distance (s1 : string) : string -> nat :=
  fix against (s2 : string) : nat :=
    match s1, s2 with
    | EmptyString, _ => String.length s2
    | _, EmptyString => String.length s1
    | String c1 s1', String c2 s2' =>
        Nat.min (Nat.min (S (edit_distance s1' s2)) (S (against s2')))
                ((if Ascii.eqb c1 c2 then 0 else 1) + edit_distance s1' s2')%nat
    end.

(** ** The counting trie

    Modelled from the spec: the [CountTrie] of the [counttrie] package,
    which is not among the sources.  The spec asks of it: [insert],
    [remove], [count] (the number of inserts of a key since its last
    removal) and [find_within_distance], the keys currently indexed that
    are within the given distance of the query, the query itself among
    them when it is still indexed; without indels the search is the
    Hamming-distance lookup restricted to keys of the query's length.
    The query itself is found whenever it is indexed, its distance being
    0.  The keys found are listed in ascending order. *)
Module CountTrie.
Definition add (key : string) (trie : gmap string nat) : gmap string nat :=
  <[key := S (default O (trie !! key))]> trie.

Definition remove (key : string) (trie : gmap string nat) : gmap string nat :=
  delete key trie.

Definition get_count (key : string) (trie : gmap string nat) : nat :=
  default O (trie !! key).

Definition within (allow_indels : bool) (mismatches_allowed : Z)
    (query key : string) : bool :=
  String.eqb query key
  || (if allow_indels
      then Z.of_nat (edit_distance query key) <=? mismatches_allowed
      else (String.length query =? String.length key)%nat
           && (Z.of_nat (mismatches query key) <=? mismatches_allowed)).

Definition find_equal_length_optimized (trie : gmap string nat)
    (query : string) (mismatches_allowed : Z) (allow_indels : bool)
    : list string :=
  List.filter (within allow_indels mismatches_allowed query)
              (sorted str_le (map fst (map_to_list trie))).
End CountTrie.

(** ** The three clustering strategies *)

Section Clustering.
Context {Read : Type}.

(** The tuples (molecular_barcode, read). *)
Local Abbreviation record := (string * Read)%type.

(** *** [countMolecularBarcodesClustersNaive] *)

Definition naive_sweep (allowed_mismatches : Z)
    (st : gmap nat (list record) * nat) (im : nat * record)
    : result (gmap nat (list record) * nat) :=
  let '(clusters_dict, nclusters) := st in
  let '(i, molecular_barcode) := im in
  if (i =? 0)%nat
  then Ok (<[nclusters := [molecular_barcode]]> clusters_dict, nclusters)
  else
    members ← from_option Ok (Raise KeyError) (clusters_dict !! nclusters);
    previous ← from_option Ok (Raise IndexError) (last members);
    distance ← hamming_distance previous.1 molecular_barcode.1;
    if Z.of_nat distance <=? allowed_mismatches
    then Ok (<[nclusters := members ++ [molecular_barcode]]> clusters_dict,
             nclusters)
    else Ok (<[S nclusters := [molecular_barcode]]> clusters_dict,
             S nclusters).

(** The dictionary of clusters after the sweep over the sorted records. *)
Definition naive_clusters_dict (molecular_barcodes : list record)
    (allowed_mismatches : Z) : result (gmap nat (list record)) :=
  st ← for_in
         (enumerate (sorted (fun x y => str_le x.1 y.1) molecular_barcodes))
         (naive_sweep allowed_mismatches) (∅, O);
  Ok st.1.

Definition naive_filter (min_cluster_size : Z) (clusters : list Read)
    (item : nat * list record) : M (list Read) :=
  let members := item.2 in
  if Z.of_nat (length members) >=? min_cluster_size
  then member ← random_choice members; mret (clusters ++ [member.2])
  else mret (clusters ++ map snd members).

Definition countMolecularBarcodesClustersNaive
    (molecular_barcodes : list record) (allowed_mismatches : Z)
    (min_cluster_size : Z) : M (list Read) :=
  clusters_dict ← lift (naive_clusters_dict molecular_barcodes
                                            allowed_mismatches);
  for_in (iteritems clusters_dict) (naive_filter min_cluster_size) [].

(** *** [countMolecularBarcodesPrefixtrie] *)

(** The first loop: the barcodes go to the trie, the reads to the map. *)
Definition trie_fill (st : gmap string nat * gmap string (list Read))
    (molecular_barcode : record)
    : gmap string nat * gmap string (list Read) :=
  let '(trie, reads) := st in
  (CountTrie.add molecular_barcode.1 trie,
   <[molecular_barcode.1 :=
       default [] (reads !! molecular_barcode.1) ++ [molecular_barcode.2]]>
     reads).

(** The inner loop over the barcodes found. *)
Definition trie_collect
    (st : gmap string nat * gmap string (list Read) * nat * list Read)
    (clustered_mc : string)
    : gmap string nat * gmap string (list Read) * nat * list Read :=
  let '(trie, reads, size_cluster, original_reads) := st in
  (CountTrie.remove clustered_mc trie,
   delete clustered_mc reads,
   (size_cluster + CountTrie.get_count clustered_mc trie)%nat,
   original_reads ++ default [] (reads !! clustered_mc)).

(** The query of one iteration and what it takes out of the trie and of
    the map. *)
Definition trie_neighbourhood (allowed_mismatches : Z) (allow_indels : bool)
    (trie : gmap string nat) (reads : gmap string (list Read))
    (molecular_barcode : record)
    : gmap string nat * gmap string (list Read) * nat * list Read :=
  let cluster :=
    CountTrie.find_equal_length_optimized trie molecular_barcode.1
      allowed_mismatches allow_indels in
  fold_left trie_collect cluster (trie, reads, O, []).

Definition trie_iteration (allowed_mismatches min_cluster_size : Z)
    (allow_indels : bool)
    (st : gmap string nat * gmap string (list Read) * list Read)
    (molecular_barcode : record)
    : M (gmap string nat * gmap string (list Read) * list Read) :=
  let '(trie, reads, clusters) := st in
  let '(trie, reads, size_cluster, original_reads) :=
    trie_neighbourhood allowed_mismatches allow_indels trie reads
                       molecular_barcode in
  if (Z.of_nat size_cluster >=? min_cluster_size)
     && (0 <? length original_reads)%nat
  then read ← random_choice original_reads;
       mret (trie, reads, clusters ++ [read])
  else mret (trie, reads, clusters ++ original_reads).

Definition countMolecularBarcodesPrefixtrie
    (molecular_barcodes : list record) (allowed_mismatches : Z)
    (min_cluster_size : Z) (allow_indels : bool) : M (list Read) :=
  let '(trie, reads) := fold_left trie_fill molecular_barcodes (∅, ∅) in
  st ← for_in molecular_barcodes
         (trie_iteration allowed_mismatches min_cluster_size allow_indels)
         (trie, reads, []);
  mret st.2.
End Clustering.

(** *** [countMolecularBarcodesClustersHierarchical]

    [scipy.cluster.hierarchy.linkage] and [fcluster] are library code: the
    strategy is defined over any pair of functions in their place, and the
    statements below say what they assume of them.  The distances and the
    cluster labels are naturals. *)

(** [np.triu_indices(n, 1)]: the pairs [i < j < n], row by row. *)
Definition triu_indices (n : nat) : list (nat * nat) :=
  flat_map (fun i => map (fun j => (i, j)) (seq (S i) (n - S i))) (seq 0 n).

(** [l[i]] for [0 <= i]. *)
Definition getitem {A : Type} (l : list A) (i : nat) : result A :=
  from_option Ok (Raise IndexError) (l !! i).

Section Hierarchical.
Context {Read : Type}.
Context {Dendrogram : Type}.
Context (linkage : list nat -> string -> Dendrogram).
Context (fcluster : Dendrogram -> Z -> list nat).

Local Abbreviation record := (string * Read)%type.

(** The distance computation function. *)
Definition d (molecular_barcodes : list record) (coord : nat * nat)
    : result nat :=
  let '(i, j) := coord in
  mi ← getitem molecular_barcodes i;
  mj ← getitem molecular_barcodes j;
  hamming_distance mi.1 mj.1.

Definition hier_append (items : gmap nat (list nat)) (e : nat * nat)
    : gmap nat (list nat) :=
  let '(i, item) := e in
  <[item := default [] (items !! item) ++ [i]]> items.

(** The flat clusters: the indices of the records by cluster label. *)
Definition hier_items (molecular_barcodes : list record)
    (allowed_mismatches : Z) (method : string)
    : result (gmap nat (list nat)) :=
  let indices := triu_indices (length molecular_barcodes) in
  distance_matrix ← mapM (d molecular_barcodes) indices;
  let linkage_cluster := linkage distance_matrix method in
  let flat_clusters := fcluster linkage_cluster allowed_mismatches in
  Ok (fold_left hier_append (enumerate flat_clusters) ∅).

Definition hier_filter (molecular_barcodes : list record)
    (min_cluster_size : Z) (clusters : list Read) (item : nat * list nat)
    : M (list Read) :=
  let members := item.2 in
  if Z.of_nat (length members) >=? min_cluster_size
  then i ← random_choice members;
       chosen ← lift (getitem molecular_barcodes i);
       mret (clusters ++ [chosen.2])
  else reads ← lift (mapM (fun i => mb ← getitem molecular_barcodes i;
                                    Ok mb.2) members);
       mret (clusters ++ reads).

Definition countMolecularBarcodesClustersHierarchical
    (molecular_barcodes : list record) (allowed_mismatches : Z)
    (min_cluster_size : Z) (method : string) : M (list Read) :=
  if (length molecular_barcodes <=? 2)%nat
  then countMolecularBarcodesClustersNaive molecular_barcodes
         allowed_mismatches min_cluster_size
  else
    items ← lift (hier_items molecular_barcodes allowed_mismatches method);
    for_in (iteritems items) (hier_filter molecular_barcodes min_cluster_size)
           [].
End Hierarchical.

(** ** Cluster membership

    What each strategy groups before it picks representatives: the reads
    of every cluster, in the order in which the strategy resolves the
    clusters. *)

Section Membership.
Context {Read : Type}.

Local Abbreviation record := (string * Read)%type.

(** The clusters of the naive strategy: the values of [clusters_dict]. *)
Definition naive_clusters (molecular_barcodes : list record)
    (allowed_mismatches : Z) : result (list (list record)) :=
  clusters_dict ← naive_clusters_dict molecular_barcodes allowed_mismatches;
  Ok (map snd (iteritems clusters_dict)).

(** The clusters of the trie strategy: [size_cluster] and [original_reads]
    of every iteration of the second loop. *)
Fixpoint trie_clusters_from (allowed_mismatches : Z) (allow_indels : bool)
    (trie : gmap string nat) (reads : gmap string (list Read))
    (molecular_barcodes : list record) : list (nat * list Read) :=
  match molecular_barcodes with
  | [] => []
  | molecular_barcode :: rest =>
      let '(trie', reads', size_cluster, original_reads) :=
        trie_neighbourhood allowed_mismatches allow_indels trie reads
                           molecular_barcode in
      (size_cluster, original_reads)
        :: trie_clusters_from allowed_mismatches allow_indels trie' reads' rest
  end.

Definition trie_clusters (molecular_barcodes : list record)
    (allowed_mismatches : Z) (allow_indels : bool) : list (nat * list Read) :=
  let '(trie, reads) := fold_left trie_fill molecular_barcodes (∅, ∅) in
  trie_clusters_from allowed_mismatches allow_indels trie reads
                     molecular_barcodes.

Context {Dendrogram : Type}.
Context (linkage : list nat -> string -> Dendrogram).
Context (fcluster : Dendrogram -> Z -> list nat).

(** The clusters of the hierarchical strategy: the records at the indices
    of every value of [items], or the naive clusters on a small input. *)
Definition hier_clusters (molecular_barcodes : list record)
    (allowed_mismatches : Z) (method : string)
    : result (list (list record)) :=
  if (length molecular_barcodes <=? 2)%nat
  then naive_clusters molecular_barcodes allowed_mismatches
  else
    items ← hier_items linkage fcluster molecular_barcodes
                       allowed_mismatches method;
    mapM (fun item : nat * list nat => mapM (getitem molecular_barcodes) item.2)
         (iteritems items).

Inductive strategy : Type :=
| Naive
| Prefixtrie (allow_indels : bool)
| Hierarchical (method : string).

(** The non-empty groups of reads a strategy forms. *)
Definition membership (s : strategy) (molecular_barcodes : list record)
    (allowed_mismatches : Z) : result (list (list Read)) :=
  match s with
  | Naive =>
      clusters ← naive_clusters molecular_barcodes allowed_mismatches;
      Ok (map (map snd) clusters)
  | Prefixtrie allow_indels =>
      Ok (List.filter (fun g => negb (Nat.eqb (length g) 0))
                      (map snd (trie_clusters molecular_barcodes
                                              allowed_mismatches allow_indels)))
  | Hierarchical method =>
      clusters ← hier_clusters molecular_barcodes allowed_mismatches method;
      Ok (map (map snd) clusters)
  end.
(** The strategy run on the records. *)
Definition run (s : strategy) (molecular_barcodes : list record)
    (allowed_mismatches min_cluster_size : Z) : M (list Read) :=
  match s with
  | Naive =>
      countMolecularBarcodesClustersNaive molecular_barcodes
        allowed_mismatches min_cluster_size
  | Prefixtrie allow_indels =>
      countMolecularBarcodesPrefixtrie molecular_barcodes allowed_mismatches
        min_cluster_size allow_indels
  | Hierarchical method =>
      countMolecularBarcodesClustersHierarchical linkage fcluster
        molecular_barcodes allowed_mismatches min_cluster_size method
  end.
End Membership.

(** ** Agglomerative linkage and the cut of its dendrogram

    Modelled from the spec: [scipy.cluster.hierarchy.linkage] and
    [fcluster] are library code that is not among the sources.  The spec
    asks of them: agglomerative linkage over the pairwise distance matrix,
    with the inter-cluster distance the minimum pairwise distance between
    members for the method "single" and the maximum for the method
    "complete"; and a cut of the resulting dendrogram at a distance
    threshold that gives the flat cluster of every record.  The model
    starts from one cluster per record and merges, as long as two clusters
    are left, the two clusters at the smallest inter-cluster distance (the
    first such pair on a tie); the dendrogram is the list of the merges
    with the distance of each.  The cut keeps a merge when its distance is
    at most the threshold and the two clusters it joins were kept.  The
    labels start at 1.  The spec names the two methods only: any other
    name is read as "single", the default of the function. *)
Module Agglomerative.
(** The number of observations of a condensed distance matrix. *)
Definition observations (distance_matrix : list nat) : nat :=
  default O (List.find (fun n => (n * (n - 1) / 2 =? length distance_matrix)%nat)
                       (seq 0 (S (S (length distance_matrix))))).

(** The distance of two observations in the condensed matrix. *)
Definition distance (distance_matrix : list nat) (i j : nat) : nat :=
  let key := if (i <? j)%nat then (i, j) else (j, i) in
  match List.find (fun e : nat * nat * nat =>
                     (e.1.1 =? key.1)%nat && (e.1.2 =? key.2)%nat)
                  (combine (triu_indices (observations distance_matrix))
                           distance_matrix) with
  | Some e => e.2
  | None => O
  end.

(** The inter-cluster distance of the method. *)
Definition between (method : string) (distance_matrix : list nat)
    (A B : list nat) : nat :=
  let distances :=
    flat_map (fun a => map (distance distance_matrix a) B) A in
  if String.eqb method "complete"
  then fold_right Nat.max O distances
  else fold_right Nat.min (hd O distances) distances.

(** The pairs of clusters. *)
Fixpoint pairs {X : Type} (l : list X) : list (X * X) :=
  match l with
  | [] => []
  | x :: l' => map (pair x) l' ++ pairs l'
  end.

(** The two clusters at the smallest inter-cluster distance. *)
Definition closest (method : string) (distance_matrix : list nat)
    (clusters : list (list nat)) : option (list nat * list nat * nat) :=
  fold_left (fun best (AB : list nat * list nat) =>
               let height := between method distance_matrix AB.1 AB.2 in
               match best with
               | None => Some (AB, height)
               | Some (_, lowest) =>
                   if (height <? lowest)%nat then Some (AB, height) else best
               end)
            (pairs clusters) None.

(** The clusters after two of them have been merged. *)
Definition merge (A B : list nat) (clusters : list (list nat))
    : list (list nat) :=
  List.filter (fun C => negb (bool_decide (C = A) || bool_decide (C = B)))
              clusters
  ++ [A ++ B].

Fixpoint agglomerate (method : string) (distance_matrix : list nat)
    (steps : nat) (clusters : list (list nat))
    : list (list nat * list nat * nat) :=
  match steps with
  | O => []
  | S steps' =>
      match closest method distance_matrix clusters with
      | None => []
      | Some (A, B, height) =>
          (A, B, height)
            :: agglomerate method distance_matrix steps' (merge A B clusters)
      end
  end.

(** One cluster per observation. *)
Definition singletons (n : nat) : list (list nat) :=
  map (fun i => [i]) (seq 0 n).

(** The dendrogram: the number of observations and the merges. *)
Definition linkage (distance_matrix : list nat) (method : string)
    : nat * list (list nat * list nat * nat) :=
  let n := observations distance_matrix in
  (n, agglomerate method distance_matrix (n - 1) (singletons n)).

Definition cut (t : Z) (clusters : list (list nat))
    (row : list nat * list nat * nat) : list (list nat) :=
  let '(A, B, height) := row in
  if (Z.of_nat height <=? t)
     && existsb (fun C => bool_decide (C = A)) clusters
     && existsb (fun C => bool_decide (C = B)) clusters
  then merge A B clusters
  else clusters.

(** The label of an observation: the rank of its flat cluster. *)
Fixpoint label (clusters : list (list nat)) (k i : nat) : nat :=
  match clusters with
  | [] => O
  | C :: clusters' =>
      if existsb (Nat.eqb i) C then k else label clusters' (S k) i
  end.

Definition fcluster (dendrogram : nat * list (list nat * list nat * nat))
    (t : Z) : list nat :=
  let '(n, merges) := dendrogram in
  map (label (fold_left (cut t) merges (singletons n)) 1) (seq 0 n).
End Agglomerative.

(** The strategies the specification names: for the hierarchical one, the
    linkage methods "single" and "complete". *)
Definition named_method (s : strategy) : Prop :=
  match s with
  | Hierarchical method => method = "single"%string \/ method = "complete"%string
  | _ => True
  end.
(** ** The naive clusterer as the specification words it

    Sort the records by barcode; walk them with a current cluster,
    comparing each record with the last one added to it; seal the current
    cluster when the distance exceeds the threshold; then resolve every
    cluster by the size policy. *)

Section NaiveSpec.
Context {Read : Type}.

Local Abbreviation record := (string * Read)%type.

Definition spec_walk (max_mismatches : Z)
    (st : list (list record) * list record) (r : record)
    : result (list (list record) * list record) :=
  let '(sealed, current) := st in
  match last current with
  | None => Ok (sealed, [r])
  | Some previous =>
      distance ← hamming_distance previous.1 r.1;
      if Z.of_nat distance <=? max_mismatches
      then Ok (sealed, current ++ [r])
      else Ok (sealed ++ [current], [r])
  end.

Definition spec_clusters (records : list record) (max_mismatches : Z)
    : result (list (list record)) :=
  st ← for_in (sorted (fun x y => str_le x.1 y.1) records)
              (spec_walk max_mismatches) ([], []);
  Ok (match st.2 with
      | [] => st.1
      | _ => st.1 ++ [st.2]
      end).

Definition spec_resolve (min_cluster_size : Z) (cluster : list record)
    : M (list Read) :=
  if Z.of_nat (length cluster) >=? min_cluster_size
  then member ← random_choice cluster; mret [member.2]
  else mret (map snd cluster).

Definition cluster_naive (records : list record)
    (max_mismatches min_cluster_size : Z) : M (list Read) :=
  clusters ← lift (spec_clusters records max_mismatches);
  outputs ← mapM (spec_resolve min_cluster_size) clusters;
  mret (concat outputs).
End NaiveSpec.

(** ** Chains

    The runs of a list in which every element is linked to the next. *)
Fixpoint chain {A : Type} (link : A -> A -> bool) (l : list A)
    {struct l} : list (list A) :=
  match l with
  | [] => []
  | x :: l' =>
      match l' with
      | [] => [[x]]
      | y :: _ =>
          match chain link l' with
          | [] => [[x]]
          | c :: cs => if link x y then (x :: c) :: cs else [x] :: c :: cs
          end
      end
  end.

(** A list put in front of the first chain. *)
Definition prepend {A : Type} (c : list A) (cs : list (list A))
    : list (list A) :=
  match cs with
  | [] => [c]
  | h :: tl => (c ++ h) :: tl
  end.

(** Two barcodes are linked at a threshold when they differ in at most
    that many positions. *)
Definition close (allowed_mismatches : Z) (a b : string) : bool :=
  Z.of_nat (mismatches a b) <=? allowed_mismatches.

Definition linked {Read : Type} (allowed_mismatches : Z)
    (x y : string * Read) : bool :=
  close allowed_mismatches x.1 y.1.

(** All barcodes have one length. *)
Definition uniform {Read : Type} (records : list (string * Read)) : Prop :=
  forall x y, In x records -> In y records ->
              String.length x.1 = String.length y.1.

(** ** Groups of reads

    The notions in which the properties of the strategies are stated. *)

(** The values listed with a given key, in input order: the reads of the
    records with a given barcode. *)
Definition reads_with `{EqDecision K} {V : Type} (records : list (K * V))
    (key : K) : list V :=
  map snd (List.filter (fun r => bool_decide (r.1 = key)) records).

(** Exact-match grouping: one group per distinct barcode. *)
Definition exact_groups {Read : Type} (records : list (string * Read))
    : list (list Read) :=
  map (reads_with records) (nodup string_dec (map fst records)).

(** Two lists of groups are the same partition when they hold the same
    groups up to the order of the groups and the order inside a group. *)
Definition same_membership {X : Type} (gs gs' : list (list X)) : Prop :=
  exists gs'', Permutation gs gs'' /\ Forall2 (@Permutation X) gs'' gs'.

(** The size policy: a group of at least [min_cluster_size] reads gives one
    of its reads, a smaller group gives all its reads. *)
Definition resolved {X : Type} (min_cluster_size : Z) (group out : list X)
    : Prop :=
  (Z.of_nat (length group) >= min_cluster_size
   /\ exists x, In x group /\ out = [x])
  \/ (Z.of_nat (length group) < min_cluster_size /\ out = group).

(** A [defaultdict(list)] after every value has been appended under its
    key: the barcode-to-reads map of the trie strategy after its first
    loop. *)
Definition reads_map `{Countable K} {V : Type} (reads : gmap K (list V))
    (records : list (K * V)) : gmap K (list V) :=
  fold_left (fun reads mb => <[mb.1 := default [] (reads !! mb.1) ++ [mb.2]]> reads)
            records reads.

(** A map without the given keys. *)
Definition remove_all {V : Type} (keys : list string) (m : gmap string V)
    : gmap string V :=
  fold_left (fun m k => delete k m) keys m.

(** The values a map holds under the given keys. *)
Definition gather {V : Type} (m : gmap string (list V)) (keys : list string)
    : list V :=
  concat (map (fun k => default [] (m !! k)) keys).

(** All the values of a map. *)
Definition pool `{Countable K} {V : Type} (m : gmap K (list V)) : list V :=
  concat (map snd (map_to_list m)).

(** The barcodes still indexed that a query of the trie strategy finds. *)
Definition neighbours {Read : Type} (allowed_mismatches : Z)
    (allow_indels : bool) (reads : gmap string (list Read)) (query : string)
    : list string :=
  CountTrie.find_equal_length_optimized (length <$> reads) query
    allowed_mismatches allow_indels.

(** The barcode-to-reads map after the second loop of the trie strategy
    has gone through the given records. *)
Fixpoint reads_after {Read : Type} (allowed_mismatches : Z)
    (allow_indels : bool) (reads : gmap string (list Read))
    (molecular_barcodes : list (string * Read)) : gmap string (list Read) :=
  match molecular_barcodes with
  | [] => reads
  | mb :: rest =>
      reads_after allowed_mismatches allow_indels
        (remove_all (neighbours allowed_mismatches allow_indels reads mb.1)
                    reads)
        rest
  end.

(** The groups of reads the queries of the second loop take out of the
    map, one per record. *)
Fixpoint trie_groups_from {Read : Type} (allowed_mismatches : Z)
    (allow_indels : bool) (reads : gmap string (list Read))
    (molecular_barcodes : list (string * Read)) : list (list Read) :=
  match molecular_barcodes with
  | [] => []
  | mb :: rest =>
      let found := neighbours allowed_mismatches allow_indels reads mb.1 in
      gather reads found
        :: trie_groups_from allowed_mismatches allow_indels
             (remove_all found reads) rest
  end.

Definition nonempty {X : Type} (g : list X) : bool :=
  negb (Nat.eqb (length g) 0).

(** What an iteration of the trie strategy adds to the output for the
    group it has gathered. *)
Definition trie_out {X : Type} (min_cluster_size : Z) (group out : list X)
    : Prop :=
  (group = [] /\ out = []) \/ (group <> [] /\ resolved min_cluster_size group out).

(** The invariant of the second loop of the trie strategy: the trie counts
    the reads the map holds under every barcode, and the map holds no
    empty list. *)
Definition lockstep {Read : Type} (trie : gmap string nat)
    (reads : gmap string (list Read)) : Prop :=
  trie = length <$> reads /\ forall k rs, reads !! k = Some rs -> rs <> [].

(** ** The flat clusters of the hierarchical strategy *)

(** The condensed distance matrix of barcodes of one length. *)
Definition distance_matrix {Read : Type}
    (molecular_barcodes : list (string * Read)) : list nat :=
  map (fun coord : nat * nat =>
         mismatches (nth coord.1 (map fst molecular_barcodes) ""%string)
                    (nth coord.2 (map fst molecular_barcodes) ""%string))
      (triu_indices (length molecular_barcodes)).

(** The cluster label of every record. *)
Definition flat_labels {Read Dendrogram : Type}
    (linkage : list nat -> string -> Dendrogram)
    (fcluster : Dendrogram -> Z -> list nat)
    (molecular_barcodes : list (string * Read)) (allowed_mismatches : Z)
    (method : string) : list nat :=
  fcluster (linkage (distance_matrix molecular_barcodes) method)
           allowed_mismatches.

(** The pairs (label, index) in index order. *)
Definition labelled (labels : list nat) : list (nat * nat) :=
  map (fun e : nat * nat => (e.2, e.1)) (enumerate labels).

(** ** Clusters of barcodes *)

(** The record carries one of the given barcodes. *)
Definition has_barcode {Read : Type} (barcodes : list string)
    (r : string * Read) : bool :=
  existsb (String.eqb r.1) barcodes.

(** A list without its adjacent repetitions: the distinct barcodes of a
    sorted list. *)
Fixpoint uniq (l : list string) {struct l} : list string :=
  match l with
  | [] => []
  | a :: l' =>
      match l' with
      | [] => [a]
      | b :: _ => if String.eqb a b then uniq l' else a :: uniq l'
      end
  end.

(** * Filtering of the mapped reads

    A shallow embedding of the loop of [filterMappedReads] of
    [stpipeline/common/sam_utils.py], of the check that follows it and of
    the update of the QA object.  The alignment file is the list of its
    records and the two output files are the lists of the records written
    to them.  A record has the attributes the function reads; its optional
    fields are kept abstract, and pysam's [set_tag], which updates them, is
    a parameter that may raise.  The names of the files ([getExtension],
    [os.path]) and the log are left out. *)

Module Sam.

(** What the function can raise: an exception of its own list and
    dictionary accesses, the [RuntimeError] of its final check, or an
    exception of pysam. *)
Inductive raised : Type :=
| Builtin (e : exn)
| RuntimeError (error : string)
| Pysam (error : string).

Inductive outcome (A : Type) : Type :=
| Done (a : A)
| Raises (e : raised).

Arguments Done {A} a.
Arguments Raises {A} e.

Global Instance outcome_ret : MRet outcome := fun A a => Done a.

Global Instance outcome_bind : MBind outcome := fun A B k r =>
  match r with
  | Done a => k a
  | Raises e => Raises e
  end.

(** [s.split(sep)] for a one-character separator. *)
Fixpoint split (sep : ascii) (s : string) : list string :=
  match s with
  | EmptyString => [EmptyString]
  | String c s' =>
      if Ascii.eqb c sep then EmptyString :: split sep s'
      else match split sep s' with
           | token :: tokens => String c token :: tokens
           | [] => [String c EmptyString]
           end
  end.

(** [l[i]] on the tokens of a tag. *)
Definition item (l : list string) (i : nat) : outcome string :=
  from_option Done (Raises (Builtin IndexError)) (l !! i).

(** The attributes of a [pysam.AlignedSegment] the function uses.  The
    function assumes that all the reads are mapped, so [cigartuples] is a
    list. *)
Record AlignedSegment (Tags : Type) : Type := {
  query_name : string;
  is_secondary : bool;
  cigartuples : list (Z * Z);
  tags : Tags
}.

Arguments query_name {Tags} _.
Arguments is_secondary {Tags} _.
Arguments cigartuples {Tags} _.
Arguments tags {Tags} _.

(** The variables of the loop. *)
Record state (Tags : Type) : Type := {
  present : Z;
  dropped_secondary : Z;
  dropped_short : Z;
  dropped_barcode : Z;
  outfile : list (AlignedSegment Tags);
  outfile_discarded : list (AlignedSegment Tags)
}.

Arguments present {Tags} _.
Arguments dropped_secondary {Tags} _.
Arguments dropped_short {Tags} _.
Arguments dropped_barcode {Tags} _.
Arguments outfile {Tags} _.
Arguments outfile_discarded {Tags} _.

Section FilterMappedReads.
Context {Tags : Type}.
(** The builtin [hash] on read names. *)
Context (hash : string -> Z).
(** pysam's [set_tag] on the optional fields of a record: the tag, the
    value ([None] deletes the tag) and the value type. *)
Context (set_tag : Tags -> string -> option string -> option string
                   -> outcome Tags).

Local Abbreviation segment := (AlignedSegment Tags).

Definition sam_record_set_tag (sam_record : segment) (tag : string)
    (value value_type : option string) : outcome segment :=
  tags' ← set_tag (tags sam_record) tag value value_type;
  mret {| query_name := query_name sam_record;
          is_secondary := is_secondary sam_record;
          cigartuples := cigartuples sam_record;
          tags := tags' |}.

(** The body of the loop over the tags of a read. *)
Definition add_tag (sam_record : segment) (tag : string) : outcome segment :=
  let tag_tokens := split ":"%char tag in
  tag_tokens_0 ← item tag_tokens 0;
  tag_tokens_2 ← item tag_tokens 2;
  tag_tokens_1 ← item tag_tokens 1;
  sam_record_set_tag sam_record tag_tokens_0 (Some tag_tokens_2)
                     (Some tag_tokens_1).

(** The block under [try]. *)
Definition add_tags (hash_reads : gmap Z (list string))
    (sam_record : segment) : outcome segment :=
  let key := hash (query_name sam_record) in
  tags ← from_option Done (Raises (Builtin KeyError)) (hash_reads !! key);
  for_in tags add_tag sam_record.

(** How many bases were mapped. *)
Definition mapped_bases_of (sam_record : segment) : Z :=
  fold_left (fun mapped_bases (cigar_tuple : Z * Z) =>
               if cigar_tuple.1 =? 0 then mapped_bases + cigar_tuple.2
               else mapped_bases)
            (cigartuples sam_record) 0.

(** One iteration of the loop over the records. *)
Definition filter_record (hash_reads : gmap Z (list string))
    (min_length : Z) (keep_discarded_files : bool)
    (st : state Tags) (sam_record : segment) : outcome (state Tags) :=
  let present := present st + 1 in
  match add_tags hash_reads sam_record with
  | Raises (Builtin KeyError) =>
      Done {| present := present;
              dropped_secondary := dropped_secondary st;
              dropped_short := dropped_short st;
              dropped_barcode := dropped_barcode st + 1;
              outfile := outfile st;
              outfile_discarded := outfile_discarded st |}
  | Raises e => Raises e
  | Done sam_record =>
      let mapped_bases := mapped_bases_of sam_record in
      sam_record ←
        (if negb (is_secondary sam_record)
         then sam_record_set_tag sam_record "NH" None None
         else Done sam_record);
      if is_secondary sam_record
      then
        Done {| present := present;
                dropped_secondary := dropped_secondary st + 1;
                dropped_short := dropped_short st;
                dropped_barcode := dropped_barcode st;
                outfile := outfile st;
                outfile_discarded :=
                  if keep_discarded_files
                  then outfile_discarded st ++ [sam_record]
                  else outfile_discarded st |}
      else if negb (mapped_bases =? 0) && (mapped_bases <? min_length)
      then
        Done {| present := present;
                dropped_secondary := dropped_secondary st;
                dropped_short := dropped_short st + 1;
                dropped_barcode := dropped_barcode st;
                outfile := outfile st;
                outfile_discarded :=
                  if keep_discarded_files
                  then outfile_discarded st ++ [sam_record]
                  else outfile_discarded st |}
      else
        Done {| present := present;
                dropped_secondary := dropped_secondary st;
                dropped_short := dropped_short st;
                dropped_barcode := dropped_barcode st;
                outfile := outfile st ++ [sam_record];
                outfile_discarded := outfile_discarded st |}
  end.

(** The loop over the records of the input file. *)
Definition filter_records (hash_reads : gmap Z (list string))
    (min_length : Z) (keep_discarded_files : bool)
    (mapped_reads : list segment) : outcome (state Tags) :=
  for_in mapped_reads
         (filter_record hash_reads min_length keep_discarded_files)
         {| present := 0;
            dropped_secondary := 0;
            dropped_short := 0;
            dropped_barcode := 0;
            outfile := [];
            outfile_discarded := [] |}.

(** The function: the records of [mapped_reads], the name of the output
    file, what [fileOk] answers for it once it is closed, and in return
    the new [qa_stats.reads_after_mapping], the records written to the
    output file and those written to the file of discarded records. *)
Definition filterMappedReads (mapped_reads : list segment)
    (hash_reads : gmap Z (list string)) (min_length : Z)
    (keep_discarded_files : bool) (file_output : string) (fileOk : bool)
    : outcome (Z * list segment * list segment) :=
  st ← filter_records hash_reads min_length keep_discarded_files
                      mapped_reads;
  if negb fileOk
  then
    let error :=
      ("Error filtering mapped reads: output file is not present "
       ++ file_output)%string in
    Raises (RuntimeError (error ++ String (ascii_of_nat 10) EmptyString))
  else Done (present st - (dropped_secondary st + dropped_short st),
             outfile st, outfile_discarded st).

(** The notions in which the properties of the filter are stated: the
    read has an entry in [hash_reads]; its alignment is too short; it is
    written to the output file; it is discarded. *)
Definition annotated (hash_reads : gmap Z (list string))
    (sam_record : segment) : bool :=
  bool_decide (is_Some (hash_reads !! hash (query_name sam_record))).

Definition too_short (min_length : Z) (sam_record : segment) : bool :=
  negb (mapped_bases_of sam_record =? 0)
  && (mapped_bases_of sam_record <? min_length).

Definition kept (hash_reads : gmap Z (list string)) (min_length : Z)
    (sam_record : segment) : bool :=
  annotated hash_reads sam_record
  && negb (is_secondary sam_record)
  && negb (too_short min_length sam_record).

(** A written record is the record read, up to its optional fields. *)
Definition same_read (sam_record written : segment) : Prop :=
  query_name written = query_name sam_record
  /\ is_secondary written = is_secondary sam_record
  /\ cigartuples written = cigartuples sam_record.

Definition discarded (hash_reads : gmap Z (list string)) (min_length : Z)
    (sam_record : segment) : bool :=
  annotated hash_reads sam_record
  && (is_secondary sam_record || too_short min_length sam_record).
End FilterMappedReads.

(** The optional fields as the list of (tag, value type, value), to run
    the function: [set_tag] drops the tag and, for a value, appends it. *)
Definition set_tag_list (tags : list (string * string * string))
    (tag : string) (value value_type : option string)
    : outcome (list (string * string * string)) :=
  let others := List.filter (fun t => negb (String.eqb t.1.1 tag)) tags in
  match value with
  | None => Done others
  | Some v => Done (others ++ [(tag, default "Z"%string value_type, v)])
  end.
End Sam.

(** * Properties *)

(** ** The sort *)

Section SortFacts.
Context {A : Type} (le : A -> A -> bool).

Lemma insert_sorted_Permutation (x : A) (l : list A) :
  Permutation (insert_sorted le x l) (x :: l).
Proof.
  induction l as [|y l IH]; simpl; [reflexivity|].
  destruct (le x y); [reflexivity|].
  rewrite IH. apply perm_swap.
Qed.

Lemma sorted_Permutation (l : list A) : Permutation (sorted le l) l.
Proof.
  induction l as [|x l IH]; simpl; [reflexivity|].
  rewrite insert_sorted_Permutation. now constructor.
Qed.

Lemma sorted_length (l : list A) : length (sorted le l) = length l.
Proof. apply Permutation_length, sorted_Permutation. Qed.

Hypothesis le_total : forall x y, le x y = true \/ le y x = true.
Hypothesis le_trans : forall x y z, le x y = true -> le y z = true -> le x z = true.

Lemma insert_sorted_StronglySorted (x : A) (l : list A) :
  StronglySorted (fun a b => le a b = true) l ->
  StronglySorted (fun a b => le a b = true) (insert_sorted le x l).
Proof.
  induction 1 as [|y l Hs IH Hy]; simpl.
  - repeat constructor.
  - destruct (le x y) eqn:E.
    + constructor; [now constructor|].
      constructor; [exact E|].
      eapply List.Forall_impl; [|exact Hy]. intros z Hz. now apply le_trans with y.
    + constructor; [exact IH|].
      assert (Hyx : le y x = true) by (destruct (le_total x y); congruence).
      eapply Permutation_Forall; [symmetry; apply insert_sorted_Permutation|].
      now constructor.
Qed.

Lemma sorted_StronglySorted (l : list A) :
  StronglySorted (fun a b => le a b = true) (sorted le l).
Proof.
  induction l; simpl; [constructor|]. now apply insert_sorted_StronglySorted.
Qed.

Lemma insert_sorted_head (x : A) (l : list A) :
  Forall (fun y => le x y = true) l -> insert_sorted le x l = x :: l.
Proof. intros H. destruct H as [|y l Hy _]; simpl; [reflexivity|]. now rewrite Hy. Qed.

Lemma sorted_id (l : list A) :
  StronglySorted (fun a b => le a b = true) l -> sorted le l = l.
Proof.
  induction 1 as [|x l Hs IH Hx]; simpl; [reflexivity|].
  rewrite IH. now apply insert_sorted_head.
Qed.

(** Stability: the sort commutes with taking a sub-list by a predicate. *)
Lemma filter_insert_sorted (p : A -> bool) (x : A) (l : list A) :
  StronglySorted (fun a b => le a b = true) l ->
  List.filter p (insert_sorted le x l)
  = if p x then insert_sorted le x (List.filter p l) else List.filter p l.
Proof.
  induction 1 as [|y l Hs IH Hy]; simpl.
  - now destruct (p x).
  - destruct (le x y) eqn:E; simpl.
    + destruct (p x) eqn:Px; [|reflexivity].
      destruct (p y) eqn:Py; simpl; [now rewrite E|].
      symmetry. apply insert_sorted_head.
      apply List.Forall_forall. intros z Hz. apply filter_In in Hz as [Hz _].
      rewrite List.Forall_forall in Hy. apply le_trans with y; auto.
    + rewrite IH. destruct (p y) eqn:Py; simpl.
      * destruct (p x); [now rewrite E|reflexivity].
      * reflexivity.
Qed.

Lemma filter_sorted (p : A -> bool) (l : list A) :
  List.filter p (sorted le l) = sorted le (List.filter p l).
Proof.
  induction l as [|x l IH]; simpl; [reflexivity|].
  rewrite filter_insert_sorted by apply sorted_StronglySorted.
  destruct (p x); simpl; now rewrite IH.
Qed.
End SortFacts.

(** ** The order of strings *)

Lemma ascii_compare_trans (a b c : ascii) (o : comparison) :
  Ascii.compare a b = o -> Ascii.compare b c = o -> Ascii.compare a c = o.
Proof.
  unfold Ascii.compare. intros H1 H2. destruct o.
  - apply N.compare_eq_iff in H1, H2. apply N.compare_eq_iff. congruence.
  - rewrite N.compare_lt_iff in *. lia.
  - rewrite N.compare_gt_iff in *. lia.
Qed.

Lemma ascii_compare_Eq (a b : ascii) : Ascii.compare a b = Eq -> a = b.
Proof. apply Ascii.compare_eq_iff. Qed.

Lemma string_compare_refl (s : string) : String.compare s s = Eq.
Proof.
  induction s as [|c s IH]; simpl; [reflexivity|].
  unfold Ascii.compare. now rewrite N.compare_refl.
Qed.

Lemma string_compare_Lt_trans (s1 s2 s3 : string) :
  String.compare s1 s2 = Lt -> String.compare s2 s3 = Lt ->
  String.compare s1 s3 = Lt.
Proof.
  revert s2 s3. induction s1 as [|c1 s1 IH]; intros [|c2 s2] [|c3 s3];
    simpl; try congruence.
  destruct (Ascii.compare c1 c2) eqn:E12; try discriminate;
    destruct (Ascii.compare c2 c3) eqn:E23; try discriminate; intros H1 H2.
  - rewrite (ascii_compare_trans _ _ _ _ E12 E23). eauto.
  - apply ascii_compare_Eq in E12. subst. now rewrite E23.
  - apply ascii_compare_Eq in E23. subst. now rewrite E12.
  - now rewrite (ascii_compare_trans _ _ _ _ E12 E23).
Qed.

Lemma str_le_total (a b : string) : str_le a b = true \/ str_le b a = true.
Proof. apply String.leb_total. Qed.

Lemma str_le_refl (a : string) : str_le a a = true.
Proof. unfold str_le, String.leb. now rewrite string_compare_refl. Qed.

Lemma str_le_antisym (a b : string) :
  str_le a b = true -> str_le b a = true -> a = b.
Proof. apply String.leb_antisym. Qed.

Lemma str_le_lt_or_eq (a b : string) :
  str_le a b = true <-> String.compare a b = Lt \/ a = b.
Proof.
  unfold str_le, String.leb. destruct (String.compare a b) eqn:E.
  - apply String.compare_eq_iff in E. tauto.
  - tauto.
  - split; [discriminate|]. intros [H| ->]; [discriminate|].
    now rewrite string_compare_refl in E.
Qed.

Lemma str_le_trans (a b c : string) :
  str_le a b = true -> str_le b c = true -> str_le a c = true.
Proof.
  rewrite !str_le_lt_or_eq. intros [H1| ->] [H2| ->]; auto.
  left. eapply string_compare_Lt_trans; eauto.
Qed.

(** ** The extractor *)

Lemma substring_length (n m : nat) (s : string) :
  String.length (String.substring n m s)
  = Nat.min m (String.length s - n).
Proof.
  revert n m. induction s as [|c s IH]; intros [|n] [|m]; simpl; auto.
  rewrite IH. now rewrite Nat.sub_0_r.
Qed.

Lemma key_le_spec (k1 k2 : string * Z * nat) :
  key_le k1 k2 = true <->
  String.compare k1.1.1 k2.1.1 = Lt
  \/ (k1.1.1 = k2.1.1
      /\ (k1.1.2 < k2.1.2 \/ (k1.1.2 = k2.1.2 /\ (k1.2 <= k2.2)%nat))).
Proof.
  unfold key_le. destruct (String.compare k1.1.1 k2.1.1) eqn:E.
  - apply String.compare_eq_iff in E.
    destruct (Z.compare_spec k1.1.2 k2.1.2) as [H|H|H].
    + rewrite Nat.leb_le. intuition (try congruence; lia).
    + intuition (try congruence; lia).
    + intuition (try congruence; lia).
  - tauto.
  - split; [discriminate|]. intros [H|[H _]]; [discriminate|].
    rewrite H, string_compare_refl in E. discriminate.
Qed.

Lemma string_trichotomy (a b : string) :
  String.compare a b = Lt \/ a = b \/ String.compare b a = Lt.
Proof.
  destruct (String.compare a b) eqn:E; auto.
  - right. left. now apply String.compare_eq_iff.
  - right. right. rewrite String.compare_antisym, E. reflexivity.
Qed.

Lemma key_le_total (k1 k2 : string * Z * nat) :
  key_le k1 k2 = true \/ key_le k2 k1 = true.
Proof.
  rewrite !key_le_spec.
  destruct (string_trichotomy k1.1.1 k2.1.1) as [H|[H|H]]; auto.
  destruct (Z.lt_total k1.1.2 k2.1.2) as [Hz|[Hz|Hz]];
    destruct (Nat.le_ge_cases k1.2 k2.2); intuition (auto with zarith).
Qed.

Lemma key_le_trans (k1 k2 k3 : string * Z * nat) :
  key_le k1 k2 = true -> key_le k2 k3 = true -> key_le k1 k3 = true.
Proof.
  rewrite !key_le_spec. intros [H1|[E1 H1]] [H2|[E2 H2]].
  - left. eapply string_compare_Lt_trans; eauto.
  - left. now rewrite <- E2.
  - left. now rewrite E1.
  - right. split; [congruence|]. lia.
Qed.

Section ExtractFacts.
Context {Read : Type} (read_0 : Read -> string).
Context (mc_start_position mc_end_position : Z).

Local Abbreviation barcode_of :=
  (fun read => slice (read_0 read) mc_start_position mc_end_position).

Lemma extract_loop1_list (reads : list Read) acc counts :
  (fold_left (extract_loop1 read_0 mc_start_position mc_end_position)
             reads (acc, counts)).1
  = acc ++ map (fun read => (barcode_of read, read)) reads.
Proof.
  revert acc counts. induction reads as [|r reads IH]; intros; simpl.
  - now rewrite app_nil_r.
  - rewrite IH. now rewrite <- app_assoc.
Qed.

Lemma extract_loop1_counts (reads : list Read) acc counts (k : string) :
  default O ((fold_left (extract_loop1 read_0 mc_start_position mc_end_position)
                        reads (acc, counts)).2 !! k)
  = (default O (counts !! k)
     + count_occ string_dec (map barcode_of reads) k)%nat.
Proof.
  revert acc counts. induction reads as [|r reads IH]; intros; simpl.
  - lia.
  - rewrite IH.
    destruct (string_dec (barcode_of r) k) as [->|Hne].
    + rewrite lookup_insert_eq. simpl. lia.
    + rewrite lookup_insert_ne by exact Hne. lia.
Qed.

Lemma extract_loop2_list counts (mbs : list (string * Read)) acc :
  fold_left (extract_loop2 counts) mbs acc
  = acc ++ map (fun mc => (mc.1, mc.2, default O (counts !! mc.1),
                           str_count "N"%char mc.1)) mbs.
Proof.
  revert acc. induction mbs as [|mc mbs IH]; intros; simpl.
  - now rewrite app_nil_r.
  - rewrite IH. unfold extract_loop2. now rewrite <- app_assoc.
Qed.

(** The extractor is the sort of the records built read by read. *)
Lemma extract_eq (reads : list Read) :
  mc_end_position > mc_start_position -> mc_start_position >= 0 ->
  extractMolecularBarcodes read_0 reads mc_start_position mc_end_position
  = Ok (sorted extraction_le
          (map (fun read =>
                  (barcode_of read, read,
                   count_occ string_dec (map barcode_of reads)
                             (barcode_of read),
                   str_count "N"%char (barcode_of read))) reads)).
Proof.
  intros H1 H2. unfold extractMolecularBarcodes.
  replace (mc_end_position >? mc_start_position) with true
    by (symmetry; apply Z.gtb_lt; lia).
  replace (mc_start_position >=? 0) with true
    by (symmetry; apply Z.geb_le; lia).
  simpl.
  destruct (fold_left _ reads ([], ∅)) as [mbs counts] eqn:E.
  f_equal. f_equal.
  pose proof (extract_loop1_list reads [] ∅) as Hl.
  rewrite E in Hl. simpl in Hl. subst mbs.
  rewrite extract_loop2_list. simpl. rewrite map_map.
  apply map_ext. intros r. simpl.
  pose proof (extract_loop1_counts reads [] ∅ (barcode_of r)) as Hc.
  rewrite E in Hc. simpl in Hc. rewrite lookup_empty in Hc. simpl in Hc.
  now rewrite Hc.
Qed.
End ExtractFacts.

Lemma extraction_le_before {Read : Type} (x y : @extraction Read) :
  extraction_le x y = true <-> extraction_before x y.
Proof.
  unfold extraction_le, extraction_before. rewrite key_le_spec.
  unfold extraction_key. simpl. intuition lia.
Qed.

(** C6, as amended.  For offsets with end > start >= 0 the extractor
    returns one record per input read; the barcode of a record is the slice
    [start:end] of its read's sequence, of length end - start when the
    sequence has at least end characters (the slice is cut at the end of a
    shorter sequence); its occurrence count is the number of input reads
    with that barcode, at least 1; its N count is the number of 'N' in the
    barcode; and the records come sorted by barcode ascending, occurrences
    descending, N count ascending. *)
Theorem extract_records {Read : Type} (read_0 : Read -> string)
    (reads : list Read) (mc_start_position mc_end_position : Z) :
  mc_end_position > mc_start_position -> mc_start_position >= 0 ->
  exists records,
    extractMolecularBarcodes read_0 reads mc_start_position mc_end_position
    = Ok records
    /\ Permutation (map x_1 records) reads
    /\ Forall (fun x =>
         x_0 x = slice (read_0 (x_1 x)) mc_start_position mc_end_position
         /\ String.length (x_0 x)
            = (Nat.min (Z.to_nat mc_end_position)
                       (String.length (read_0 (x_1 x)))
               - Z.to_nat mc_start_position)%nat
         /\ (mc_end_position <= Z.of_nat (String.length (read_0 (x_1 x))) ->
             Z.of_nat (String.length (x_0 x))
             = mc_end_position - mc_start_position)
         /\ x_2 x
            = count_occ string_dec
                (map (fun read =>
                        slice (read_0 read) mc_start_position mc_end_position)
                     reads)
                (x_0 x)
         /\ (1 <= x_2 x)%nat
         /\ x_3 x = str_count "N"%char (x_0 x)) records
    /\ StronglySorted extraction_before records.
Proof.
  intros H1 H2. rewrite extract_eq by assumption. cbv beta.
  eexists. split; [reflexivity|].
  split; [|split].
  - rewrite sorted_Permutation, map_map. unfold x_1. simpl. now rewrite map_id.
  - eapply Permutation_Forall; [symmetry; apply sorted_Permutation|].
    apply List.Forall_forall. intros x Hx. apply in_map_iff in Hx as [r [<- Hr]].
    unfold x_0, x_1, x_2, x_3. simpl.
    set (bc := slice (read_0 r) mc_start_position mc_end_position).
    assert (Hlen : String.length bc
                   = (Nat.min (Z.to_nat mc_end_position) (String.length (read_0 r))
                      - Z.to_nat mc_start_position)%nat).
    { unfold bc, slice. rewrite substring_length. lia. }
    repeat split; auto.
    + intros Hl. rewrite Hlen. lia.
    + apply (count_occ_In string_dec). apply in_map_iff. now exists r.
  - eapply StronglySorted_ind with
      (P := fun l => StronglySorted extraction_before l)
      (R := fun a b : @extraction Read => extraction_le a b = true).
    + constructor.
    + intros a l _ IH Ha. constructor; [exact IH|].
      eapply List.Forall_impl; [|exact Ha]. intros b. apply extraction_le_before.
    + apply sorted_StronglySorted.
      * intros x y. apply key_le_total.
      * intros x y z. apply key_le_trans.
Qed.

Lemma extract_records_witness :
  4 > 1 /\ 1 >= 0
  /\ exists records,
       extractMolecularBarcodes (fun r : string => r)
         ["ACGTN"; "TTGTA"; "GCGTN"]%string 1 4 = Ok records
       /\ Permutation (map x_1 records) ["ACGTN"; "TTGTA"; "GCGTN"]%string
       /\ StronglySorted extraction_before records.
Proof.
  split; [lia|]. split; [lia|].
  destruct (extract_records (fun r : string => r)
              ["ACGTN"; "TTGTA"; "GCGTN"]%string 1 4)
    as [records [E [P [_ S]]]]; [lia|lia|].
  exists records. auto.
Defined.

(** C6, as stated, fails on a read shorter than the end offset: the
    barcode of "ACG" for the offsets 1 and 5 is "CG", not 4 characters. *)
Lemma extract_short_read_counterexample :
  extractMolecularBarcodes (fun r : string => r) ["ACG"%string] 1 5
  = Ok [("CG"%string, "ACG"%string, 1%nat, 0%nat)]
  /\ Z.of_nat (String.length "CG") <> 5 - 1.
Proof. split; [reflexivity|discriminate]. Qed.

(** C8.  The extractor raises the assertion error exactly when the offsets
    violate end > start >= 0, and then returns nothing; on offsets that
    satisfy it, the call returns its records and raises nothing. *)
Theorem extract_invalid_range {Read : Type} (read_0 : Read -> string)
    (reads : list Read) (mc_start_position mc_end_position : Z) :
  (extractMolecularBarcodes read_0 reads mc_start_position mc_end_position
   = Raise AssertionError
   <-> ~ (mc_end_position > mc_start_position /\ mc_start_position >= 0))
  /\ (mc_end_position > mc_start_position /\ mc_start_position >= 0 ->
      exists records,
        extractMolecularBarcodes read_0 reads mc_start_position
                                 mc_end_position = Ok records).
Proof.
  destruct (Z_gt_dec mc_end_position mc_start_position) as [H1|H1];
    [destruct (Z_ge_dec mc_start_position 0) as [H2|H2]|].
  - rewrite (extract_eq read_0 _ _ reads H1 H2). split.
    + split; [discriminate|tauto].
    + eauto.
  - split; [|tauto]. split; [tauto|]. intros _.
    unfold extractMolecularBarcodes.
    replace (mc_start_position >=? 0) with false
      by (symmetry; rewrite Z.geb_leb; apply Z.leb_gt; lia).
    now rewrite andb_false_r.
  - split; [|tauto]. split; [tauto|]. intros _.
    unfold extractMolecularBarcodes.
    replace (mc_end_position >? mc_start_position) with false
      by (symmetry; rewrite Z.gtb_ltb; apply Z.ltb_ge; lia).
    reflexivity.
Qed.

(** ** Results and loops *)

Lemma bind_Ok {A B : Type} (a : A) (k : A -> result B) : (Ok a ≫= k) = k a.
Proof. reflexivity. Qed.

Lemma bind_Raise {A B : Type} (e : exn) (k : A -> result B) :
  (Raise e ≫= k) = Raise e.
Proof. reflexivity. Qed.

Lemma for_in_cons {T : Type -> Type} `{!MBind T, !MRet T} {A S : Type}
    (x : A) (l : list A) (body : S -> A -> T S) (st : S) :
  for_in (x :: l) body st = (body st x ≫= for_in l body).
Proof. reflexivity. Qed.

Lemma sorted_perm_unique {A : Type} (R : A -> A -> Prop) (l1 l2 : list A) :
  (forall a b, In a l1 -> In b l1 -> R a b -> R b a -> a = b) ->
  StronglySorted R l1 -> StronglySorted R l2 -> Permutation l1 l2 -> l1 = l2.
Proof.
  intros Hanti H1. revert l2. induction H1 as [|a l1 H1 IH Ha]; intros l2 H2 P.
  - apply Permutation_nil in P. now subst.
  - destruct H2 as [|b l2 H2 Hb].
    + symmetry in P. apply Permutation_nil in P. discriminate.
    + assert (a = b) as <-.
      { assert (Ia : In a (b :: l2)) by (eapply Permutation_in; [exact P|now left]).
        assert (Ib : In b (a :: l1))
          by (eapply Permutation_in; [symmetry; exact P|now left]).
        destruct Ia as [->|Ia]; [reflexivity|].
        destruct Ib as [->|Ib]; [reflexivity|].
        rewrite List.Forall_forall in Ha, Hb.
        apply Hanti; [now left|now right|auto|auto]. }
      f_equal. apply IH; auto.
      * intros x y Hx Hy. apply Hanti; now right.
      * eapply Permutation_cons_inv; exact P.
Qed.

Lemma enumerate_from_zip {A : Type} (i : nat) (l : list A) :
  enumerate_from i l = zip (seq i (length l)) l.
Proof.
  revert i. induction l as [|x l IH]; intros i; simpl; [reflexivity|].
  now rewrite IH.
Qed.

Lemma enumerate_from_snd {A : Type} (i : nat) (l : list A) :
  map snd (enumerate_from i l) = l.
Proof.
  revert i. induction l as [|x l IH]; intros i; simpl; [reflexivity|].
  now rewrite IH.
Qed.

Lemma enumerate_from_fst {A : Type} (i : nat) (l : list A) :
  map fst (enumerate_from i l) = seq i (length l).
Proof.
  revert i. induction l as [|x l IH]; intros i; simpl; [reflexivity|].
  now rewrite IH.
Qed.

Lemma seq_StronglySorted (i n : nat) : StronglySorted lt (seq i n).
Proof.
  revert i. induction n as [|n IH]; intros i; simpl; constructor; auto.
  apply List.Forall_forall. intros x Hx. apply in_seq in Hx. lia.
Qed.

Lemma StronglySorted_map_inv {A B : Type} (f : A -> B) (R : B -> B -> Prop)
    (l : list A) :
  StronglySorted R (map f l) -> StronglySorted (fun x y => R (f x) (f y)) l.
Proof.
  induction l as [|x l IH]; simpl; intros H; [constructor|].
  apply StronglySorted_inv in H as [H1 H2]. constructor; auto.
  apply List.Forall_forall. intros y Hy. rewrite List.Forall_forall in H2.
  apply H2. now apply in_map.
Qed.

(** The items of a dictionary with the keys 0 .. n-1 come in key order. *)
Lemma iteritems_map_seq {V : Type} (cs : list V) :
  iteritems (map_seq 0 cs) = enumerate cs.
Proof.
  unfold iteritems, enumerate.
  pose proof (enumerate_from_fst 0 cs) as Hfst.
  assert (Hs : StronglySorted (fun a b : nat * V => (a.1 < b.1)%nat)
                              (enumerate_from 0 cs)).
  { apply StronglySorted_map_inv with (R := lt) (f := fst).
    rewrite Hfst. apply seq_StronglySorted. }
  assert (Hle : StronglySorted (fun a b : nat * V => (a.1 <=? b.1)%nat = true)
                               (enumerate_from 0 cs)).
  { clear -Hs. induction Hs; constructor; auto.
    eapply List.Forall_impl; [|eassumption]. simpl. intros. apply Nat.leb_le. lia. }
  apply sorted_perm_unique
    with (R := fun a b : nat * V => (a.1 <=? b.1)%nat = true).
  - intros a b Ia Ib Hab Hba. apply Nat.leb_le in Hab, Hba.
    assert (a.1 = b.1) by lia.
    eapply Permutation_in in Ia, Ib;
      try (rewrite sorted_Permutation, map_to_list_seq, <- enumerate_from_zip;
           reflexivity).
    clear -Hs Ia Ib H. induction Hs as [|x l Hs IH Hx]; [contradiction|].
    rewrite List.Forall_forall in Hx.
    destruct Ia as [->|Ia], Ib as [->|Ib]; auto.
    + apply Hx in Ib. lia.
    + apply Hx in Ia. lia.
  - apply sorted_StronglySorted.
    + intros x y. rewrite !Nat.leb_le. lia.
    + intros x y z. rewrite !Nat.leb_le. lia.
  - exact Hle.
  - rewrite sorted_Permutation, map_to_list_seq, <- enumerate_from_zip.
    reflexivity.
Qed.

(** ** The naive strategy *)

Lemma hamming_distance_uniform (a b : string) :
  String.length a = String.length b ->
  hamming_distance a b = Ok (mismatches a b).
Proof. intros H. unfold hamming_distance. now rewrite H, Nat.eqb_refl. Qed.

Lemma hamming_distance_mismatch (a b : string) :
  String.length a <> String.length b ->
  hamming_distance a b = Raise LengthMismatchError.
Proof.
  intros H. unfold hamming_distance.
  now destruct (Nat.eqb_spec (String.length a) (String.length b)).
Qed.

Section NaiveFacts.
Context {Read : Type}.

Local Abbreviation record := (string * Read)%type.
Local Abbreviation by_barcode := (fun x y : record => str_le x.1 y.1).

Lemma naive_sweep_step (t : Z) (sealed : list (list record))
    (c : list record) (p x : record) (i : nat) :
  i <> O ->
  naive_sweep t (map_seq 0 (sealed ++ [c ++ [p]]), length sealed) (i, x)
  = (hamming_distance p.1 x.1 ≫= fun dist =>
     Ok (if Z.of_nat dist <=? t
         then (map_seq 0 (sealed ++ [(c ++ [p]) ++ [x]]), length sealed)
         else (map_seq 0 ((sealed ++ [c ++ [p]]) ++ [[] ++ [x]]),
               length (sealed ++ [c ++ [p]])))).
Proof.
  intros Hi. unfold naive_sweep.
  destruct (Nat.eqb_spec i 0) as [?|_]; [contradiction|].
  rewrite lookup_map_seq_0, list_lookup_middle by reflexivity.
  simpl from_option. rewrite bind_Ok, last_snoc.
  simpl from_option. rewrite bind_Ok.
  destruct (hamming_distance p.1 x.1) as [dist|e]; [|reflexivity].
  rewrite !bind_Ok. destruct (Z.of_nat dist <=? t); f_equal; f_equal.
  - rewrite !map_seq_snoc. simpl. now rewrite insert_insert_eq.
  - rewrite (map_seq_snoc 0 (sealed ++ [c ++ [p]])). simpl.
    f_equal. rewrite length_app. simpl. lia.
  - rewrite length_app. simpl. lia.
Qed.

Lemma spec_walk_step (t : Z) (sealed : list (list record))
    (c : list record) (p x : record) :
  spec_walk t (sealed, c ++ [p]) x
  = (hamming_distance p.1 x.1 ≫= fun dist =>
     Ok (if Z.of_nat dist <=? t
         then (sealed, (c ++ [p]) ++ [x])
         else (sealed ++ [c ++ [p]], [] ++ [x]))).
Proof.
  unfold spec_walk. rewrite last_snoc.
  destruct (hamming_distance p.1 x.1) as [dist|e]; [|reflexivity].
  rewrite !bind_Ok. now destruct (Z.of_nat dist <=? t).
Qed.

(** The dictionary of the code and the clusters of the specification's walk
    evolve together. *)
Lemma naive_sweep_walk (t : Z) (l : list record) :
  forall (i : nat) (sealed : list (list record)) (c : list record) (p : record),
    i <> O ->
    for_in (enumerate_from i l) (naive_sweep t)
           (map_seq 0 (sealed ++ [c ++ [p]]), length sealed)
    = (for_in l (spec_walk t) (sealed, c ++ [p])
       ≫= fun st => Ok (map_seq 0 (st.1 ++ [st.2]), length st.1)).
Proof.
  induction l as [|x l IH]; intros i sealed c p Hi; [reflexivity|].
  simpl enumerate_from. rewrite !for_in_cons.
  rewrite naive_sweep_step, spec_walk_step by exact Hi.
  destruct (hamming_distance p.1 x.1) as [dist|e]; [|reflexivity].
  rewrite !bind_Ok. destruct (Z.of_nat dist <=? t); apply IH; lia.
Qed.

Lemma spec_walk_current (t : Z) (l : list record) :
  forall sealed c p st,
    for_in l (spec_walk t) (sealed, c ++ [p]) = Ok st -> st.2 <> [].
Proof.
  induction l as [|x l IH]; intros sealed c p st.
  - simpl. intros [= <-]. simpl. now destruct c.
  - rewrite for_in_cons, spec_walk_step.
    destruct (hamming_distance p.1 x.1) as [dist|e]; [|discriminate].
    rewrite !bind_Ok. destruct (Z.of_nat dist <=? t); apply IH.
Qed.

(** The dictionary of clusters holds, under the keys 0, 1, ..., the
    clusters of the specification's walk. *)
Lemma naive_clusters_dict_spec (l : list record) (t : Z) :
  naive_clusters_dict l t = (spec_clusters l t ≫= fun cs => Ok (map_seq 0 cs)).
Proof.
  unfold naive_clusters_dict, spec_clusters, enumerate.
  destruct (sorted by_barcode l) as [|x s]; [reflexivity|].
  simpl enumerate_from. rewrite !for_in_cons.
  change (naive_sweep t (∅, O) (O, x))
    with (Ok (A := gmap nat (list record) * nat) (<[O:=[x]]> ∅, O)).
  change (spec_walk t ([], []) x)
    with (Ok (A := list (list record) * list record) ([], [] ++ [x])).
  rewrite !bind_Ok.
  pose proof (naive_sweep_walk t s 1 [] [] x) as H. simpl in H.
  rewrite insert_empty in H. rewrite insert_empty.
  rewrite H by lia. clear H.
  pose proof (spec_walk_current t s [] [] x) as Hne. simpl app in *.
  destruct (for_in s (spec_walk t) ([], [x])) as [st|e]; [|reflexivity].
  rewrite !bind_Ok. specialize (Hne st eq_refl).
  simpl. destruct st as [sealed [|y current]]; [contradiction|]. reflexivity.
Qed.

Lemma naive_clusters_spec (l : list record) (t : Z) :
  naive_clusters l t = spec_clusters l t.
Proof.
  unfold naive_clusters. rewrite naive_clusters_dict_spec.
  destruct (spec_clusters l t) as [cs|e]; [|reflexivity].
  rewrite !bind_Ok. rewrite iteritems_map_seq. unfold enumerate.
  now rewrite enumerate_from_snd.
Qed.
End NaiveFacts.

Lemma M_bind_run {A B : Type} (c : M A) (k : A -> M B) (g : rng) :
  (c ≫= k) g
  = match c g with
    | Ok (a, g') => k a g'
    | Raise e => Raise e
    end.
Proof. reflexivity. Qed.

Lemma M_ret_run {A : Type} (a : A) (g : rng) : mret (M := M) a g = Ok (a, g).
Proof. reflexivity. Qed.

Section NaiveRefinement.
Context {Read : Type}.

Local Abbreviation record := (string * Read)%type.

Lemma naive_filter_run (m : Z) (acc : list Read) (i : nat)
    (c : list record) (g : rng) :
  naive_filter m acc (i, c) g
  = match spec_resolve m c g with
    | Ok (out, g') => Ok (acc ++ out, g')
    | Raise e => Raise e
    end.
Proof.
  unfold naive_filter, spec_resolve, mbind, M_bind, mret, M_ret. simpl.
  destruct (Z.of_nat (length c) >=? m); [|reflexivity].
  now destruct (random_choice c g) as [[member g']|e].
Qed.

Lemma naive_filter_resolve (m : Z) (cs : list (list record)) :
  forall (i : nat) (acc : list Read) (g : rng),
    for_in (enumerate_from i cs) (naive_filter m) acc g
    = (mapM (spec_resolve m) cs ≫= fun outs => mret (acc ++ concat outs)) g.
Proof.
  induction cs as [|c cs IH]; intros i acc g.
  - simpl. rewrite M_bind_run, !M_ret_run. simpl. now rewrite app_nil_r.
  - simpl enumerate_from. rewrite for_in_cons.
    change (mapM (spec_resolve m) (c :: cs))
      with (spec_resolve m c ≫= fun y =>
            mapM (spec_resolve m) cs ≫= fun k => mret (y :: k)).
    rewrite !M_bind_run, naive_filter_run.
    destruct (spec_resolve m c g) as [[out g']|e]; [|reflexivity].
    rewrite IH, !M_bind_run.
    destruct (mapM (spec_resolve m) cs g') as [[outs g'']|e]; [|reflexivity].
    rewrite !M_ret_run. simpl. now rewrite <- app_assoc.
Qed.

(** The code and the specification's procedure agree on every input. *)
Lemma naive_is_cluster_naive (molecular_barcodes : list record)
    (allowed_mismatches min_cluster_size : Z) (g : rng) :
  countMolecularBarcodesClustersNaive molecular_barcodes allowed_mismatches
                                      min_cluster_size g
  = cluster_naive molecular_barcodes allowed_mismatches min_cluster_size g.
Proof.
  unfold countMolecularBarcodesClustersNaive, cluster_naive.
  rewrite naive_clusters_dict_spec, !M_bind_run.
  destruct (spec_clusters molecular_barcodes allowed_mismatches) as [cs|e];
    [|reflexivity].
  rewrite bind_Ok. simpl lift. cbv iota beta.
  rewrite iteritems_map_seq. unfold enumerate.
  now rewrite naive_filter_resolve.
Qed.

(** C3.  The naive strategy of the code computes what the specification
    describes: the records sorted by barcode are walked with a current
    cluster, each record is compared with the last one added to the current
    cluster, a distance within the threshold appends the record and a
    larger one seals the cluster and starts a new one; then every cluster
    of at least [min_cluster_size] members gives the read of one member
    drawn from the random source, and every smaller one the reads of all
    its members. *)
Theorem naive_refines_spec (molecular_barcodes : list record)
    (allowed_mismatches min_cluster_size : Z) (g : rng) :
  countMolecularBarcodesClustersNaive molecular_barcodes allowed_mismatches
                                      min_cluster_size g
  = cluster_naive molecular_barcodes allowed_mismatches min_cluster_size g.
Proof.
  unfold countMolecularBarcodesClustersNaive, cluster_naive.
  rewrite naive_clusters_dict_spec, !M_bind_run.
  destruct (spec_clusters molecular_barcodes allowed_mismatches) as [cs|e];
    [|reflexivity].
  rewrite bind_Ok. simpl lift. cbv iota beta.
  rewrite iteritems_map_seq. unfold enumerate.
  now rewrite naive_filter_resolve.
Qed.
End NaiveRefinement.

(** ** Chains *)

Section ChainFacts.
Context {A : Type} (link : A -> A -> bool).

Lemma chain_cons_inv (x : A) (l : list A) :
  exists h tl, chain link (x :: l) = (x :: h) :: tl.
Proof.
  revert x. induction l as [|y l IH]; intros x; simpl; eauto.
  destruct (IH y) as [h [tl E]]. simpl in E. rewrite E.
  destruct (link x y); eauto.
Qed.

Lemma chain_cons_cons (x y : A) (l : list A) :
  chain link (x :: y :: l)
  = match chain link (y :: l) with
    | [] => [[x]]
    | c :: cs => if link x y then (x :: c) :: cs else [x] :: c :: cs
    end.
Proof. reflexivity. Qed.

Lemma concat_chain (l : list A) : concat (chain link l) = l.
Proof.
  induction l as [|x [|y l] IH]; try reflexivity.
  rewrite chain_cons_cons.
  destruct (chain link (y :: l)) as [|c cs] eqn:E.
  - discriminate.
  - simpl in IH. destruct (link x y); simpl; now rewrite IH.
Qed.

Lemma chain_nonempty (l : list A) : Forall (fun c => c <> []) (chain link l).
Proof.
  induction l as [|x [|y l] IH].
  - constructor.
  - repeat constructor. discriminate.
  - rewrite chain_cons_cons.
    destruct (chain link (y :: l)) as [|c cs] eqn:E.
    + repeat constructor. discriminate.
    + apply Forall_cons_1 in IH as [Hc Hcs].
      destruct (link x y); repeat constructor; auto; discriminate.
Qed.
End ChainFacts.

(** A weaker link only merges chains: every chain of the stronger link is
    a segment of a chain of the weaker one. *)
Lemma chain_refines {A : Type} (link1 link2 : A -> A -> bool) (l : list A) :
  (forall a b, link1 a b = true -> link2 a b = true) ->
  forall c, In c (chain link1 l) ->
    exists front back, In (front ++ c ++ back) (chain link2 l).
Proof.
  intros Hlink. induction l as [|x [|y l] IH]; intros c Hc.
  - contradiction.
  - destruct Hc as [<-|[]]. exists [], []. now left.
  - rewrite chain_cons_cons in Hc |- *.
    destruct (chain_cons_inv link1 y l) as [h1 [t1 E1]].
    destruct (chain_cons_inv link2 y l) as [h2 [t2 E2]].
    rewrite E1 in Hc, IH. rewrite E2 in IH |- *.
    assert (Hhead : exists back, y :: h2 = (y :: h1) ++ back).
    { clear -Hlink E1 E2. revert y h1 t1 h2 t2 E1 E2.
      induction l as [|z l IHl]; intros y h1 t1 h2 t2 E1 E2.
      - simpl in E1, E2. injection E1 as <- <-. injection E2 as <- <-.
        now exists [].
      - rewrite chain_cons_cons in E1, E2.
        destruct (chain_cons_inv link1 z l) as [k1 [u1 F1]].
        destruct (chain_cons_inv link2 z l) as [k2 [u2 F2]].
        rewrite F1 in E1. rewrite F2 in E2.
        destruct (IHl z k1 u1 k2 u2 F1 F2) as [back Hback].
        destruct (link1 y z) eqn:L1.
        + rewrite (Hlink _ _ L1) in E2.
          injection E1 as <- <-. injection E2 as <- <-.
          exists back. simpl. now rewrite Hback.
        + injection E1 as <- <-.
          destruct (link2 y z); injection E2 as <- <-; simpl; eauto. }
    destruct Hhead as [back Hback].
    destruct (link1 x y) eqn:L1.
    + rewrite (Hlink _ _ L1).
      destruct Hc as [<-|Hc].
      * exists [], back. left. simpl. now rewrite Hback.
      * destruct (IH c (or_intror Hc)) as [f [b [Hin|Hin]]].
        -- exists (x :: f), b. left. simpl. now rewrite Hin.
        -- exists f, b. now right.
    + destruct Hc as [<-|Hc].
      * destruct (link2 x y).
        -- exists [], (y :: h2). now left.
        -- exists [], []. now left.
      * destruct (IH c Hc) as [f [b Hin]].
        destruct (link2 x y).
        -- destruct Hin as [Hin|Hin].
           ++ exists (x :: f), b. left. simpl. now rewrite Hin.
           ++ exists f, b. now right.
        -- exists f, b. now right.
Qed.

Section NaiveChain.
Context {Read : Type}.

Local Abbreviation record := (string * Read)%type.
Local Abbreviation by_barcode := (fun x y : record => str_le x.1 y.1).

Lemma spec_walk_chain (t : Z) (l : list record) :
  forall sealed c p,
    Forall (fun r => String.length r.1 = String.length p.1) l ->
    (for_in l (spec_walk t) (sealed, c ++ [p])
     ≫= fun st => Ok (st.1 ++ [st.2]))
    = Ok (sealed ++ prepend c (chain (linked t) (p :: l))).
Proof.
  induction l as [|x l IH]; intros sealed c p Hlen; [reflexivity|].
  apply Forall_cons_1 in Hlen as [Hx Hl].
  rewrite for_in_cons, spec_walk_step.
  rewrite hamming_distance_uniform by (now symmetry).
  rewrite !bind_Ok. rewrite chain_cons_cons.
  destruct (chain_cons_inv (linked t) x l) as [h [tl E]]. rewrite E.
  assert (Hl' : Forall (fun r => String.length r.1 = String.length x.1) l).
  { eapply List.Forall_impl; [|exact Hl]. simpl. intros r Hr. congruence. }
  unfold linked at 1, close.
  destruct (Z.of_nat (mismatches p.1 x.1) <=? t).
  - rewrite IH, E by exact Hl'. simpl. now rewrite <- app_assoc.
  - rewrite IH, E by exact Hl'. simpl. now rewrite <- app_assoc.
Qed.

Lemma spec_walk_mismatch (t : Z) (l : list record) :
  forall sealed c p,
    Exists (fun r => String.length r.1 <> String.length p.1) l ->
    for_in l (spec_walk t) (sealed, c ++ [p]) = Raise LengthMismatchError.
Proof.
  induction l as [|x l IH]; intros sealed c p Hex.
  - inversion Hex.
  - rewrite for_in_cons, spec_walk_step.
    destruct (Nat.eq_dec (String.length p.1) (String.length x.1)) as [Heq|Hne].
    + rewrite hamming_distance_uniform by exact Heq. rewrite !bind_Ok.
      assert (Hex' : Exists (fun r => String.length r.1 <> String.length x.1) l).
      { apply Exists_cons in Hex as [Hx|Hex]; [congruence|].
        eapply List.Exists_impl; [|exact Hex]. simpl. intros r Hr. congruence. }
      destruct (Z.of_nat (mismatches p.1 x.1) <=? t); now apply IH.
    + now rewrite hamming_distance_mismatch.
Qed.

Lemma uniform_cons (x : record) (l : list record) :
  uniform (x :: l)
  <-> Forall (fun r => String.length r.1 = String.length x.1) l.
Proof.
  unfold uniform. rewrite List.Forall_forall. split.
  - intros H r Hr. apply H; [now right|now left].
  - intros H a b [<-|Ha] [<-|Hb]; auto.
    + symmetry. auto.
    + rewrite (H a Ha), (H b Hb). reflexivity.
Qed.

Lemma uniform_Permutation (l l' : list record) :
  Permutation l l' -> uniform l -> uniform l'.
Proof.
  intros P H x y Hx Hy.
  apply H; eapply Permutation_in; try eassumption; now symmetry.
Qed.

(** On barcodes of one length the clusters of the naive strategy are the
    chains of the sorted records. *)
Lemma naive_clusters_uniform (l : list record) (t : Z) :
  uniform l ->
  naive_clusters l t = Ok (chain (linked t) (sorted by_barcode l)).
Proof.
  intros Hu. rewrite naive_clusters_spec. unfold spec_clusters.
  apply (uniform_Permutation _ (sorted by_barcode l)) in Hu;
    [|symmetry; apply sorted_Permutation].
  destruct (sorted by_barcode l) as [|x s]; [reflexivity|].
  rewrite for_in_cons.
  change (spec_walk t ([], []) x)
    with (Ok (A := list (list record) * list record) ([], [] ++ [x])).
  rewrite bind_Ok. apply uniform_cons in Hu.
  pose proof (spec_walk_chain t s [] [] x Hu) as H.
  pose proof (spec_walk_current t s [] [] x) as Hne.
  destruct (chain_cons_inv (linked t) x s) as [h [tl E]].
  rewrite E in H |- *.
  destruct (for_in s (spec_walk t) ([], [] ++ [x])) as [st|e];
    [|discriminate].
  rewrite bind_Ok in H |- *. specialize (Hne st eq_refl).
  destruct st as [sealed [|y current]]; [contradiction|].
  simpl in H |- *. now rewrite H.
Qed.

(** On barcodes of different lengths the naive strategy fails. *)
Lemma naive_clusters_mismatch (l : list record) (t : Z) :
  ~ uniform l -> naive_clusters l t = Raise LengthMismatchError.
Proof.
  intros Hu. rewrite naive_clusters_spec. unfold spec_clusters.
  assert (Hs : ~ uniform (sorted by_barcode l)).
  { intros H. apply Hu. eapply uniform_Permutation; [|exact H].
    apply sorted_Permutation. }
  destruct (sorted by_barcode l) as [|x s].
  - exfalso. apply Hs. intros a b [].
  - rewrite for_in_cons.
    change (spec_walk t ([], []) x)
      with (Ok (A := list (list record) * list record) ([], [] ++ [x])).
    rewrite bind_Ok, spec_walk_mismatch; [reflexivity|].
    rewrite uniform_cons in Hs.
    apply neg_Forall_Exists_neg in Hs; [exact Hs|].
    intros r. destruct (Nat.eq_dec (String.length r.1) (String.length x.1)); auto.
Qed.
End NaiveChain.

(** ** The trie strategy *)

Lemma mismatches_refl (k : string) : mismatches k k = O.
Proof.
  induction k as [|c k IH]; simpl; [reflexivity|].
  now rewrite Ascii.eqb_refl, IH.
Qed.

Lemma within_refl (allow_indels : bool) (t : Z) (k : string) :
  0 <= t -> CountTrie.within allow_indels t k k = true.
Proof.
  intros _. unfold CountTrie.within. now rewrite String.eqb_refl.
Qed.

Lemma mismatches_zero (a b : string) :
  String.length a = String.length b -> mismatches a b = O -> a = b.
Proof.
  revert b. induction a as [|c a IH]; intros [|c' b]; simpl; try discriminate.
  - reflexivity.
  - intros [= Hl]. destruct (Ascii.eqb_spec c c') as [->|]; [|discriminate].
    simpl. intros H. f_equal. now apply IH.
Qed.

Lemma edit_distance_zero (a b : string) : edit_distance a b = O -> a = b.
Proof.
  revert b. induction a as [|c a IH]; intros [|c' b]; simpl; try discriminate.
  - reflexivity.
  - destruct (Ascii.eqb_spec c c') as [->|]; intros H.
    + f_equal. apply IH. simpl in H.
      now destruct (edit_distance a b).
    + simpl in H. discriminate.
Qed.

Lemma within_zero (allow_indels : bool) (a b : string) :
  CountTrie.within allow_indels 0 a b = true <-> a = b.
Proof.
  split; [|intros ->; now apply within_refl].
  unfold CountTrie.within. rewrite orb_true_iff.
  intros [H|H]; [now apply String.eqb_eq|]. revert H.
  destruct allow_indels.
  - rewrite Z.leb_le. intros H. apply edit_distance_zero. lia.
  - rewrite andb_true_iff, Nat.eqb_eq, Z.leb_le. intros [Hl H].
    apply mismatches_zero; [exact Hl|lia].
Qed.

Lemma filter_none {A : Type} (f : A -> bool) (l : list A) :
  (forall x, In x l -> f x = false) -> List.filter f l = [].
Proof.
  induction l as [|x l IH]; intros H; simpl; [reflexivity|].
  rewrite (H x) by now left. apply IH. intros y Hy. apply H. now right.
Qed.

Section GroupedFacts.
Context `{Countable K} {V : Type}.

Lemma reads_with_notin (l : list (K * V)) (k : K) :
  ~ In k (map fst l) -> reads_with l k = [].
Proof.
  intros Hn. unfold reads_with. rewrite filter_none; [reflexivity|].
  intros x Hx. apply bool_decide_eq_false. intros <-.
  apply Hn. now apply in_map.
Qed.

Lemma reads_with_In (l : list (K * V)) (k : K) :
  In k (map fst l) -> reads_with l k <> [].
Proof.
  intros Hin. apply in_map_iff in Hin as [[b r] [<- Hin]]. simpl.
  unfold reads_with. intros E.
  assert (Hr : In r (map snd (List.filter
                                (fun x : K * V => bool_decide (x.1 = b)) l))).
  { apply in_map_iff. exists (b, r). split; [reflexivity|].
    apply filter_In. split; [exact Hin|]. now apply bool_decide_eq_true_2. }
  rewrite E in Hr. contradiction.
Qed.

Lemma reads_map_lookup_notin (l : list (K * V)) :
  forall (m : gmap K (list V)) (k : K),
    ~ In k (map fst l) -> reads_map m l !! k = m !! k.
Proof.
  induction l as [|[b r] l IH]; intros m k Hn; [reflexivity|].
  unfold reads_map in *. simpl fold_left. rewrite IH.
  - apply lookup_insert_ne. intros ->. apply Hn. now left.
  - intros Hin. apply Hn. now right.
Qed.

Lemma reads_map_lookup_In (l : list (K * V)) :
  forall (m : gmap K (list V)) (k : K),
    In k (map fst l) ->
    reads_map m l !! k = Some (default [] (m !! k) ++ reads_with l k).
Proof.
  induction l as [|[b r] l IH]; intros m k Hin; [contradiction|].
  unfold reads_map, reads_with in *. simpl fold_left. simpl List.filter.
  destruct (in_dec (fun x y => decide (x = y)) k (map fst l)) as [Hl|Hl].
  - rewrite IH by exact Hl. f_equal. case_bool_decide as E; simpl in E.
    + subst b. rewrite lookup_insert_eq. simpl. now rewrite <- app_assoc.
    + now rewrite lookup_insert_ne.
  - destruct Hin as [Hb|Hin]; [|contradiction]. simpl in Hb. subst b.
    fold (reads_map (<[k:=default [] (m !! k) ++ [r]]> m) l).
    rewrite reads_map_lookup_notin by exact Hl.
    rewrite lookup_insert_eq, bool_decide_eq_true_2 by reflexivity.
    simpl. fold (reads_with l k). now rewrite reads_with_notin.
Qed.
End GroupedFacts.

Section TrieFacts.
Context {Read : Type}.

Local Abbreviation record := (string * Read)%type.

Lemma trie_of_insert (reads : gmap string (list Read)) (k : string) (r : Read) :
  CountTrie.add k (length <$> reads)
  = length <$> (<[k := default [] (reads !! k) ++ [r]]> reads).
Proof.
  unfold CountTrie.add. rewrite fmap_insert. f_equal.
  rewrite lookup_fmap, length_app. simpl.
  destruct (reads !! k); simpl; lia.
Qed.

(** After the first loop the trie counts the reads the map holds. *)
Lemma trie_fill_reads (mbs : list record) (reads : gmap string (list Read)) :
  fold_left trie_fill mbs (length <$> reads, reads)
  = (length <$> reads_map reads mbs, reads_map reads mbs).
Proof.
  revert reads. induction mbs as [|mb mbs IH]; intros reads; [reflexivity|].
  simpl. rewrite (trie_of_insert reads mb.1 mb.2). apply IH.
Qed.

Lemma remove_all_lookup {V : Type} (ks : list string) (m : gmap string V)
    (k : string) :
  remove_all ks m !! k = if in_dec string_dec k ks then None else m !! k.
Proof.
  revert m. induction ks as [|k' ks IH]; intros m; [reflexivity|].
  unfold remove_all in *. simpl fold_left. rewrite IH. simpl.
  destruct (string_dec k' k) as [->|Hne].
  - rewrite lookup_delete_eq. now destruct (in_dec string_dec k ks).
  - rewrite lookup_delete_ne by exact Hne.
    now destruct (in_dec string_dec k ks).
Qed.

Lemma gather_delete (k : string) (ks : list string)
    (reads : gmap string (list Read)) :
  ~ In k ks -> gather (delete k reads) ks = gather reads ks.
Proof.
  intros Hk. unfold gather. f_equal. apply map_ext_in. intros k' Hk'.
  rewrite lookup_delete_ne; [reflexivity|]. intros ->. contradiction.
Qed.

(** The inner loop takes the reads of the barcodes found out of the map
    and counts them. *)
Lemma trie_collect_fold (ks : list string) :
  forall (reads : gmap string (list Read)) (size : nat) (orig : list Read),
    List.NoDup ks ->
    fold_left trie_collect ks (length <$> reads, reads, size, orig)
    = (length <$> remove_all ks reads, remove_all ks reads,
       (size + length (gather reads ks))%nat, orig ++ gather reads ks).
Proof.
  induction ks as [|k ks IH]; intros reads size orig Hnd.
  - simpl. unfold gather. simpl. now rewrite Nat.add_0_r, app_nil_r.
  - apply NoDup_cons_iff in Hnd as [Hk Hnd]. simpl fold_left.
    unfold CountTrie.remove, CountTrie.get_count.
    rewrite <- fmap_delete, IH by exact Hnd.
    rewrite gather_delete by exact Hk.
    unfold gather at 3 4. simpl. rewrite lookup_fmap, length_app.
    f_equal; [f_equal|].
    + destruct (reads !! k); simpl; fold (gather reads ks); lia.
    + now rewrite <- app_assoc.
Qed.

Lemma neighbours_In (t : Z) (indels : bool) (reads : gmap string (list Read))
    (q k : string) :
  In k (neighbours t indels reads q)
  <-> is_Some (reads !! k) /\ CountTrie.within indels t q k = true.
Proof.
  unfold neighbours, CountTrie.find_equal_length_optimized.
  rewrite filter_In.
  assert (H : In k (sorted str_le (map fst (map_to_list (length <$> reads))))
              <-> is_Some (reads !! k)).
  { split.
    - intros Hin.
      apply (Permutation_in _ (sorted_Permutation str_le _)) in Hin.
      apply in_map_iff in Hin as [[k' n] [<- Hin]].
      apply list_elem_of_In in Hin.
      apply elem_of_map_to_list in Hin. rewrite lookup_fmap in Hin.
      simpl. destruct (reads !! k'); [eauto|discriminate].
    - intros [rs Hrs].
      apply (Permutation_in _ (Permutation_sym (sorted_Permutation str_le _))).
      apply in_map_iff. exists (k, length rs). split; [reflexivity|].
      apply list_elem_of_In, elem_of_map_to_list.
      now rewrite lookup_fmap, Hrs. }
  now rewrite H.
Qed.

Lemma neighbours_NoDup (t : Z) (indels : bool)
    (reads : gmap string (list Read)) (q : string) :
  List.NoDup (neighbours t indels reads q).
Proof.
  unfold neighbours, CountTrie.find_equal_length_optimized.
  apply List.NoDup_filter.
  eapply Permutation_NoDup; [symmetry; apply sorted_Permutation|].
  apply NoDup_ListNoDup, (NoDup_fst_map_to_list (length <$> reads)).
Qed.

(** One query of the second loop. *)
Lemma trie_neighbourhood_eq (t : Z) (indels : bool)
    (reads : gmap string (list Read)) (mb : record) :
  trie_neighbourhood t indels (length <$> reads) reads mb
  = (length <$> remove_all (neighbours t indels reads mb.1) reads,
     remove_all (neighbours t indels reads mb.1) reads,
     length (gather reads (neighbours t indels reads mb.1)),
     gather reads (neighbours t indels reads mb.1)).
Proof.
  unfold trie_neighbourhood. fold (neighbours t indels reads mb.1).
  now rewrite trie_collect_fold by apply neighbours_NoDup.
Qed.
End TrieFacts.

Lemma random_choice_In {A : Type} (l : list A) (g : rng) :
  l <> [] ->
  exists x, random_choice l g = Ok (x, fun n => g (S n)) /\ In x l.
Proof.
  intros Hl. unfold random_choice.
  assert (Hlt : (g O mod length l < length l)%nat).
  { apply Nat.mod_upper_bound. destruct l; [contradiction|discriminate]. }
  destruct (lookup_lt_is_Some_2 l _ Hlt) as [x Hx].
  exists x. rewrite Hx. split; [reflexivity|].
  apply list_elem_of_In. eapply list_elem_of_lookup_2. exact Hx.
Qed.

Section PoolFacts.
Context `{Countable K} {V : Type}.

Lemma pool_empty : pool (∅ : gmap K (list V)) = [].
Proof. unfold pool. now rewrite map_to_list_empty. Qed.

Lemma pool_Permutation (l l' : list (K * list V)) :
  Permutation l l' ->
  Permutation (concat (map snd l)) (concat (map snd l')).
Proof.
  intros P. rewrite <- !flat_map_concat_map.
  now apply Permutation_flat_map.
Qed.

Lemma pool_delete (m : gmap K (list V)) (k : K) :
  Permutation (default [] (m !! k) ++ pool (delete k m)) (pool m).
Proof.
  destruct (m !! k) as [vs|] eqn:E; simpl.
  - unfold pool.
    rewrite <- (pool_Permutation _ _ (map_to_list_delete m k vs E)).
    reflexivity.
  - now rewrite delete_id.
Qed.

Lemma pool_insert (m : gmap K (list V)) (k : K) (v : V) :
  Permutation (pool (<[k := default [] (m !! k) ++ [v]]> m)) (v :: pool m).
Proof.
  rewrite <- (pool_delete m k).
  rewrite <- insert_delete_eq. unfold pool at 1.
  rewrite (pool_Permutation _ _
             (map_to_list_insert (delete k m) k _ (lookup_delete_eq m k))).
  simpl. fold (pool (delete k m)).
  rewrite <- app_assoc. simpl.
  symmetry. apply Permutation_middle.
Qed.

Lemma pool_reads_map (mbs : list (K * V)) :
  forall reads : gmap K (list V), Permutation (pool (reads_map reads mbs))
                            (pool reads ++ map snd mbs).
Proof.
  induction mbs as [|mb mbs IH]; intros reads.
  - simpl. now rewrite app_nil_r.
  - unfold reads_map in *. simpl fold_left. rewrite IH, pool_insert.
    simpl. apply Permutation_middle.
Qed.

End PoolFacts.

Lemma pool_gather {V : Type} (ks : list string) :
  forall m : gmap string (list V),
    List.NoDup ks ->
    Permutation (gather m ks ++ pool (remove_all ks m)) (pool m).
Proof.
  induction ks as [|k ks IH]; intros m Hnd; [reflexivity|].
  apply NoDup_cons_iff in Hnd as [Hk Hnd].
  rewrite <- (pool_delete m k), <- (IH (delete k m) Hnd).
  unfold gather, remove_all. simpl. rewrite <- app_assoc.
  apply Permutation_app_head. apply Permutation_app_tail.
  apply Permutation_refl'. f_equal. apply map_ext_in. intros k' Hk'.
  rewrite lookup_delete_ne; [reflexivity|]. intros ->. contradiction.
Qed.


Section TrieGroups.
Context {Read : Type}.

Local Abbreviation record := (string * Read)%type.

Lemma trie_clusters_from_groups (t : Z) (indels : bool) (mbs : list record) :
  forall reads,
    trie_clusters_from t indels (length <$> reads) reads mbs
    = map (fun g => (length g, g)) (trie_groups_from t indels reads mbs).
Proof.
  induction mbs as [|mb mbs IH]; intros reads; [reflexivity|].
  simpl. rewrite trie_neighbourhood_eq. now rewrite IH.
Qed.

Lemma trie_clusters_groups (mbs : list record) (t : Z) (indels : bool) :
  trie_clusters mbs t indels
  = map (fun g => (length g, g))
        (trie_groups_from t indels (reads_map ∅ mbs) mbs).
Proof.
  unfold trie_clusters.
  pose proof (trie_fill_reads mbs ∅) as H. rewrite fmap_empty in H.
  rewrite H. apply trie_clusters_from_groups.
Qed.

(** The groups and what is left in the map make up the map. *)
Lemma trie_groups_pool (t : Z) (indels : bool) (mbs : list record) :
  forall reads,
    Permutation (concat (trie_groups_from t indels reads mbs)
                 ++ pool (reads_after t indels reads mbs))
                (pool reads).
Proof.
  induction mbs as [|mb mbs IH]; intros reads; [reflexivity|].
  simpl. rewrite <- app_assoc, IH.
  apply pool_gather, neighbours_NoDup.
Qed.

Lemma reads_after_lookup (t : Z) (indels : bool) (mbs : list record) :
  forall reads k v,
    reads_after t indels reads mbs !! k = Some v -> reads !! k = Some v.
Proof.
  induction mbs as [|mb mbs IH]; intros reads k v; [auto|].
  simpl. intros H. apply IH in H. rewrite remove_all_lookup in H.
  now destruct (in_dec string_dec k _).
Qed.

(** With a non-negative threshold every barcode met is consumed. *)
Lemma reads_after_consumed (t : Z) (indels : bool) (mbs : list record) :
  0 <= t ->
  forall reads mb, In mb mbs -> reads_after t indels reads mbs !! mb.1 = None.
Proof.
  intros Ht. induction mbs as [|mb' mbs IH]; intros reads mb Hin; [contradiction|].
  simpl. destruct Hin as [->|Hin]; [|now apply IH].
  destruct (reads_after _ _ _ mbs !! mb.1) as [v|] eqn:E; [|reflexivity].
  apply reads_after_lookup in E. rewrite remove_all_lookup in E.
  destruct (in_dec string_dec mb.1 _) as [|Hn]; [discriminate|].
  exfalso. apply Hn. apply neighbours_In. split; [eauto|].
  now apply within_refl.
Qed.

Lemma reads_after_all (t : Z) (indels : bool) (mbs : list record) :
  0 <= t -> reads_after t indels (reads_map ∅ mbs) mbs = ∅.
Proof.
  intros Ht. apply map_empty. intros k.
  destruct (reads_after _ _ _ mbs !! k) as [v|] eqn:E; [|reflexivity].
  pose proof (reads_after_lookup _ _ _ _ _ _ E) as H.
  destruct (in_dec string_dec k (map fst mbs)) as [Hin|Hn];
    [|now rewrite reads_map_lookup_notin in H].
  apply in_map_iff in Hin as [mb [<- Hin]].
  now rewrite (reads_after_consumed t indels mbs Ht _ mb Hin) in E.
Qed.

(** Coverage: the groups of the trie strategy hold every input read once. *)
Lemma trie_groups_cover (mbs : list record) (t : Z) (indels : bool) :
  0 <= t ->
  Permutation (concat (trie_groups_from t indels (reads_map ∅ mbs) mbs))
              (map snd mbs).
Proof.
  intros Ht.
  pose proof (trie_groups_pool t indels mbs (reads_map ∅ mbs)) as H.
  rewrite reads_after_all, pool_empty, app_nil_r in H by exact Ht.
  rewrite H, pool_reads_map, pool_empty. reflexivity.
Qed.
End TrieGroups.

Section TrieRun.
Context {Read : Type}.

Local Abbreviation record := (string * Read)%type.

Lemma fmap_remove_all (ks : list string) :
  forall reads : gmap string (list Read),
    remove_all ks (length <$> reads) = length <$> remove_all ks reads.
Proof.
  induction ks as [|k ks IH]; intros reads; [reflexivity|].
  unfold remove_all in *. simpl. now rewrite <- fmap_delete, IH.
Qed.

Lemma gather_length (reads : gmap string (list Read)) (ks : list string) :
  length (gather reads ks)
  = list_sum (map (fun k => CountTrie.get_count k (length <$> reads)) ks).
Proof.
  unfold gather, CountTrie.get_count.
  induction ks as [|k ks IH]; [reflexivity|].
  simpl. rewrite length_app, IH, lookup_fmap.
  now destruct (reads !! k).
Qed.

(** One iteration of the second loop, from a state in which the trie
    counts the reads of the map. *)
Lemma trie_iteration_run (t m : Z) (indels : bool)
    (reads : gmap string (list Read)) (clusters : list Read) (mb : record)
    (g : rng) :
  let found := neighbours t indels reads mb.1 in
  let original_reads := gather reads found in
  trie_iteration t m indels (length <$> reads, reads, clusters) mb g
  = if (Z.of_nat (length original_reads) >=? m)
       && (0 <? length original_reads)%nat
    then (random_choice original_reads ≫= fun read =>
          mret (length <$> remove_all found reads, remove_all found reads,
                clusters ++ [read])) g
    else Ok ((length <$> remove_all found reads, remove_all found reads,
              clusters ++ original_reads), g).
Proof.
  intros found original_reads. unfold trie_iteration.
  rewrite trie_neighbourhood_eq. fold found. fold original_reads.
  now destruct ((Z.of_nat (length original_reads) >=? m)
                && (0 <? length original_reads)%nat).
Qed.

Lemma trie_iteration_out (t m : Z) (indels : bool)
    (reads : gmap string (list Read)) (clusters : list Read) (mb : record)
    (g : rng) :
  let found := neighbours t indels reads mb.1 in
  exists out g',
    trie_iteration t m indels (length <$> reads, reads, clusters) mb g
    = Ok ((length <$> remove_all found reads, remove_all found reads,
           clusters ++ out), g')
    /\ trie_out m (gather reads found) out.
Proof.
  intros found. rewrite trie_iteration_run. fold found.
  set (original_reads := gather reads found).
  destruct (Z.geb_spec (Z.of_nat (length original_reads)) m) as [Hm|Hm];
    destruct original_reads as [|x0 rest] eqn:E; simpl andb; cbv iota.
  - exists [], g. rewrite app_nil_r. split; [reflexivity|]. now left.
  - destruct (random_choice_In (x0 :: rest) g) as [x [Hx Hin]]; [discriminate|].
    exists [x], (fun n => g (S n)). rewrite M_bind_run, Hx. split; [reflexivity|].
    right. split; [discriminate|]. left. split; [lia|eauto].
  - exists [], g. rewrite app_nil_r. split; [reflexivity|]. now left.
  - exists (x0 :: rest), g. split; [reflexivity|].
    right. split; [discriminate|]. right. split; [lia|reflexivity].
Qed.

(** The second loop: every group is resolved in turn. *)
Lemma trie_loop_run (t m : Z) (indels : bool) (mbs : list record) :
  forall (reads : gmap string (list Read)) (clusters : list Read) (g : rng),
  exists outs g',
    for_in mbs (trie_iteration t m indels) (length <$> reads, reads, clusters) g
    = Ok ((length <$> reads_after t indels reads mbs,
           reads_after t indels reads mbs, clusters ++ concat outs), g')
    /\ Forall2 (trie_out m) (trie_groups_from t indels reads mbs) outs.
Proof.
  induction mbs as [|mb mbs IH]; intros reads clusters g.
  - exists [], g. simpl. rewrite app_nil_r. split; [reflexivity|constructor].
  - destruct (trie_iteration_out t m indels reads clusters mb g)
      as [out [g1 [E Hout]]].
    destruct (IH (remove_all (neighbours t indels reads mb.1) reads)
                 (clusters ++ out) g1) as [outs [g' [E' Houts]]].
    exists (out :: outs), g'. rewrite for_in_cons, M_bind_run, E, E'.
    simpl. rewrite <- app_assoc. split; [reflexivity|].
    now constructor.
Qed.

Lemma trie_run (mbs : list record) (t m : Z) (indels : bool) (g : rng) :
  exists outs g',
    countMolecularBarcodesPrefixtrie mbs t m indels g = Ok (concat outs, g')
    /\ Forall2 (trie_out m)
               (trie_groups_from t indels (reads_map ∅ mbs) mbs) outs.
Proof.
  unfold countMolecularBarcodesPrefixtrie.
  pose proof (trie_fill_reads mbs ∅) as H. rewrite fmap_empty in H.
  rewrite H.
  destruct (trie_loop_run t m indels mbs (reads_map ∅ mbs) [] g)
    as [outs [g' [E Houts]]].
  exists outs, g'. rewrite M_bind_run, E. split; [reflexivity|exact Houts].
Qed.
End TrieRun.

Section TrieInvariant.
Context {Read : Type}.

Local Abbreviation record := (string * Read)%type.

Lemma lockstep_fill (mbs : list record) :
  forall trie reads,
    fold_left trie_fill mbs (∅, ∅) = (trie, reads) ->
    lockstep trie reads /\ reads = reads_map ∅ mbs.
Proof.
  intros trie reads E.
  pose proof (trie_fill_reads mbs ∅) as H. rewrite fmap_empty in H.
  rewrite H in E. injection E as <- <-. split; [|reflexivity].
  split; [reflexivity|]. intros k rs Hk.
  destruct (in_dec string_dec k (map fst mbs)) as [Hin|Hn];
    [|now rewrite reads_map_lookup_notin in Hk].
  rewrite reads_map_lookup_In in Hk by exact Hin.
  injection Hk as <-. rewrite lookup_empty. simpl. now apply reads_with_In.
Qed.

Lemma lockstep_remove_all (ks : list string) trie (reads : gmap string (list Read)) :
  lockstep trie reads -> lockstep (remove_all ks trie) (remove_all ks reads).
Proof.
  intros [-> Hne]. split; [apply fmap_remove_all|].
  intros k rs Hk. rewrite remove_all_lookup in Hk.
  destruct (in_dec string_dec k ks); [discriminate|]. eauto.
Qed.

Lemma lockstep_after (t : Z) (indels : bool) (mbs : list record) :
  forall reads : gmap string (list Read),
    lockstep (length <$> reads) reads ->
    lockstep (length <$> reads_after t indels reads mbs)
             (reads_after t indels reads mbs).
Proof.
  intros reads [_ Hne]. split; [reflexivity|]. intros k rs Hk.
  apply reads_after_lookup in Hk. eauto.
Qed.

(** The state in which the second loop reaches a record. *)
Lemma trie_loop_state (t m : Z) (indels : bool) (pre : list record)
    (trie0 : gmap string nat) (reads0 : gmap string (list Read))
    (clusters0 : list Read) (g : rng) trie reads clusters g1 :
  lockstep trie0 reads0 ->
  for_in pre (trie_iteration t m indels) (trie0, reads0, clusters0) g
  = Ok ((trie, reads, clusters), g1) ->
  lockstep trie reads /\ reads = reads_after t indels reads0 pre.
Proof.
  intros [-> Hne] E.
  destruct (trie_loop_run t m indels pre reads0 clusters0 g)
    as [outs [g' [E' _]]].
  rewrite E' in E. injection E as <- <- _ _.
  split; [|reflexivity]. apply lockstep_after. now split.
Qed.

(** One iteration from a state of the loop. *)
Lemma trie_iteration_lockstep (t m : Z) (indels : bool)
    (trie : gmap string nat) (reads : gmap string (list Read))
    (clusters : list Read) (mb : record) (g : rng) :
  lockstep trie reads ->
  let found := CountTrie.find_equal_length_optimized trie mb.1 t indels in
  let size_cluster :=
    list_sum (map (fun k => CountTrie.get_count k trie) found) in
  let original_reads := gather reads found in
  (forall k, In k found
             <-> is_Some (trie !! k) /\ CountTrie.within indels t mb.1 k = true)
  /\ size_cluster = length original_reads
  /\ (found = [] <-> original_reads = [])
  /\ exists out g',
       trie_iteration t m indels (trie, reads, clusters) mb g
       = Ok ((remove_all found trie, remove_all found reads, clusters ++ out),
             g')
       /\ lockstep (remove_all found trie) (remove_all found reads)
       /\ (if (Z.of_nat size_cluster >=? m) && negb (Nat.eqb size_cluster 0)
           then exists x, random_choice original_reads g = Ok (x, g')
                          /\ In x original_reads /\ out = [x]
           else out = original_reads /\ g' = g).
Proof.
  intros Hl found size_cluster original_reads.
  pose proof Hl as [-> Hne].
  assert (Hfound : found = neighbours t indels reads mb.1) by reflexivity.
  assert (Hsize : size_cluster = length original_reads).
  { unfold size_cluster, original_reads. now rewrite gather_length. }
  split; [|split; [exact Hsize|split]].
  - intros k. rewrite Hfound, neighbours_In, lookup_fmap.
    split; intros [[x Hx] Hw]; split; auto.
    + rewrite Hx. simpl. eauto.
    + destruct (reads !! k); [eauto|discriminate].
  - unfold original_reads, gather. split; [now intros ->|].
    destruct found as [|k ks] eqn:Ef; [reflexivity|]. intros E. exfalso.
    assert (Hk : In k (neighbours t indels reads mb.1))
      by (rewrite <- Hfound; now left).
    apply neighbours_In in Hk as [[rs Hrs] _].
    simpl in E. rewrite Hrs in E. simpl in E.
    apply app_eq_nil in E as [E _]. exact (Hne k rs Hrs E).
  - rewrite Hsize. clear Hsize. subst size_cluster original_reads found.
    change (CountTrie.find_equal_length_optimized (length <$> reads) mb.1 t indels)
      with (neighbours t indels reads mb.1).
    rewrite trie_iteration_run.
    set (found := neighbours t indels reads mb.1).
    set (original_reads := gather reads found).
    rewrite fmap_remove_all.
    replace (0 <? length original_reads)%nat
      with (negb (length original_reads =? 0)%nat)
      by (destruct original_reads; reflexivity).
    destruct ((Z.of_nat (length original_reads) >=? m)
              && negb (length original_reads =? 0)%nat) eqn:C.
    + apply andb_true_iff in C as [_ C].
      destruct (random_choice_In original_reads g) as [x [Hx Hin]].
      { intros E. rewrite E in C. discriminate. }
      exists [x], (fun n => g (S n)). rewrite M_bind_run, Hx.
      split; [reflexivity|]. split; [|eauto].
      rewrite <- fmap_remove_all. now apply lockstep_remove_all.
    + exists original_reads, g. split; [reflexivity|]. split; [|auto].
      rewrite <- fmap_remove_all. now apply lockstep_remove_all.
Qed.
End TrieInvariant.

Lemma for_in_app_run {A S : Type} (l1 l2 : list A) (body : S -> A -> M S)
    (st : S) (g : rng) :
  for_in (l1 ++ l2) body st g
  = match for_in l1 body st g with
    | Ok (st', g') => for_in l2 body st' g'
    | Raise e => Raise e
    end.
Proof.
  revert st g. induction l1 as [|x l1 IH]; intros st g; [reflexivity|].
  simpl app. rewrite !for_in_cons, !M_bind_run.
  destruct (body st x g) as [[st1 g1]|e]; [apply IH|reflexivity].
Qed.

(** C4.  The trie strategy runs its second loop over the records in the
    order given.  When the loop reaches a record whose barcode is still
    indexed, the query finds exactly the indexed barcodes within the
    distance, the barcode itself among them; the cluster size is the sum
    of their counts in the trie, and equals the number of reads gathered
    from the map under them; they are removed from the trie and from the
    map, and no later iteration finds them again; a cluster of at least
    [min_cluster_size] adds one read drawn from the gathered ones to the
    output, a smaller one adds all of them. *)
Theorem trie_claims_neighbourhood {Read : Type}
    (molecular_barcodes pre post : list (string * Read))
    (molecular_barcode : string * Read)
    (allowed_mismatches min_cluster_size : Z) (allow_indels : bool) (g : rng)
    (trie0 trie : gmap string nat) (reads0 reads : gmap string (list Read))
    (clusters : list Read) (g1 : rng) :
  0 <= allowed_mismatches ->
  molecular_barcodes = pre ++ molecular_barcode :: post ->
  fold_left trie_fill molecular_barcodes (∅, ∅) = (trie0, reads0) ->
  for_in pre (trie_iteration allowed_mismatches min_cluster_size allow_indels)
         (trie0, reads0, []) g
  = Ok ((trie, reads, clusters), g1) ->
  is_Some (trie !! molecular_barcode.1) ->
  let found :=
    CountTrie.find_equal_length_optimized trie molecular_barcode.1
      allowed_mismatches allow_indels in
  let size_cluster :=
    list_sum (map (fun k => CountTrie.get_count k trie) found) in
  let original_reads := gather reads found in
  (forall k, In k found
             <-> is_Some (trie !! k)
                 /\ CountTrie.within allow_indels allowed_mismatches
                                     molecular_barcode.1 k = true)
  /\ In molecular_barcode.1 found
  /\ size_cluster = length original_reads
  /\ (1 <= size_cluster)%nat
  /\ exists out g2,
       trie_iteration allowed_mismatches min_cluster_size allow_indels
                      (trie, reads, clusters) molecular_barcode g1
       = Ok ((remove_all found trie, remove_all found reads, clusters ++ out),
             g2)
       /\ (if Z.of_nat size_cluster >=? min_cluster_size
           then exists x, random_choice original_reads g1 = Ok (x, g2)
                          /\ In x original_reads /\ out = [x]
           else out = original_reads /\ g2 = g1)
       /\ countMolecularBarcodesPrefixtrie molecular_barcodes
            allowed_mismatches min_cluster_size allow_indels g
          = (for_in post
               (trie_iteration allowed_mismatches min_cluster_size allow_indels)
               (remove_all found trie, remove_all found reads, clusters ++ out)
             ≫= fun st => mret st.2) g2
       /\ forall rest st g3,
            for_in rest
              (trie_iteration allowed_mismatches min_cluster_size allow_indels)
              (remove_all found trie, remove_all found reads, clusters ++ out)
              g2
            = Ok (st, g3) ->
            forall k, In k found -> st.1.1 !! k = None /\ st.1.2 !! k = None.
Proof.
  intros Ht Hmbs Hfill Hpre Hidx found size_cluster original_reads.
  destruct (lockstep_fill _ _ _ Hfill) as [Hl0 _].
  destruct (trie_loop_state _ _ _ _ _ _ _ _ _ _ _ _ Hl0 Hpre) as [Hl _].
  destruct (trie_iteration_lockstep allowed_mismatches min_cluster_size
              allow_indels trie reads clusters molecular_barcode g1 Hl)
    as [Hfound [Hsize [Hnil [out [g2 [Hit [Hl' Hout]]]]]]].
  fold found in Hfound, Hsize, Hnil, Hit, Hl', Hout.
  fold size_cluster in Hsize, Hout. fold original_reads in Hsize, Hnil, Hout.
  assert (Hself : In molecular_barcode.1 found).
  { apply Hfound. split; [exact Hidx|]. now apply within_refl. }
  assert (Hpos : (1 <= size_cluster)%nat).
  { rewrite Hsize. destruct original_reads; [|simpl; lia].
    destruct Hnil as [_ Hnil]. rewrite Hnil in Hself by reflexivity.
    contradiction. }
  repeat (split; [assumption|]).
  exists out, g2. split; [exact Hit|]. split; [|split].
  - replace (negb (size_cluster =? 0)%nat) with true in Hout
      by (destruct size_cluster; [lia|reflexivity]).
    now rewrite andb_true_r in Hout.
  - unfold countMolecularBarcodesPrefixtrie. rewrite Hfill, Hmbs.
    rewrite !M_bind_run, for_in_app_run, Hpre, for_in_cons, M_bind_run, Hit.
    reflexivity.
  - intros rest st g3 Hrest k Hk. destruct st as [[tr rd] cl].
    destruct (trie_loop_state _ _ _ _ _ _ _ _ _ _ _ _ Hl' Hrest)
      as [[-> _] ->].
    simpl. rewrite lookup_fmap.
    destruct (reads_after _ _ _ rest !! k) as [v|] eqn:E; [|split; reflexivity].
    apply reads_after_lookup in E. rewrite remove_all_lookup in E.
    destruct (in_dec string_dec k found); [discriminate|contradiction].
Qed.

Lemma trie_claims_neighbourhood_witness :
  let mbs := [("AAAA", 1); ("AAAA", 2); ("AAAT", 3); ("TTTT", 4)]%string%nat in
  let st0 := fold_left trie_fill mbs (∅, ∅) in
  let found := CountTrie.find_equal_length_optimized st0.1 "AAAA" 1 false in
  0 <= 1
  /\ is_Some (st0.1 !! "AAAA"%string)
  /\ In "AAAA"%string found
  /\ list_sum (map (fun k => CountTrie.get_count k st0.1) found)
     = length (gather st0.2 found).
Proof.
  intros mbs st0 found.
  assert (H0 : 0 <= 1) by lia.
  assert (H1 : is_Some (st0.1 !! "AAAA"%string))
    by (exists 2%nat; vm_compute; reflexivity).
  destruct (trie_claims_neighbourhood mbs [] (tl mbs) ("AAAA"%string, 1%nat)
              1 2 false (fun n => n) st0.1 st0.1 st0.2 st0.2 []
              (fun n => n) H0 eq_refl (surjective_pairing st0) eq_refl H1)
    as [_ [Hin [Hsize _]]].
  auto.
Defined.

(** C9, as amended.  Reaching a record whose barcode has been consumed by
    an earlier neighbourhood raises nothing: the iteration still queries
    the trie with that barcode and finds the indexed barcodes within the
    distance, the barcode itself not among them; when there are none, in
    particular whenever the threshold is 0, the iteration adds nothing to
    the output and changes nothing; otherwise it resolves the cluster of
    the barcodes found like any other. *)
Theorem trie_consumed_barcode {Read : Type}
    (molecular_barcodes pre post : list (string * Read))
    (molecular_barcode : string * Read)
    (allowed_mismatches min_cluster_size : Z) (allow_indels : bool) (g : rng)
    (trie0 trie : gmap string nat) (reads0 reads : gmap string (list Read))
    (clusters : list Read) (g1 : rng) :
  molecular_barcodes = pre ++ molecular_barcode :: post ->
  fold_left trie_fill molecular_barcodes (∅, ∅) = (trie0, reads0) ->
  for_in pre (trie_iteration allowed_mismatches min_cluster_size allow_indels)
         (trie0, reads0, []) g
  = Ok ((trie, reads, clusters), g1) ->
  trie !! molecular_barcode.1 = None ->
  let found :=
    CountTrie.find_equal_length_optimized trie molecular_barcode.1
      allowed_mismatches allow_indels in
  let original_reads := gather reads found in
  (forall k, In k found
             <-> is_Some (trie !! k)
                 /\ CountTrie.within allow_indels allowed_mismatches
                                     molecular_barcode.1 k = true)
  /\ ~ In molecular_barcode.1 found
  /\ (allowed_mismatches = 0 -> found = [])
  /\ exists out g2,
       trie_iteration allowed_mismatches min_cluster_size allow_indels
                      (trie, reads, clusters) molecular_barcode g1
       = Ok ((remove_all found trie, remove_all found reads, clusters ++ out),
             g2)
       /\ (found = [] ->
           out = [] /\ g2 = g1
           /\ remove_all found trie = trie /\ remove_all found reads = reads)
       /\ (found <> [] ->
           original_reads <> []
           /\ if Z.of_nat (length original_reads) >=? min_cluster_size
              then exists x, random_choice original_reads g1 = Ok (x, g2)
                             /\ In x original_reads /\ out = [x]
              else out = original_reads /\ g2 = g1).
Proof.
  intros Hmbs Hfill Hpre Hidx found original_reads.
  destruct (lockstep_fill _ _ _ Hfill) as [Hl0 _].
  destruct (trie_loop_state _ _ _ _ _ _ _ _ _ _ _ _ Hl0 Hpre) as [Hl _].
  destruct (trie_iteration_lockstep allowed_mismatches min_cluster_size
              allow_indels trie reads clusters molecular_barcode g1 Hl)
    as [Hfound [Hsize [Hnil [out [g2 [Hit [Hl' Hout]]]]]]].
  fold found in Hfound, Hsize, Hnil, Hit, Hl', Hout.
  fold original_reads in Hsize, Hnil, Hout.
  assert (Hself : ~ In molecular_barcode.1 found).
  { intros Hin. apply Hfound in Hin as [[c Hc] _]. congruence. }
  split; [exact Hfound|]. split; [exact Hself|]. split.
  - intros ->. destruct found as [|k ks] eqn:E; [reflexivity|]. exfalso.
    assert (Hk : In k (k :: ks)) by now left.
    apply Hfound in Hk as [[c Hc] Hw]. apply within_zero in Hw.
    congruence.
  - exists out, g2. split; [exact Hit|]. rewrite Hsize in Hout. split.
    + intros Hf. pose proof (proj1 Hnil Hf) as Ho. rewrite Ho in Hout.
      rewrite andb_false_r in Hout. destruct Hout as [-> ->].
      rewrite Hf. auto.
    + intros Hf.
      assert (Ho : original_reads <> []) by (intros Ho; now apply Hnil in Ho).
      split; [exact Ho|].
      replace (negb (length original_reads =? 0)%nat) with true in Hout
        by (destruct original_reads; [contradiction|reflexivity]).
      now rewrite andb_true_r in Hout.
Qed.

Lemma trie_consumed_barcode_witness :
  let mbs := [("AAAA", 1); ("AAAT", 2); ("AATT", 3)]%string%nat in
  let trie : gmap string nat := {["AATT"%string := 1%nat]} in
  let reads : gmap string (list nat) := {["AATT"%string := [3%nat]]} in
  trie !! "AAAT"%string = None
  /\ ~ In "AAAT"%string
       (CountTrie.find_equal_length_optimized trie "AAAT" 1 false)
  /\ exists out g2,
       trie_iteration 1 2 false (trie, reads, [1%nat]) ("AAAT"%string, 2%nat)
                      (fun n => S n)
       = Ok ((remove_all
                (CountTrie.find_equal_length_optimized trie "AAAT" 1 false) trie,
              remove_all
                (CountTrie.find_equal_length_optimized trie "AAAT" 1 false) reads,
              [1%nat] ++ out), g2).
Proof.
  intros mbs trie reads.
  assert (H1 : trie !! "AAAT"%string = None) by (vm_compute; reflexivity).
  destruct (trie_consumed_barcode mbs [("AAAA"%string, 1%nat)]
              [("AATT"%string, 3%nat)] ("AAAT"%string, 2%nat) 1 2 false
              (fun n => n)
              (fold_left trie_fill mbs (∅, ∅)).1 trie
              (fold_left trie_fill mbs (∅, ∅)).2 reads [1%nat] (fun n => S n)
              eq_refl (surjective_pairing _)
              ltac:(vm_compute; reflexivity) H1)
    as [_ [Hself [_ [out [g2 [Hit _]]]]]].
  split; [exact H1|]. split; [exact Hself|]. now exists out, g2.
Defined.

(** C9, as stated, fails: with the barcodes AAAA, AAAT, AATT and one
    mismatch allowed, the first iteration consumes AAAA and AAAT, and the
    second, reached with the consumed AAAT, finds AATT and adds its read to
    the output. *)
Lemma trie_consumed_not_skipped :
  let mbs := [("AAAA", 1); ("AAAT", 2); ("AATT", 3)]%string%nat in
  let trie : gmap string nat := {["AATT"%string := 1%nat]} in
  let reads : gmap string (list nat) := {["AATT"%string := [3%nat]]} in
  for_in [("AAAA"%string, 1%nat)] (trie_iteration 1 2 false)
         ((fold_left trie_fill mbs (∅, ∅)).1,
          (fold_left trie_fill mbs (∅, ∅)).2, []) (fun n => n)
  = Ok ((trie, reads, [1%nat]), fun n => S n)
  /\ trie !! "AAAT"%string = None
  /\ reads !! "AAAT"%string = None
  /\ trie_iteration 1 2 false (trie, reads, [1%nat]) ("AAAT"%string, 2%nat)
                    (fun n => S n)
     = Ok ((∅, ∅, [1%nat] ++ [3%nat]), fun n => S n).
Proof. vm_compute. repeat split; reflexivity. Qed.

(** ** The hierarchical strategy *)

(** The fallback of the hierarchical strategy. *)
Lemma hier_small_is_naive {Read Dendrogram : Type}
    (linkage : list nat -> string -> Dendrogram)
    (fcluster : Dendrogram -> Z -> list nat)
    (molecular_barcodes : list (string * Read))
    (allowed_mismatches min_cluster_size : Z) (method : string) (g : rng) :
  (length molecular_barcodes <= 2)%nat ->
  countMolecularBarcodesClustersHierarchical linkage fcluster
    molecular_barcodes allowed_mismatches min_cluster_size method g
  = countMolecularBarcodesClustersNaive molecular_barcodes allowed_mismatches
      min_cluster_size g.
Proof.
  intros Hlen. unfold countMolecularBarcodesClustersHierarchical.
  now rewrite (proj2 (Nat.leb_le _ _) Hlen).
Qed.

(** C5.  On an input of at most two records the hierarchical strategy is
    the naive strategy: it returns what the naive strategy returns on the
    same records, thresholds and random source, whatever the linkage
    method. *)
Theorem hierarchical_small_input {Read Dendrogram : Type}
    (linkage : list nat -> string -> Dendrogram)
    (fcluster : Dendrogram -> Z -> list nat)
    (molecular_barcodes : list (string * Read))
    (allowed_mismatches min_cluster_size : Z) (method : string) (g : rng) :
  (length molecular_barcodes <= 2)%nat ->
  countMolecularBarcodesClustersHierarchical linkage fcluster
    molecular_barcodes allowed_mismatches min_cluster_size method g
  = countMolecularBarcodesClustersNaive molecular_barcodes allowed_mismatches
      min_cluster_size g.
Proof.
  intros Hlen. unfold countMolecularBarcodesClustersHierarchical.
  apply Nat.leb_le in Hlen. now rewrite Hlen.
Qed.

Lemma hierarchical_small_input_witness :
  (length [("AAAA", 1); ("AAAT", 2)]%string%nat <= 2)%nat
  /\ countMolecularBarcodesClustersHierarchical Agglomerative.linkage
       Agglomerative.fcluster [("AAAA", 1); ("AAAT", 2)]%string%nat 1 2
       "complete" (fun n => n)
     = countMolecularBarcodesClustersNaive
         [("AAAA", 1); ("AAAT", 2)]%string%nat 1 2 (fun n => n).
Proof.
  split; [simpl; lia|].
  apply hierarchical_small_input. simpl. lia.
Defined.

Lemma mapM_Ok {A B : Type} (f : A -> result B) (h : A -> B) (l : list A) :
  (forall x, In x l -> f x = Ok (h x)) -> mapM f l = Ok (map h l).
Proof.
  induction l as [|x l IH]; intros H; [reflexivity|].
  simpl. rewrite (H x) by now left. rewrite bind_Ok, IH.
  - reflexivity.
  - intros y Hy. apply H. now right.
Qed.

Lemma triu_indices_In (n i j : nat) :
  In (i, j) (triu_indices n) <-> (i < j < n)%nat.
Proof.
  unfold triu_indices. rewrite in_flat_map. split.
  - intros [i' [Hi Hj]]. apply in_map_iff in Hj as [j' [[= <- <-] Hj]].
    apply in_seq in Hi, Hj. lia.
  - intros Hij. exists i. split; [apply in_seq; lia|].
    apply in_map_iff. exists j. split; [reflexivity|apply in_seq; lia].
Qed.

Lemma getitem_nth {A : Type} (l : list A) (i : nat) (x0 : A) :
  (i < length l)%nat -> getitem l i = Ok (nth i l x0).
Proof.
  intros Hi. unfold getitem.
  destruct (lookup_lt_is_Some_2 l i Hi) as [x Hx]. rewrite Hx. simpl.
  f_equal. symmetry. now apply nth_lookup_Some.
Qed.

Lemma iteritems_Permutation {V : Type} (d : gmap nat V) :
  Permutation (iteritems d) (map_to_list d).
Proof. apply sorted_Permutation. Qed.

Lemma iteritems_In {V : Type} (d : gmap nat V) (k : nat) (v : V) :
  In (k, v) (iteritems d) <-> d !! k = Some v.
Proof.
  rewrite <- elem_of_map_to_list, list_elem_of_In. split; intros Hin.
  - eapply Permutation_in; [apply iteritems_Permutation|exact Hin].
  - eapply Permutation_in; [symmetry; apply iteritems_Permutation|exact Hin].
Qed.

Lemma iteritems_NoDup {V : Type} (d : gmap nat V) :
  List.NoDup (map fst (iteritems d)).
Proof.
  eapply Permutation_NoDup.
  - apply Permutation_map. symmetry. apply iteritems_Permutation.
  - apply NoDup_ListNoDup, (NoDup_fst_map_to_list d).
Qed.

Lemma iteritems_pool {V : Type} (d : gmap nat (list V)) :
  Permutation (concat (map snd (iteritems d))) (pool d).
Proof. apply pool_Permutation, iteritems_Permutation. Qed.

Lemma labelled_from (i : nat) (labels : list nat) :
  forall items,
    fold_left hier_append (enumerate_from i labels) items
    = reads_map items (map (fun e : nat * nat => (e.2, e.1))
                           (enumerate_from i labels)).
Proof.
  revert i. induction labels as [|a labels IH]; intros i items; [reflexivity|].
  simpl. unfold reads_map in *. simpl. apply IH.
Qed.

Lemma labelled_snd_from (i : nat) (labels : list nat) :
  map snd (map (fun e : nat * nat => (e.2, e.1)) (enumerate_from i labels))
  = seq i (length labels).
Proof.
  rewrite map_map. simpl. apply enumerate_from_fst.
Qed.

Lemma labelled_fst_from (i : nat) (labels : list nat) :
  map fst (map (fun e : nat * nat => (e.2, e.1)) (enumerate_from i labels))
  = labels.
Proof.
  rewrite map_map. simpl. apply enumerate_from_snd.
Qed.

Lemma labelled_In (labels : list nat) (a i : nat) :
  In (a, i) (labelled labels) <-> labels !! i = Some a.
Proof.
  unfold labelled, enumerate. rewrite in_map_iff.
  assert (H : forall s e, In e (enumerate_from s labels)
                          <-> (s <= e.1)%nat /\ labels !! (e.1 - s)%nat = Some e.2).
  { induction labels as [|b labels IH]; intros s [k x]; simpl.
    - split; [contradiction|]. intros [_ E]. discriminate.
    - rewrite IH. simpl. split.
      + intros [[= <- <-]|[Hs E]].
        * rewrite Nat.sub_diag. auto.
        * split; [lia|]. replace (k - s)%nat with (S (k - S s)) by lia.
          exact E.
      + intros [Hs E]. destruct (Nat.eq_dec s k) as [->|Hne].
        * rewrite Nat.sub_diag in E. left. simpl in E. congruence.
        * right. split; [lia|].
          replace (k - s)%nat with (S (k - S s)) in E by lia. exact E. }
  split.
  - intros [[k x] [[= <- <-] Hin]]. apply H in Hin as [_ E]. simpl in E.
    now rewrite Nat.sub_0_r in E.
  - intros E. exists (i, a). split; [reflexivity|]. apply H. simpl.
    rewrite Nat.sub_0_r. split; [lia|exact E].
Qed.

(** The indices listed under a label are those of the records with that
    label, in ascending order. *)
Lemma reads_with_labelled (labels : list nat) (a i : nat) :
  In i (reads_with (labelled labels) a) <-> labels !! i = Some a.
Proof.
  unfold reads_with. rewrite in_map_iff. split.
  - intros [[b k] [<- Hin]]. apply filter_In in Hin as [Hin Hb].
    apply bool_decide_eq_true_1 in Hb. simpl in *. subst b.
    now apply labelled_In.
  - intros E. exists (a, i). split; [reflexivity|].
    apply filter_In. split; [now apply labelled_In|].
    now apply bool_decide_eq_true_2.
Qed.

Lemma map_nth_seq {A : Type} (l : list A) (x0 : A) :
  map (fun i => nth i l x0) (seq 0 (length l)) = l.
Proof.
  induction l as [|x l IH]; [reflexivity|].
  simpl. f_equal. rewrite <- seq_shift, map_map. exact IH.
Qed.

Section HierFacts.
Context {Read Dendrogram : Type}.
Context (linkage : list nat -> string -> Dendrogram).
Context (fcluster : Dendrogram -> Z -> list nat).

Local Abbreviation record := (string * Read)%type.

Lemma hier_matrix (mbs : list record) :
  uniform mbs ->
  mapM (d mbs) (triu_indices (length mbs)) = Ok (distance_matrix mbs).
Proof.
  intros Hu. unfold distance_matrix. apply mapM_Ok.
  intros [i j] Hij. apply triu_indices_In in Hij.
  destruct mbs as [|r0 mbs']; [simpl in Hij; lia|].
  set (mbs := r0 :: mbs') in *.
  unfold d. rewrite (getitem_nth mbs i r0), (getitem_nth mbs j r0) by lia.
  rewrite !bind_Ok. simpl fst. simpl snd.
  rewrite (nth_indep (map fst mbs) ""%string r0.1),
          (nth_indep (map fst mbs) ""%string r0.1)
    by (rewrite length_map; lia).
  rewrite !map_nth. apply hamming_distance_uniform.
  apply Hu; apply nth_In; lia.
Qed.

Lemma hier_items_eq (mbs : list record) (t : Z) (method : string) :
  uniform mbs ->
  hier_items linkage fcluster mbs t method
  = Ok (reads_map ∅ (labelled (flat_labels linkage fcluster mbs t method))).
Proof.
  intros Hu. unfold hier_items. rewrite hier_matrix by exact Hu.
  rewrite bind_Ok. unfold enumerate. now rewrite labelled_from.
Qed.

(** What the dictionary of flat clusters holds under a label. *)
Lemma items_lookup (labels : list nat) (a : nat) (idxs : list nat) :
  reads_map ∅ (labelled labels) !! a = Some idxs ->
  idxs = reads_with (labelled labels) a /\ In a labels /\ idxs <> [].
Proof.
  intros E.
  destruct (in_dec Nat.eq_dec a (map fst (labelled labels))) as [Hin|Hn].
  - rewrite reads_map_lookup_In in E by exact Hin.
    rewrite lookup_empty in E. simpl in E. injection E as <-.
    split; [reflexivity|]. split; [|now apply reads_with_In].
    unfold labelled, enumerate in Hin. now rewrite labelled_fst_from in Hin.
  - rewrite reads_map_lookup_notin, lookup_empty in E by exact Hn.
    discriminate.
Qed.

Lemma items_lookup_label (labels : list nat) (a : nat) :
  In a labels ->
  reads_map ∅ (labelled labels) !! a = Some (reads_with (labelled labels) a).
Proof.
  intros Hin. rewrite reads_map_lookup_In, lookup_empty; [reflexivity|].
  unfold labelled, enumerate. now rewrite labelled_fst_from.
Qed.

Lemma items_indices (labels : list nat) (a : nat) (idxs : list nat) :
  reads_map ∅ (labelled labels) !! a = Some idxs ->
  Forall (fun i => (i < length labels)%nat) idxs.
Proof.
  intros E. apply items_lookup in E as [-> _].
  apply List.Forall_forall. intros i Hi.
  apply reads_with_labelled in Hi. eapply lookup_lt_Some. exact Hi.
Qed.

Lemma items_pool (labels : list nat) :
  Permutation (concat (map snd (iteritems (reads_map ∅ (labelled labels)))))
              (seq 0 (length labels)).
Proof.
  rewrite iteritems_pool, pool_reads_map, pool_empty. simpl.
  unfold labelled, enumerate. now rewrite labelled_snd_from.
Qed.

(** The clusters of the hierarchical strategy on more than two records. *)
Lemma hier_clusters_eq (mbs : list record) (t : Z) (method : string)
    (r0 : record) :
  uniform mbs ->
  (2 < length mbs)%nat ->
  length (flat_labels linkage fcluster mbs t method) = length mbs ->
  hier_clusters linkage fcluster mbs t method
  = Ok (map (fun item : nat * list nat => map (fun i => nth i mbs r0) item.2)
            (iteritems (reads_map ∅
               (labelled (flat_labels linkage fcluster mbs t method))))).
Proof.
  intros Hu Hn Hlen. unfold hier_clusters.
  replace (length mbs <=? 2)%nat with false
    by (symmetry; apply Nat.leb_gt; lia).
  rewrite hier_items_eq by exact Hu. rewrite bind_Ok.
  apply mapM_Ok. intros [a idxs] Hin. apply iteritems_In in Hin.
  apply items_indices in Hin. simpl. apply mapM_Ok.
  intros i Hi. rewrite List.Forall_forall in Hin.
  apply getitem_nth. rewrite <- Hlen. now apply Hin.
Qed.

Lemma hier_groups_cover (mbs : list record) (labels : list nat) (r0 : record) :
  length labels = length mbs ->
  Permutation
    (concat (map (map snd)
       (map (fun item : nat * list nat => map (fun i => nth i mbs r0) item.2)
            (iteritems (reads_map ∅ (labelled labels))))))
    (map snd mbs).
Proof.
  intros Hlen. rewrite !map_map. simpl.
  rewrite (map_ext _ (fun item : nat * list nat =>
                        map (fun i => (nth i mbs r0).2) item.2))
    by (intros; apply map_map).
  rewrite <- (map_map snd (map (fun i => (nth i mbs r0).2))).
  rewrite <- concat_map, items_pool, Hlen.
  rewrite <- (map_map (fun i => nth i mbs r0) snd).
  now rewrite map_nth_seq.
Qed.
End HierFacts.

(** ** Representatives *)

Section Resolved.
Context {X : Type}.

Lemma resolved_incl (m : Z) (group out : list X) :
  resolved m group out -> incl out group.
Proof.
  intros [[_ [x [Hx ->]]]|[_ ->]]; [|apply incl_refl].
  intros y [<-|[]]. exact Hx.
Qed.

Lemma resolved_NoDup (m : Z) (group out : list X) :
  resolved m group out -> List.NoDup group -> List.NoDup out.
Proof.
  intros [[_ [x [Hx ->]]]|[_ ->]] Hnd; [|exact Hnd].
  constructor; [intros []|constructor].
Qed.

Lemma resolved_concat_incl (m : Z) (groups outs : list (list X)) :
  Forall2 (resolved m) groups outs -> incl (concat outs) (concat groups).
Proof.
  induction 1 as [|grp out groups outs Hr _ IH]; simpl; [apply incl_refl|].
  apply incl_app.
  - apply incl_appl. eapply resolved_incl. exact Hr.
  - now apply incl_appr.
Qed.

Lemma NoDup_app_parts (l1 l2 : list X) :
  List.NoDup (l1 ++ l2)
  <-> List.NoDup l1 /\ List.NoDup l2 /\ (forall x, In x l1 -> ~ In x l2).
Proof.
  induction l1 as [|a l1 IH]; simpl.
  - split; [intros H; repeat split; auto; constructor|tauto].
  - rewrite !NoDup_cons_iff, IH, in_app_iff. split.
    + intros [Ha [H1 [H2 Hd]]]. repeat split; auto.
      intros x [<-|Hx]; auto.
    + intros [[Ha H1] [H2 Hd]]. repeat split; auto.
      intros [Hin|Hin]; [contradiction|]. exact (Hd a (or_introl eq_refl) Hin).
Qed.

Lemma resolved_concat_NoDup (m : Z) (groups outs : list (list X)) :
  Forall2 (resolved m) groups outs ->
  List.NoDup (concat groups) -> List.NoDup (concat outs).
Proof.
  induction 1 as [|grp out groups outs Hr Hrs IH]; simpl; [auto|].
  rewrite !NoDup_app_parts. intros [Hg [Hc Hd]]. repeat split.
  - eapply resolved_NoDup; eassumption.
  - now apply IH.
  - intros x Hx Hx'. apply (Hd x).
    + eapply resolved_incl; eassumption.
    + eapply resolved_concat_incl; eassumption.
Qed.

Lemma trie_out_resolved (m : Z) (groups outs : list (list X)) :
  Forall2 (trie_out m) groups outs ->
  exists outs',
    concat outs' = concat outs
    /\ Forall2 (resolved m)
               (List.filter (fun g => negb (Nat.eqb (length g) 0)) groups)
               outs'.
Proof.
  induction 1 as [|grp out groups outs Hr _ [outs' [Hc Hf]]].
  - exists []. split; [reflexivity|constructor].
  - destruct Hr as [[-> ->]|[Hne Hr]]; simpl.
    + exists outs'. auto.
    + destruct grp as [|x grp]; [contradiction|]. simpl.
      exists (out :: outs'). simpl. rewrite Hc. split; [reflexivity|].
      now constructor.
Qed.

Lemma concat_filter_nonempty (groups : list (list X)) :
  concat (List.filter (fun g => negb (Nat.eqb (length g) 0)) groups)
  = concat groups.
Proof.
  induction groups as [|[|x grp] groups IH]; simpl; [reflexivity|exact IH|].
  now rewrite IH.
Qed.

Lemma filter_nonempty_Forall (groups : list (list X)) :
  Forall (fun g => g <> [])
         (List.filter (fun g => negb (Nat.eqb (length g) 0)) groups).
Proof.
  apply List.Forall_forall. intros grp Hin. apply filter_In in Hin as [_ H].
  now destruct grp.
Qed.

Lemma length_concat_sum (groups : list (list X)) :
  length (concat groups) = list_sum (map length groups).
Proof.
  induction groups as [|grp groups IH]; simpl; [reflexivity|].
  now rewrite length_app, IH.
Qed.
End Resolved.

Section Runs.
Context {Read : Type}.

Local Abbreviation record := (string * Read)%type.

Lemma spec_resolve_run (m : Z) (c : list record) (g : rng) :
  c <> [] ->
  exists out g',
    spec_resolve m c g = Ok (out, g') /\ resolved m (map snd c) out.
Proof.
  intros Hc. unfold spec_resolve, resolved. rewrite length_map.
  destruct (Z.geb_spec (Z.of_nat (length c)) m) as [Hm|Hm].
  - destruct (random_choice_In c g Hc) as [x [Hx Hin]].
    exists [x.2], (fun n => g (S n)). rewrite M_bind_run, Hx.
    split; [reflexivity|]. left. split; [lia|].
    exists x.2. split; [now apply in_map|reflexivity].
  - exists (map snd c), g. split; [reflexivity|]. right. split; [lia|reflexivity].
Qed.

Lemma spec_resolve_all (m : Z) (cs : list (list record)) :
  Forall (fun c => c <> []) cs ->
  forall g, exists outs g',
    mapM (spec_resolve m) cs g = Ok (outs, g')
    /\ Forall2 (resolved m) (map (map snd) cs) outs.
Proof.
  induction 1 as [|c cs Hc _ IH]; intros g.
  - exists [], g. split; [reflexivity|constructor].
  - destruct (spec_resolve_run m c g Hc) as [out [g1 [E Hr]]].
    destruct (IH g1) as [outs [g' [E' Hrs]]].
    exists (out :: outs), g'.
    change (mapM (spec_resolve m) (c :: cs))
      with (spec_resolve m c ≫= fun y =>
            mapM (spec_resolve m) cs ≫= fun k => mret (y :: k)).
    rewrite M_bind_run, E, M_bind_run, E'. split; [reflexivity|].
    now constructor.
Qed.

(** The naive strategy resolves the chains of the sorted records. *)
Lemma naive_run (mbs : list record) (t m : Z) (g : rng) :
  uniform mbs ->
  exists outs g',
    countMolecularBarcodesClustersNaive mbs t m g = Ok (concat outs, g')
    /\ Forall2 (resolved m)
         (map (map snd)
              (chain (linked t) (sorted (fun x y => str_le x.1 y.1) mbs)))
         outs.
Proof.
  intros Hu. rewrite naive_is_cluster_naive. unfold cluster_naive.
  rewrite <- naive_clusters_spec, naive_clusters_uniform by exact Hu.
  destruct (spec_resolve_all m _
              (chain_nonempty (linked t)
                 (sorted (fun x y : record => str_le x.1 y.1) mbs)) g)
    as [outs [g' [E Hr]]].
  exists outs, g'. rewrite !M_bind_run. simpl lift. cbv iota beta.
  rewrite M_bind_run, E. split; [reflexivity|exact Hr].
Qed.

Lemma hier_filter_run (mbs : list record) (m : Z) (r0 : record)
    (acc : list Read) (item : nat * list nat) (g : rng) :
  item.2 <> [] ->
  Forall (fun i => (i < length mbs)%nat) item.2 ->
  exists out g',
    hier_filter mbs m acc item g = Ok (acc ++ out, g')
    /\ resolved m (map snd (map (fun i => nth i mbs r0) item.2)) out.
Proof.
  intros Hne Hidx. unfold hier_filter, resolved. rewrite !length_map.
  rewrite List.Forall_forall in Hidx.
  destruct (Z.geb_spec (Z.of_nat (length item.2)) m) as [Hm|Hm].
  - destruct (random_choice_In item.2 g Hne) as [i [Hi Hin]].
    exists [(nth i mbs r0).2], (fun n => g (S n)).
    rewrite M_bind_run, Hi, M_bind_run.
    rewrite (getitem_nth mbs i r0) by now apply Hidx.
    split; [reflexivity|]. left. split; [lia|].
    exists (nth i mbs r0).2. split; [|reflexivity].
    rewrite map_map. apply in_map_iff. now exists i.
  - exists (map snd (map (fun i => nth i mbs r0) item.2)), g.
    rewrite M_bind_run.
    rewrite (mapM_Ok _ (fun i => (nth i mbs r0).2)).
    + simpl lift. cbv iota beta. rewrite map_map.
      split; [reflexivity|]. right. split; [lia|reflexivity].
    + intros i Hi. rewrite (getitem_nth mbs i r0) by now apply Hidx.
      reflexivity.
Qed.

Lemma hier_loop_run (mbs : list record) (m : Z) (r0 : record)
    (items : list (nat * list nat)) :
  Forall (fun item : nat * list nat =>
            item.2 <> [] /\ Forall (fun i => (i < length mbs)%nat) item.2)
         items ->
  forall acc g, exists outs g',
    for_in items (hier_filter mbs m) acc g = Ok (acc ++ concat outs, g')
    /\ Forall2 (resolved m)
         (map (map snd)
              (map (fun item : nat * list nat =>
                      map (fun i => nth i mbs r0) item.2) items))
         outs.
Proof.
  induction 1 as [|item items [Hne Hidx] _ IH]; intros acc g.
  - exists [], g. simpl. rewrite app_nil_r. split; [reflexivity|constructor].
  - destruct (hier_filter_run mbs m r0 acc item g Hne Hidx)
      as [out [g1 [E Hr]]].
    destruct (IH (acc ++ out) g1) as [outs [g' [E' Hrs]]].
    exists (out :: outs), g'. rewrite for_in_cons, M_bind_run, E, E'.
    simpl. rewrite <- app_assoc. split; [reflexivity|]. now constructor.
Qed.
End Runs.

Section Partition.
Context {Read Dendrogram : Type}.
Context (linkage : list nat -> string -> Dendrogram).
Context (fcluster : Dendrogram -> Z -> list nat).

Local Abbreviation record := (string * Read)%type.
Local Abbreviation by_barcode := (fun x y : record => str_le x.1 y.1).

Lemma naive_membership (mbs : list record) (t : Z) :
  uniform mbs ->
  membership linkage fcluster Naive mbs t
  = Ok (map (map snd) (chain (linked t) (sorted by_barcode mbs))).
Proof.
  intros Hu. unfold membership. now rewrite naive_clusters_uniform.
Qed.

Lemma naive_groups_cover (mbs : list record) (t : Z) :
  Permutation
    (concat (map (map snd) (chain (linked t) (sorted by_barcode mbs))))
    (map snd mbs).
Proof.
  rewrite <- concat_map, concat_chain. apply Permutation_map.
  apply sorted_Permutation.
Qed.

Lemma map_nonempty {A B : Type} (f : A -> B) (ls : list (list A)) :
  Forall (fun l => l <> []) ls -> Forall (fun l => l <> []) (map (map f) ls).
Proof.
  induction 1 as [|l ls Hl _ IH]; simpl; constructor; auto.
  now destruct l.
Qed.

(** What the three strategies share: non-empty groups that hold every
    input read once, each resolved by the size policy. *)
Lemma strategy_groups (s : strategy) (mbs : list record) (t m : Z) (g : rng) :
  ((forall allow_indels, s <> Prefixtrie allow_indels) -> uniform mbs) ->
  (forall allow_indels, s = Prefixtrie allow_indels -> 0 <= t) ->
  (forall method, s = Hierarchical method -> (2 < length mbs)%nat ->
     length (flat_labels linkage fcluster mbs t method) = length mbs) ->
  exists groups outs g',
    membership linkage fcluster s mbs t = Ok groups
    /\ run linkage fcluster s mbs t m g = Ok (concat outs, g')
    /\ Forall (fun grp => grp <> []) groups
    /\ Permutation (concat groups) (map snd mbs)
    /\ Forall2 (resolved m) groups outs.
Proof.
  intros Hu Ht Hlab.
  assert (Hnaive : uniform mbs -> exists groups outs g',
    membership linkage fcluster Naive mbs t = Ok groups
    /\ countMolecularBarcodesClustersNaive mbs t m g = Ok (concat outs, g')
    /\ Forall (fun grp => grp <> []) groups
    /\ Permutation (concat groups) (map snd mbs)
    /\ Forall2 (resolved m) groups outs).
  { clear Hu. intros Hu.
    destruct (naive_run mbs t m g Hu) as [outs [g' [E Hr]]].
    exists (map (map snd) (chain (linked t) (sorted by_barcode mbs))), outs, g'.
    split; [now apply naive_membership|]. split; [exact E|].
    split; [apply map_nonempty, chain_nonempty|].
    split; [apply naive_groups_cover|exact Hr]. }
  destruct s as [|indels|method].
  - apply Hnaive, Hu. discriminate.
  - specialize (Ht indels eq_refl).
    destruct (trie_run mbs t m indels g) as [outs [g' [E Hout]]].
    destruct (trie_out_resolved m _ _ Hout) as [outs' [Hc Hr]].
    exists (List.filter (fun grp => negb (Nat.eqb (length grp) 0))
              (trie_groups_from t indels (reads_map ∅ mbs) mbs)), outs', g'.
    split; [|split; [|split; [|split]]].
    + unfold membership. rewrite trie_clusters_groups, map_map. simpl.
      now rewrite map_id.
    + unfold run. now rewrite Hc.
    + apply filter_nonempty_Forall.
    + rewrite concat_filter_nonempty. now apply trie_groups_cover.
    + exact Hr.
  - assert (Hu' : uniform mbs) by (apply Hu; discriminate).
    clear Hu. rename Hu' into Hu.
    destruct (le_lt_dec (length mbs) 2) as [Hn|Hn].
    + destruct (Hnaive Hu) as [groups [outs [g' [Em [Er H]]]]].
      exists groups, outs, g'. split; [|split; [|exact H]].
      * unfold membership, hier_clusters in *.
        now rewrite (proj2 (Nat.leb_le _ _) Hn).
      * unfold run. now rewrite hier_small_is_naive.
    + specialize (Hlab method eq_refl Hn).
      destruct mbs as [|r0 mbs']; [simpl in Hn; lia|].
      set (mbs := r0 :: mbs') in *.
      set (labels := flat_labels linkage fcluster mbs t method) in *.
      set (items := iteritems (reads_map ∅ (labelled labels))).
      assert (Hitems : Forall (fun item : nat * list nat =>
                 item.2 <> [] /\ Forall (fun i => (i < length mbs)%nat) item.2)
                items).
      { apply List.Forall_forall. intros [a idxs] Hin.
        apply iteritems_In in Hin. cbn [snd]. split.
        - now apply items_lookup in Hin.
        - rewrite <- Hlab. now apply items_indices with a. }
      destruct (hier_loop_run mbs m r0 items Hitems [] g)
        as [outs [g' [E Hr]]].
      exists (map (map snd)
                (map (fun item : nat * list nat =>
                        map (fun i => nth i mbs r0) item.2) items)), outs, g'.
      split; [|split; [|split; [|split]]].
      * unfold membership.
        now rewrite (hier_clusters_eq linkage fcluster mbs t method r0 Hu Hn Hlab).
      * unfold run, countMolecularBarcodesClustersHierarchical.
        replace (length mbs <=? 2)%nat with false
          by (symmetry; apply Nat.leb_gt; lia).
        rewrite M_bind_run, hier_items_eq by exact Hu.
        simpl lift. cbv iota beta. exact E.
      * apply map_nonempty. clear -Hitems.
        induction Hitems as [|item items [Hne _] _ IH]; simpl; constructor; auto.
        now destruct item.2.
      * now apply hier_groups_cover.
      * exact Hr.
Qed.
End Partition.

(** C2, as amended.  Every strategy, on the records it accepts (barcodes
    of one length for the naive and the hierarchical strategy, whose
    distance fails otherwise; a non-negative threshold for the trie
    strategy; for the hierarchical strategy on more than two records, one
    cluster label per record from the library), returns a list of reads
    made of one part per cluster:
    the clusters are non-empty and together hold every input read exactly
    once, so the sizes of the clusters add up to the number of records;
    the part of a cluster is one of its reads or all of its reads; every
    returned read is an input read; and no read is returned twice when the
    input reads are pairwise distinct.  For the trie strategy the size
    computed from the trie's counts is the number of reads gathered. *)
Theorem representatives_of_partition {Read Dendrogram : Type}
    (linkage : list nat -> string -> Dendrogram)
    (fcluster : Dendrogram -> Z -> list nat)
    (s : strategy) (molecular_barcodes : list (string * Read))
    (allowed_mismatches min_cluster_size : Z) (g : rng) :
  ((forall allow_indels, s <> Prefixtrie allow_indels) ->
   uniform molecular_barcodes) ->
  (forall allow_indels, s = Prefixtrie allow_indels ->
   0 <= allowed_mismatches) ->
  (forall method, s = Hierarchical method ->
     (2 < length molecular_barcodes)%nat ->
     length (flat_labels linkage fcluster molecular_barcodes
                         allowed_mismatches method)
     = length molecular_barcodes) ->
  exists groups outs g',
    membership linkage fcluster s molecular_barcodes allowed_mismatches
    = Ok groups
    /\ run linkage fcluster s molecular_barcodes allowed_mismatches
           min_cluster_size g
       = Ok (concat outs, g')
    /\ Forall (fun grp => grp <> []) groups
    /\ Permutation (concat groups) (map snd molecular_barcodes)
    /\ list_sum (map length groups) = length molecular_barcodes
    /\ Forall2 (resolved min_cluster_size) groups outs
    /\ incl (concat outs) (map snd molecular_barcodes)
    /\ (List.NoDup (map snd molecular_barcodes) -> List.NoDup (concat outs))
    /\ (forall allow_indels, s = Prefixtrie allow_indels ->
          Forall (fun c : nat * list Read => c.1 = length c.2)
                 (trie_clusters molecular_barcodes allowed_mismatches
                                allow_indels)
          /\ list_sum (map fst (trie_clusters molecular_barcodes
                                  allowed_mismatches allow_indels))
             = length molecular_barcodes).
Proof.
  intros Hu Ht Hlab.
  destruct (strategy_groups linkage fcluster s molecular_barcodes
              allowed_mismatches min_cluster_size g Hu Ht Hlab)
    as [groups [outs [g' [Em [Er [Hne [Hp Hr]]]]]]].
  exists groups, outs, g'. repeat (split; [assumption|]).
  split; [|split; [|split; [|split]]].
  - rewrite <- length_concat_sum, (Permutation_length Hp). apply length_map.
  - exact Hr.
  - intros x Hx. eapply Permutation_in; [exact Hp|].
    eapply resolved_concat_incl; eassumption.
  - intros Hnd. eapply resolved_concat_NoDup; [exact Hr|].
    eapply Permutation_NoDup; [symmetry; exact Hp|exact Hnd].
  - intros allow_indels Hs. specialize (Ht allow_indels Hs).
    rewrite trie_clusters_groups. split.
    + apply List.Forall_forall. intros c Hc.
      apply in_map_iff in Hc as [grp [<- _]]. reflexivity.
    + rewrite map_map. simpl. rewrite <- length_concat_sum.
      rewrite (Permutation_length
                 (trie_groups_cover molecular_barcodes allowed_mismatches
                                    allow_indels Ht)).
      apply length_map.
Qed.

Lemma uniform_Forall {Read : Type} (x : string * Read)
    (l : list (string * Read)) :
  Forall (fun r => String.length r.1 = String.length x.1) l -> uniform (x :: l).
Proof. apply uniform_cons. Qed.

Lemma representatives_of_partition_witness :
  let mbs := [("AAAA", 1); ("AAAA", 2); ("AAAT", 3); ("TTTT", 4)]%string%nat in
  uniform mbs
  /\ 0 <= 1
  /\ exists groups outs g',
       membership Agglomerative.linkage Agglomerative.fcluster
                  (Hierarchical "single") mbs 1 = Ok groups
       /\ run Agglomerative.linkage Agglomerative.fcluster
              (Hierarchical "single") mbs 1 2 (fun n => n)
          = Ok (concat outs, g')
       /\ Permutation (concat groups) (map snd mbs)
       /\ List.NoDup (concat outs).
Proof.
  intros mbs.
  assert (Hu : uniform mbs) by (apply uniform_Forall; repeat constructor).
  assert (Ht : 0 <= 1) by lia.
  split; [exact Hu|]. split; [exact Ht|].
  destruct (representatives_of_partition Agglomerative.linkage
              Agglomerative.fcluster (Hierarchical "single") mbs 1 2
              (fun n => n) (fun _ => Hu) (fun _ _ => Ht))
    as [groups [outs [g' [Em [Er [_ [Hp [_ [_ [_ [Hnd _]]]]]]]]]]].
  - intros method [= <-] _. vm_compute. reflexivity.
  - exists groups, outs, g'. repeat (split; [assumption|]).
    apply Hnd. simpl. repeat constructor; simpl; intuition lia.
Defined.

(** C2, as stated, fails on an input that holds one read twice: on two
    records with the barcode AAAA and the same read, a minimum cluster size
    of 3 makes the naive strategy return both, so the read is returned
    twice. *)
Lemma duplicate_read_counterexample :
  countMolecularBarcodesClustersNaive
    [("AAAA", 7); ("AAAA", 7)]%string%nat 0 3 (fun n => n)
  = Ok ([7; 7]%nat, fun n => n)
  /\ ~ List.NoDup [7; 7]%nat.
Proof.
  split; [vm_compute; reflexivity|].
  intros H. apply NoDup_cons_iff in H as [H _]. apply H. now left.
Qed.

(** ** Thresholds *)

Lemma sublist_map {A B : Type} (f : A -> B) (l1 l2 : list A) :
  l1 `sublist_of` l2 -> map f l1 `sublist_of` map f l2.
Proof. induction 1; simpl; now constructor. Qed.

Lemma filter_sublist_impl {A : Type} (p q : A -> bool) (l : list A) :
  (forall x, In x l -> p x = true -> q x = true) ->
  List.filter p l `sublist_of` List.filter q l.
Proof.
  induction l as [|x l IH]; intros H; simpl; [constructor|].
  assert (IH' : List.filter p l `sublist_of` List.filter q l)
    by (apply IH; intros y Hy; apply H; now right).
  destruct (p x) eqn:Px.
  - rewrite (H x (or_introl eq_refl) Px). now constructor.
  - destruct (q x); [now constructor|exact IH'].
Qed.

Lemma reads_with_labelled_from (labels : list nat) (a : nat) :
  forall s,
    reads_with (map (fun e : nat * nat => (e.2, e.1)) (enumerate_from s labels)) a
    = List.filter (fun i => bool_decide (labels !! (i - s)%nat = Some a))
                  (seq s (length labels)).
Proof.
  unfold reads_with. induction labels as [|b labels IH]; intros s; [reflexivity|].
  simpl. rewrite Nat.sub_diag. simpl.
  assert (Htail : map snd
            (List.filter (fun r : nat * nat => bool_decide (r.1 = a))
               (map (fun e : nat * nat => (e.2, e.1))
                    (enumerate_from (S s) labels)))
          = List.filter
              (fun i => bool_decide ((b :: labels) !! (i - s)%nat = Some a))
              (seq (S s) (length labels))).
  { rewrite IH. apply filter_ext_in. intros i Hi. apply in_seq in Hi.
    replace (i - s)%nat with (S (i - S s)) by lia. reflexivity. }
  destruct (decide (b = a)) as [->|Hne].
  - rewrite !bool_decide_eq_true_2 by reflexivity. simpl. now rewrite Htail.
  - rewrite !bool_decide_eq_false_2 by congruence. exact Htail.
Qed.

Lemma reads_with_labelled_filter (labels : list nat) (a : nat) :
  reads_with (labelled labels) a
  = List.filter (fun i => bool_decide (labels !! i = Some a))
                (seq 0 (length labels)).
Proof.
  unfold labelled, enumerate. rewrite reads_with_labelled_from.
  apply filter_ext. intros i. now rewrite Nat.sub_0_r.
Qed.

Section Monotone.
Context {Read Dendrogram : Type}.
Context (linkage : list nat -> string -> Dendrogram).
Context (fcluster : Dendrogram -> Z -> list nat).

Local Abbreviation record := (string * Read)%type.
Local Abbreviation by_barcode := (fun x y : record => str_le x.1 y.1).

Lemma linked_mono (t1 t2 : Z) (x y : record) :
  t1 <= t2 -> linked t1 x y = true -> linked t2 x y = true.
Proof. unfold linked, close. rewrite !Z.leb_le. lia. Qed.

Lemma naive_groups_mono (mbs : list record) (t1 t2 : Z) :
  t1 <= t2 ->
  forall c,
    In c (map (map snd) (chain (linked t1) (sorted by_barcode mbs))) ->
    exists c',
      In c' (map (map snd) (chain (linked t2) (sorted by_barcode mbs)))
      /\ c `sublist_of` c'.
Proof.
  intros Ht c Hc. apply in_map_iff in Hc as [c0 [<- Hc0]].
  destruct (chain_refines (linked t1) (linked t2) (sorted by_barcode mbs)
              (fun a b => linked_mono t1 t2 a b Ht) c0 Hc0)
    as [front [back Hin]].
  exists (map snd (front ++ c0 ++ back)). split; [now apply in_map|].
  apply sublist_map, sublist_inserts_l, sublist_inserts_r. reflexivity.
Qed.

Lemma hier_groups_mono (mbs : list record) (r0 : record)
    (labels1 labels2 : list nat) :
  length labels1 = length mbs ->
  length labels2 = length mbs ->
  (forall i j a, labels1 !! i = Some a -> labels1 !! j = Some a ->
                 labels2 !! i = labels2 !! j) ->
  forall c,
    In c (map (map snd)
            (map (fun item : nat * list nat =>
                    map (fun i => nth i mbs r0) item.2)
                 (iteritems (reads_map ∅ (labelled labels1))))) ->
    exists c',
      In c' (map (map snd)
               (map (fun item : nat * list nat =>
                       map (fun i => nth i mbs r0) item.2)
                    (iteritems (reads_map ∅ (labelled labels2)))))
      /\ c `sublist_of` c'.
Proof.
  intros Hl1 Hl2 Hnest c Hc. rewrite map_map in Hc |- *.
  apply in_map_iff in Hc as [[a idxs] [<- Hin]]. apply iteritems_In in Hin.
  destruct (items_lookup _ _ _ Hin) as [-> [Ha Hne]].
  assert (Hex : exists i0, labels1 !! i0 = Some a).
  { destruct (reads_with (labelled labels1) a) as [|i0 rest] eqn:E;
      [contradiction|].
    exists i0. apply reads_with_labelled. rewrite E. now left. }
  destruct Hex as [i0 Hi0].
  assert (Hlt : (i0 < length labels2)%nat)
    by (rewrite Hl2, <- Hl1; eapply lookup_lt_Some; exact Hi0).
  destruct (lookup_lt_is_Some_2 labels2 i0 Hlt) as [b Hb].
  exists (map snd (map (fun i => nth i mbs r0) (reads_with (labelled labels2) b))).
  split.
  - apply in_map_iff. exists (b, reads_with (labelled labels2) b).
    split; [reflexivity|]. apply iteritems_In, items_lookup_label.
    apply list_elem_of_In. eapply list_elem_of_lookup_2. exact Hb.
  - cbn [snd]. apply sublist_map, sublist_map.
    rewrite !reads_with_labelled_filter, Hl1, Hl2.
    apply filter_sublist_impl. intros i _ Hi.
    apply bool_decide_eq_true_1 in Hi. apply bool_decide_eq_true_2.
    now rewrite (Hnest i i0 a Hi Hi0).
Qed.
End Monotone.

(** C7, as amended.  For the naive and the hierarchical strategy, on
    records whose barcodes have one length, raising the threshold only
    merges clusters: every cluster formed at the lower threshold is
    contained, in order, in a cluster formed at the higher one, and so is
    not larger.  For the hierarchical strategy on more than two records
    this rests on the library cutting one dendrogram at both thresholds:
    one label per record, and records with one label at the lower threshold
    have one label at the higher.  The trie strategy is left out. *)
Theorem clusters_only_merge {Read Dendrogram : Type}
    (linkage : list nat -> string -> Dendrogram)
    (fcluster : Dendrogram -> Z -> list nat)
    (s : strategy) (molecular_barcodes : list (string * Read)) (t1 t2 : Z) :
  (forall allow_indels, s <> Prefixtrie allow_indels) ->
  uniform molecular_barcodes ->
  t1 <= t2 ->
  (forall method, s = Hierarchical method ->
     (2 < length molecular_barcodes)%nat ->
     let labels1 := flat_labels linkage fcluster molecular_barcodes t1 method in
     let labels2 := flat_labels linkage fcluster molecular_barcodes t2 method in
     length labels1 = length molecular_barcodes
     /\ length labels2 = length molecular_barcodes
     /\ forall i j a, labels1 !! i = Some a -> labels1 !! j = Some a ->
                      labels2 !! i = labels2 !! j) ->
  exists groups1 groups2,
    membership linkage fcluster s molecular_barcodes t1 = Ok groups1
    /\ membership linkage fcluster s molecular_barcodes t2 = Ok groups2
    /\ forall c, In c groups1 ->
         exists c', In c' groups2 /\ c `sublist_of` c'
                    /\ (length c <= length c')%nat.
Proof.
  intros Hs Hu Ht Hlib.
  assert (Hnaive : exists groups1 groups2,
    membership linkage fcluster Naive molecular_barcodes t1 = Ok groups1
    /\ membership linkage fcluster Naive molecular_barcodes t2 = Ok groups2
    /\ forall c, In c groups1 ->
         exists c', In c' groups2 /\ c `sublist_of` c'
                    /\ (length c <= length c')%nat).
  { eexists _, _. rewrite !naive_membership by exact Hu.
    split; [reflexivity|]. split; [reflexivity|]. intros c Hc.
    destruct (naive_groups_mono molecular_barcodes t1 t2 Ht c Hc)
      as [c' [Hin Hsub]].
    exists c'. split; [exact Hin|]. split; [exact Hsub|].
    now apply sublist_length. }
  destruct s as [|indels|method].
  - exact Hnaive.
  - now destruct (Hs indels).
  - destruct (le_lt_dec (length molecular_barcodes) 2) as [Hn|Hn].
    + unfold membership, hier_clusters in *.
      now rewrite (proj2 (Nat.leb_le _ _) Hn).
    + destruct (Hlib method eq_refl Hn) as [Hl1 [Hl2 Hnest]].
      destruct molecular_barcodes as [|r0 mbs']; [simpl in Hn; lia|].
      set (mbs := r0 :: mbs') in *.
      eexists _, _. unfold membership.
      rewrite (hier_clusters_eq linkage fcluster mbs t1 method r0 Hu Hn Hl1),
              (hier_clusters_eq linkage fcluster mbs t2 method r0 Hu Hn Hl2).
      rewrite !bind_Ok.
      split; [reflexivity|]. split; [reflexivity|]. intros c Hc.
      destruct (hier_groups_mono mbs r0 _ _ Hl1 Hl2 Hnest c Hc)
        as [c' [Hin Hsub]].
      exists c'. split; [exact Hin|]. split; [exact Hsub|].
      now apply sublist_length.
Qed.

Lemma clusters_only_merge_witness :
  let mbs := [("AAAA", 1); ("AATT", 2); ("ATTT", 3)]%string%nat in
  uniform mbs
  /\ 1 <= 2
  /\ exists groups1 groups2,
       membership Agglomerative.linkage Agglomerative.fcluster
                  (Hierarchical "single") mbs 1 = Ok groups1
       /\ membership Agglomerative.linkage Agglomerative.fcluster
                     (Hierarchical "single") mbs 2 = Ok groups2
       /\ forall c, In c groups1 ->
            exists c', In c' groups2 /\ c `sublist_of` c'
                       /\ (length c <= length c')%nat.
Proof.
  intros mbs.
  assert (Hu : uniform mbs) by (apply uniform_Forall; repeat constructor).
  assert (Ht : 1 <= 2) by lia.
  split; [exact Hu|]. split; [exact Ht|].
  apply (clusters_only_merge Agglomerative.linkage Agglomerative.fcluster
           (Hierarchical "single") mbs 1 2); [discriminate|exact Hu|exact Ht|].
  intros method [= <-] _. cbv zeta.
  assert (E1 : flat_labels Agglomerative.linkage Agglomerative.fcluster mbs 1
                           "single" = [1; 2; 2]%nat)
    by (vm_compute; reflexivity).
  assert (E2 : flat_labels Agglomerative.linkage Agglomerative.fcluster mbs 2
                           "single" = [1; 1; 1]%nat)
    by (vm_compute; reflexivity).
  rewrite E1, E2. split; [reflexivity|]. split; [reflexivity|].
  intros [|[|[|i]]] [|[|[|j]]] a; simpl; rewrite ?lookup_nil; congruence.
Defined.

(** C7, as stated, fails for the trie strategy: with the barcodes AAAA,
    AATT, ATTT in this order, one allowed mismatch gives the clusters
    {1}, {2, 3}, and two allowed mismatches give {1, 2}, {3}: the cluster
    {2, 3} of the lower threshold is in no cluster of the higher one. *)
Lemma trie_not_monotone :
  let mbs := [("AAAA", 1); ("AATT", 2); ("ATTT", 3)]%string%nat in
  trie_clusters mbs 1 false = [(1, [1]); (2, [2; 3]); (0, [])]%nat
  /\ trie_clusters mbs 2 false = [(2, [1; 2]); (1, [3]); (0, [])]%nat
  /\ 1 <= 2
  /\ ~ exists c', In c' [[1; 2]; [3]; []]%nat /\ incl [2; 3]%nat c'.
Proof.
  split; [vm_compute; reflexivity|]. split; [vm_compute; reflexivity|].
  split; [lia|]. intros [c' [Hin Hincl]].
  assert (H2 : In 2%nat c') by (apply Hincl; now left).
  assert (H3 : In 3%nat c') by (apply Hincl; right; now left).
  simpl in Hin. destruct Hin as [<-|[<-|[<-|[]]]]; simpl in *; intuition lia.
Qed.

(** ** Clusters of records and clusters of barcodes *)

Lemma uniq_cons_cons (a b : string) (l : list string) :
  uniq (a :: b :: l) = if String.eqb a b then uniq (b :: l) else a :: uniq (b :: l).
Proof. reflexivity. Qed.

Lemma uniq_cons_inv (a : string) (l : list string) :
  exists ks, uniq (a :: l) = a :: ks.
Proof.
  revert a. induction l as [|b l IH]; intros a; [now exists []|].
  rewrite uniq_cons_cons. destruct (String.eqb_spec a b) as [->|_]; eauto.
Qed.

Lemma uniq_In (l : list string) (k : string) : In k (uniq l) <-> In k l.
Proof.
  induction l as [|a [|b l] IH]; [reflexivity|reflexivity|].
  rewrite uniq_cons_cons. destruct (String.eqb_spec a b) as [->|_].
  - rewrite IH. simpl. tauto.
  - simpl in *. rewrite IH. tauto.
Qed.

Lemma sorted_head_notin (a b : string) (l : list string) :
  StronglySorted (fun x y => str_le x y = true) (a :: b :: l) ->
  a <> b -> ~ In a (b :: l).
Proof.
  intros Hs Hab Hin. apply StronglySorted_inv in Hs as [Hs Ha].
  apply StronglySorted_inv in Hs as [_ Hb].
  rewrite List.Forall_forall in Ha, Hb.
  destruct Hin as [->|Hin]; [contradiction|].
  apply Hab. apply str_le_antisym; [apply Ha; now left|now apply Hb].
Qed.

Lemma uniq_NoDup (l : list string) :
  StronglySorted (fun x y => str_le x y = true) l -> List.NoDup (uniq l).
Proof.
  induction l as [|a [|b l] IH]; intros Hs.
  - constructor.
  - repeat constructor. intros [].
  - rewrite uniq_cons_cons.
    pose proof (proj1 (StronglySorted_inv Hs)) as Hs'.
    destruct (String.eqb_spec a b) as [->|Hne]; [now apply IH|].
    constructor; [|now apply IH].
    rewrite uniq_In. now apply sorted_head_notin.
Qed.

Lemma has_barcode_In {Read : Type} (B : list string) (r : string * Read) :
  has_barcode B r = true <-> In r.1 B.
Proof.
  unfold has_barcode. rewrite existsb_exists. split.
  - intros [k [Hk E]]. apply String.eqb_eq in E. now subst.
  - intros Hin. exists r.1. split; [exact Hin|apply String.eqb_refl].
Qed.

Lemma has_barcode_notin {Read : Type} (B : list string) (r : string * Read) :
  ~ In r.1 B -> has_barcode B r = false.
Proof.
  intros Hn. destruct (has_barcode B r) eqn:E; [|reflexivity].
  apply has_barcode_In in E. contradiction.
Qed.

Section Canonical.
Context {Read : Type}.

Local Abbreviation record := (string * Read)%type.
Local Abbreviation by_barcode := (fun x y : record => str_le x.1 y.1).

Lemma sorted_barcodes (s : list record) :
  StronglySorted (fun x y => by_barcode x y = true) s ->
  StronglySorted (fun a b => str_le a b = true) (map fst s).
Proof.
  induction 1 as [|x s Hs IH Hx]; simpl; constructor; [exact IH|].
  apply List.Forall_forall. intros k Hk. apply in_map_iff in Hk as [y [<- Hy]].
  rewrite List.Forall_forall in Hx. now apply Hx.
Qed.

Lemma filter_has_barcode_skip (B : list string) (x : record) (s : list record) :
  ~ In x.1 B ->
  List.filter (has_barcode B) (x :: s) = List.filter (has_barcode B) s.
Proof. intros Hn. simpl. now rewrite has_barcode_notin. Qed.

Lemma filter_has_barcode_keep (B : list string) (x : record) (s : list record) :
  In x.1 B ->
  List.filter (has_barcode B) (x :: s) = x :: List.filter (has_barcode B) s.
Proof. intros Hin. simpl. now rewrite (proj2 (has_barcode_In B x) Hin). Qed.

Lemma filter_has_barcode_cons (k : string) (B : list string) (s : list record) :
  ~ In k (map fst s) ->
  List.filter (has_barcode (k :: B)) s = List.filter (has_barcode B) s.
Proof.
  intros Hn. apply filter_ext_in. intros r Hr. unfold has_barcode. simpl.
  destruct (String.eqb_spec r.1 k) as [E|_]; [|reflexivity].
  exfalso. apply Hn. rewrite <- E. now apply in_map.
Qed.

(** The chains of sorted records are the records of the chains of their
    distinct barcodes, when records with one barcode are linked. *)
Lemma chain_by_barcode (link : record -> record -> bool)
    (linkb : string -> string -> bool) (s : list record) :
  (forall x y, link x y = linkb x.1 y.1) ->
  (forall b, In b (map fst s) -> linkb b b = true) ->
  StronglySorted (fun x y => by_barcode x y = true) s ->
  chain link s
  = map (fun B => List.filter (has_barcode B) s)
        (chain linkb (uniq (map fst s))).
Proof.
  intros Hlink. induction s as [|x [|y s] IH]; intros Hrefl Hs.
  - reflexivity.
  - simpl. unfold has_barcode. simpl. now rewrite String.eqb_refl.
  - pose proof (sorted_barcodes _ Hs) as Hk.
    pose proof (proj1 (StronglySorted_inv Hs)) as Hs'.
    pose proof (sorted_barcodes _ Hs') as Hk'.
    specialize (IH (fun b Hb => Hrefl b (or_intror Hb)) Hs').
    rewrite chain_cons_cons, IH. change (map fst (x :: y :: s))
      with (x.1 :: map fst (y :: s)).
    change (map fst (y :: s)) with (y.1 :: map fst s) in *.
    rewrite uniq_cons_cons.
    destruct (uniq_cons_inv y.1 (map fst s)) as [ks Eks].
    pose proof (uniq_NoDup _ Hk') as Hnd.
    destruct (chain_cons_inv linkb y.1 ks) as [h [Bs EB]].
    assert (Hsub : forall B k, In B ((y.1 :: h) :: Bs) -> In k B ->
                               In k (y.1 :: map fst s)).
    { intros B k HB Hin. apply (uniq_In (y.1 :: map fst s)).
      rewrite Eks, <- (concat_chain linkb (y.1 :: ks)), EB.
      apply in_concat. eauto. }
    assert (Hdisj : forall B, In B Bs -> ~ In y.1 B).
    { intros B HB Hin. rewrite Eks in Hnd.
      rewrite <- (concat_chain linkb (y.1 :: ks)), EB in Hnd.
      simpl in Hnd. apply NoDup_cons_iff in Hnd as [Hnd _].
      apply Hnd. apply in_app_iff. right. apply in_concat. eauto. }
    rewrite Eks, EB. cbn [map].
    destruct (String.eqb_spec x.1 y.1) as [Exy|Hxy].
    + rewrite Hlink, Exy, Hrefl by (right; now left).
      rewrite EB. cbn [map].
      rewrite (filter_has_barcode_keep (y.1 :: h) x) by (rewrite Exy; now left).
      f_equal. apply map_ext_in. intros B HB.
      symmetry. apply filter_has_barcode_skip.
      rewrite Exy. now apply Hdisj.
    + assert (Hx : ~ In x.1 (y.1 :: map fst s))
        by now apply sorted_head_notin.
      assert (Hskip : forall B, In B ((y.1 :: h) :: Bs) ->
                List.filter (has_barcode B) (x :: y :: s)
                = List.filter (has_barcode B) (y :: s)).
      { intros B HB. apply filter_has_barcode_skip.
        intros Hin. apply Hx. eapply Hsub; eassumption. }
      rewrite chain_cons_cons, EB, Hlink.
      destruct (linkb x.1 y.1); cbn [map].
      * rewrite (filter_has_barcode_keep (x.1 :: y.1 :: h) x) by now left.
        rewrite (filter_has_barcode_cons x.1) by exact Hx.
        f_equal. apply map_ext_in. intros B HB. symmetry. apply Hskip. now right.
      * rewrite (filter_has_barcode_keep [x.1] x) by now left.
        rewrite (filter_none (has_barcode [x.1]) (y :: s)).
        -- f_equal. rewrite (Hskip (y.1 :: h)) by now left.
           f_equal. apply map_ext_in. intros B HB. symmetry. apply Hskip. now right.
        -- intros r Hr. apply has_barcode_notin. intros [E|[]].
           apply Hx. rewrite E.
           change (In r.1 (map fst (y :: s))). now apply in_map.
Qed.
End Canonical.

(** ** The order of the input *)

Lemma chain_unlinked {A : Type} (link : A -> A -> bool) (l : list A) :
  (forall a b, link a b = false) -> chain link l = map (fun x => [x]) l.
Proof.
  intros H. induction l as [|x [|y l] IH]; try reflexivity.
  rewrite chain_cons_cons, IH, H. reflexivity.
Qed.

Lemma same_membership_length {X : Type} (gs gs' : list (list X)) :
  same_membership gs gs' -> length gs = length gs'.
Proof.
  intros [gs'' [P F]]. rewrite (Permutation_length P).
  clear P. induction F; simpl; congruence.
Qed.

Section OrderFacts.
Context {Read : Type}.

Local Abbreviation record := (string * Read)%type.
Local Abbreviation by_barcode := (fun x y : record => str_le x.1 y.1).

Lemma by_barcode_total (x y : record) :
  by_barcode x y = true \/ by_barcode y x = true.
Proof. apply str_le_total. Qed.

Lemma by_barcode_trans (x y z : record) :
  by_barcode x y = true -> by_barcode y z = true -> by_barcode x z = true.
Proof. apply str_le_trans. Qed.

Lemma sorted_by_barcode (l : list record) :
  StronglySorted (fun x y => by_barcode x y = true) (sorted by_barcode l).
Proof.
  apply sorted_StronglySorted; [apply by_barcode_total|apply by_barcode_trans].
Qed.

(** The sorted barcodes depend on the barcodes only. *)
Lemma sorted_barcodes_Permutation (l l' : list record) :
  Permutation l l' ->
  map fst (sorted by_barcode l) = map fst (sorted by_barcode l').
Proof.
  intros P. apply sorted_perm_unique with (R := fun a b => str_le a b = true).
  - intros a b _ _. apply str_le_antisym.
  - apply sorted_barcodes, sorted_by_barcode.
  - apply sorted_barcodes, sorted_by_barcode.
  - apply Permutation_map. now rewrite !sorted_Permutation.
Qed.

Lemma uniform_dec (l : list record) : {uniform l} + {~ uniform l}.
Proof.
  destruct l as [|x l].
  - left. intros a b [].
  - destruct (List.Forall_dec (fun r : record => String.length r.1 = String.length x.1)
                (fun r => Nat.eq_dec (String.length r.1) (String.length x.1)) l)
      as [H|H].
    + left. now apply uniform_cons.
    + right. intros Hu. apply H. now apply uniform_cons.
Qed.

Lemma linked_close (t : Z) (x y : record) : linked t x y = close t x.1 y.1.
Proof. reflexivity. Qed.

Lemma close_refl (t : Z) (b : string) : 0 <= t -> close t b b = true.
Proof. intros Ht. unfold close. rewrite mismatches_refl. apply Z.leb_le. lia. Qed.

(** On barcodes of one length and with a non-negative threshold, the
    clusters of the naive strategy are the records of the chains of the
    distinct sorted barcodes. *)
Lemma naive_clusters_canonical (l : list record) (t : Z) :
  uniform l -> 0 <= t ->
  naive_clusters l t
  = Ok (map (fun B => List.filter (has_barcode B) (sorted by_barcode l))
            (chain (close t) (uniq (map fst (sorted by_barcode l))))).
Proof.
  intros Hu Ht. rewrite naive_clusters_uniform by exact Hu. f_equal.
  apply chain_by_barcode.
  - intros x y. apply linked_close.
  - intros b _. now apply close_refl.
  - apply sorted_by_barcode.
Qed.

Lemma naive_clusters_negative (l : list record) (t : Z) :
  uniform l -> t < 0 ->
  naive_clusters l t = Ok (map (fun x => [x]) (sorted by_barcode l)).
Proof.
  intros Hu Ht. rewrite naive_clusters_uniform by exact Hu. f_equal.
  apply chain_unlinked. intros a b. unfold linked, close.
  apply Z.leb_gt. lia.
Qed.

Lemma naive_clusters_Permutation (l l' : list record) (t : Z) :
  Permutation l l' ->
  match naive_clusters l t, naive_clusters l' t with
  | Ok cs, Ok cs' =>
      same_membership cs cs'
      /\ (0 <= t -> Forall2 (@Permutation record) cs cs')
  | Raise e, Raise e' => e = e'
  | _, _ => False
  end.
Proof.
  intros P. destruct (uniform_dec l) as [Hu|Hu].
  - pose proof (uniform_Permutation _ _ P Hu) as Hu'.
    destruct (Z_lt_le_dec t 0) as [Ht|Ht].
    + rewrite !naive_clusters_negative by assumption. split; [|lia].
      exists (map (fun x => [x]) (sorted by_barcode l')). split.
      * apply Permutation_map. now rewrite !sorted_Permutation.
      * clear. induction (sorted by_barcode l'); simpl; constructor; auto.
    + rewrite !naive_clusters_canonical by assumption.
      rewrite (sorted_barcodes_Permutation l l' P).
      assert (F : Forall2 (@Permutation record)
                (map (fun B => List.filter (has_barcode B) (sorted by_barcode l))
                   (chain (close t) (uniq (map fst (sorted by_barcode l')))))
                (map (fun B => List.filter (has_barcode B) (sorted by_barcode l'))
                   (chain (close t) (uniq (map fst (sorted by_barcode l')))))).
      { induction (chain (close t) (uniq (map fst (sorted by_barcode l'))))
          as [|B Bs IH]; simpl; constructor; [|exact IH].
        rewrite !filter_sorted
          by (try apply by_barcode_total; apply by_barcode_trans).
        rewrite !sorted_Permutation.
        (* the records with a barcode of B in the two inputs *)
        clear -P. induction P; simpl.
        - reflexivity.
        - destruct (has_barcode B x); [now constructor|assumption].
        - destruct (has_barcode B x), (has_barcode B y);
            try reflexivity. apply perm_swap.
        - etransitivity; eassumption. }
      split; [|intros _; exact F].
      eexists. split; [reflexivity|exact F].
  - assert (Hu' : ~ uniform l').
    { intros H. apply Hu. eapply uniform_Permutation; [symmetry|]; eassumption. }
    now rewrite !naive_clusters_mismatch.
Qed.
End OrderFacts.

(** C10.  The clusters of the naive strategy do not depend on the order of
    the input: on two record lists that are permutations of each other and
    the same threshold, the strategy fails on both (barcodes of different
    lengths) or forms the same clusters up to the order of clusters and of
    the records inside a cluster; with a non-negative threshold the
    clusters even come in the same order.  The trie strategy is different:
    some permutation of an input changes its clusters. *)
Theorem naive_order_independent {Read : Type}
    (molecular_barcodes molecular_barcodes' : list (string * Read))
    (allowed_mismatches : Z) :
  Permutation molecular_barcodes molecular_barcodes' ->
  match naive_clusters molecular_barcodes allowed_mismatches,
        naive_clusters molecular_barcodes' allowed_mismatches with
  | Ok cs, Ok cs' =>
      same_membership cs cs'
      /\ (0 <= allowed_mismatches ->
          Forall2 (@Permutation (string * Read)) cs cs')
  | Raise e, Raise e' => e = e'
  | _, _ => False
  end
  /\ exists (a b : list (string * nat)),
       Permutation a b
       /\ ~ same_membership
            (List.filter nonempty (map snd (trie_clusters a 1 false)))
            (List.filter nonempty (map snd (trie_clusters b 1 false))).
Proof.
  intros P. split; [now apply naive_clusters_Permutation|].
  exists [("AAAA", 1); ("AAAT", 2); ("AATT", 3)]%string%nat,
         [("AAAT", 2); ("AAAA", 1); ("AATT", 3)]%string%nat.
  split; [apply perm_swap|].
  intros H. apply same_membership_length in H. vm_compute in H. discriminate.
Qed.

Lemma naive_order_independent_witness :
  let a := [("AAAA", 1); ("AAAT", 2); ("TTTT", 3)]%string%nat in
  let b := [("TTTT", 3); ("AAAT", 2); ("AAAA", 1)]%string%nat in
  Permutation a b
  /\ match naive_clusters a 1, naive_clusters b 1 with
     | Ok cs, Ok cs' =>
         same_membership cs cs'
         /\ (0 <= 1 -> Forall2 (@Permutation (string * nat)) cs cs')
     | Raise e, Raise e' => e = e'
     | _, _ => False
     end.
Proof.
  intros a b.
  assert (P : Permutation a b).
  { unfold a, b. apply Permutation_rev with (l := a). }
  split; [exact P|].
  exact (proj1 (naive_order_independent a b 1 P)).
Defined.

(** ** Threshold 0 *)

Lemma filter_Permutation {A : Type} (p : A -> bool) (l l' : list A) :
  Permutation l l' -> Permutation (List.filter p l) (List.filter p l').
Proof.
  induction 1 as [|x l l' _ IH|x y l|l l' l'' _ IH1 _ IH2]; simpl.
  - reflexivity.
  - destruct (p x); [now constructor|assumption].
  - destruct (p x), (p y); try reflexivity. apply perm_swap.
  - etransitivity; eassumption.
Qed.

Lemma chain_distinct {A : Type} (link : A -> A -> bool) (l : list A) :
  List.NoDup l ->
  (forall a b, In a l -> In b l -> a <> b -> link a b = false) ->
  chain link l = map (fun x => [x]) l.
Proof.
  induction l as [|x [|y l] IH]; intros Hnd H; try reflexivity.
  apply NoDup_cons_iff in Hnd as [Hx Hnd].
  rewrite chain_cons_cons, IH, H; try (now left); try (right; now left).
  - reflexivity.
  - intros ->. apply Hx. now left.
  - exact Hnd.
  - intros a b Ha Hb. apply H; now right.
Qed.

Lemma filter_unique (f : string -> bool) (q : string) (l : list string) :
  List.NoDup l ->
  (forall k, f k = true <-> q = k) ->
  List.filter f l = if in_dec string_dec q l then [q] else [].
Proof.
  intros Hnd Hf. induction l as [|a l IH]; [reflexivity|].
  apply NoDup_cons_iff in Hnd as [Ha Hnd]. simpl. rewrite (IH Hnd).
  destruct (f a) eqn:E.
  - apply Hf in E. subst a.
    destruct (string_dec q q); [|contradiction].
    now destruct (in_dec string_dec q l).
  - destruct (string_dec a q) as [->|Hne].
    + assert (f q = true) by now apply Hf. congruence.
    + now destruct (in_dec string_dec q l).
Qed.

Section ExactGroups.
Context {Read : Type}.

Local Abbreviation record := (string * Read)%type.
Local Abbreviation by_barcode := (fun x y : record => str_le x.1 y.1).

Lemma reads_with_Permutation (mbs mbs' : list record) (k : string) :
  Permutation mbs mbs' -> Permutation (reads_with mbs k) (reads_with mbs' k).
Proof. intros P. unfold reads_with. now apply Permutation_map, filter_Permutation. Qed.

Lemma exact_groups_of (mbs : list record) (ks : list string) :
  List.NoDup ks ->
  (forall k, In k ks <-> In k (map fst mbs)) ->
  Permutation (map (reads_with mbs) ks) (exact_groups mbs).
Proof.
  intros Hnd Hin. unfold exact_groups. apply Permutation_map.
  apply Permutation.NoDup_Permutation; [exact Hnd|apply NoDup_nodup|].
  intros k. now rewrite Hin, nodup_In.
Qed.

(** Exact-match grouping does not depend on the order of the records. *)
Lemma exact_groups_Permutation (mbs mbs' : list record) :
  Permutation mbs mbs' ->
  same_membership (exact_groups mbs) (exact_groups mbs').
Proof.
  intros P.
  exists (map (reads_with mbs) (nodup string_dec (map fst mbs'))). split.
  - symmetry. apply exact_groups_of; [apply NoDup_nodup|].
    intros k. rewrite nodup_In. split; apply Permutation_in.
    + symmetry. now apply Permutation_map.
    + now apply Permutation_map.
  - unfold exact_groups.
    induction (nodup string_dec (map fst mbs')) as [|k ks IH]; simpl;
      constructor; [|exact IH].
    now apply reads_with_Permutation.
Qed.

(** The stable sort keeps the reads of one barcode in input order. *)
Lemma reads_with_sorted (mbs : list record) (k : string) :
  reads_with (sorted by_barcode mbs) k = reads_with mbs k.
Proof.
  unfold reads_with. f_equal.
  rewrite filter_sorted by (try apply by_barcode_total; apply by_barcode_trans).
  apply sorted_id.
  induction mbs as [|x mbs IH]; simpl; [constructor|].
  case_bool_decide as E; [|exact IH]. constructor; [exact IH|].
  apply List.Forall_forall. intros y Hy. apply filter_In in Hy as [_ Hy].
  apply bool_decide_eq_true_1 in Hy. rewrite E, Hy. apply str_le_refl.
Qed.

Lemma close_zero_distinct (a b : string) :
  String.length a = String.length b -> a <> b -> close 0 a b = false.
Proof.
  intros Hl Hne. unfold close. apply Z.leb_gt.
  destruct (mismatches a b) eqn:E; [|lia].
  exfalso. apply Hne. now apply mismatches_zero.
Qed.

(** At threshold 0 the naive strategy groups the records by barcode. *)
Lemma naive_groups_zero (mbs : list record) :
  uniform mbs ->
  exists ks,
    naive_clusters mbs 0
    = Ok (map (fun k => List.filter (has_barcode [k]) (sorted by_barcode mbs)) ks)
    /\ map (map snd)
           (map (fun k => List.filter (has_barcode [k]) (sorted by_barcode mbs))
                ks)
       = map (reads_with mbs) ks
    /\ List.NoDup ks
    /\ forall k, In k ks <-> In k (map fst mbs).
Proof.
  intros Hu. set (s := sorted by_barcode mbs).
  exists (uniq (map fst s)).
  assert (Hin : forall k, In k (uniq (map fst s)) <-> In k (map fst mbs)).
  { intros k. rewrite uniq_In. split; apply Permutation_in.
    - apply Permutation_map, sorted_Permutation.
    - symmetry. apply Permutation_map, sorted_Permutation. }
  assert (Hnd : List.NoDup (uniq (map fst s))).
  { apply uniq_NoDup, sorted_barcodes, sorted_by_barcode. }
  split; [|split; [|split; assumption]].
  - rewrite naive_clusters_canonical by (auto; lia). fold s.
    rewrite chain_distinct, map_map; [reflexivity|exact Hnd|].
    intros a b Ha Hb Hne. apply close_zero_distinct; [|exact Hne].
    apply Hin in Ha, Hb. apply in_map_iff in Ha as [x [<- Hx]].
    apply in_map_iff in Hb as [y [<- Hy]]. now apply Hu.
  - rewrite map_map. apply map_ext. intros k.
    rewrite <- (reads_with_sorted mbs k). unfold reads_with. fold s.
    f_equal. apply filter_ext. intros r. unfold has_barcode. simpl.
    rewrite orb_false_r.
    destruct (String.eqb_spec r.1 k) as [E|E].
    + now rewrite bool_decide_eq_true_2.
    + now rewrite bool_decide_eq_false_2.
Qed.

(** At threshold 0 a query of the trie finds the barcode itself if it is
    still indexed, and nothing else. *)
Lemma neighbours_zero (indels : bool) (reads : gmap string (list Read))
    (q : string) :
  neighbours 0 indels reads q
  = match reads !! q with
    | Some _ => [q]
    | None => []
    end.
Proof.
  unfold neighbours, CountTrie.find_equal_length_optimized.
  rewrite (filter_unique _ q).
  - destruct (in_dec string_dec q _) as [Hin|Hn].
    + assert (H : In q (neighbours 0 indels reads q)).
      { unfold neighbours, CountTrie.find_equal_length_optimized.
        apply filter_In. split; [exact Hin|]. now apply within_zero. }
      apply neighbours_In in H as [[rs ->] _]. reflexivity.
    + destruct (reads !! q) as [rs|] eqn:E; [|reflexivity].
      exfalso. apply Hn.
      assert (H : In q (neighbours 0 indels reads q)).
      { apply neighbours_In. split; [eauto|]. now apply within_zero. }
      unfold neighbours, CountTrie.find_equal_length_optimized in H.
      now apply filter_In in H.
  - eapply Permutation_NoDup; [symmetry; apply sorted_Permutation|].
    apply NoDup_ListNoDup, (NoDup_fst_map_to_list (length <$> reads)).
  - intros k. apply within_zero.
Qed.

Lemma trie_groups_zero (indels : bool) (mbs : list record) :
  forall reads : gmap string (list Read),
    (forall k rs, reads !! k = Some rs -> rs <> []) ->
    exists ks,
      List.filter nonempty (trie_groups_from 0 indels reads mbs)
      = map (fun k => default [] (reads !! k)) ks
      /\ List.NoDup ks
      /\ forall k, In k ks <-> In k (map fst mbs) /\ is_Some (reads !! k).
Proof.
  induction mbs as [|mb mbs IH]; intros reads Hne.
  - exists []. split; [reflexivity|]. split; [constructor|]. simpl. tauto.
  - simpl trie_groups_from. rewrite neighbours_zero.
    destruct (reads !! mb.1) as [rs|] eqn:E.
    + destruct (IH (delete mb.1 reads)) as [ks [Eks [Hnd Hin]]].
      { intros k rs' Hk. apply lookup_delete_Some in Hk as [_ Hk]. eauto. }
      assert (Hmb : ~ In mb.1 ks).
      { intros H. apply Hin in H as [_ [v Hv]].
        now rewrite lookup_delete_eq in Hv. }
      exists (mb.1 :: ks). split; [|split].
      * unfold gather, remove_all. simpl. rewrite E, app_nil_r. simpl.
        unfold nonempty at 1. destruct rs as [|r rs]; [now elim (Hne _ _ E)|].
        simpl. f_equal. unfold remove_all in Eks. simpl in Eks. rewrite Eks.
        apply map_ext_in. intros k Hk.
        rewrite lookup_delete_ne; [reflexivity|].
        intros Heq. apply Hmb. now rewrite Heq.
      * now constructor.
      * intros k. simpl. rewrite Hin. split.
        -- intros [<-|[Hk [v Hv]]]; [split; [now left|eauto]|].
           apply lookup_delete_Some in Hv as [_ Hv]. split; [now right|eauto].
        -- intros [[<-|Hk] [v Hv]]; [now left|].
           destruct (string_dec mb.1 k) as [->|Hd]; [now left|].
           right. split; [exact Hk|]. exists v.
           now rewrite lookup_delete_ne.
    + destruct (IH reads Hne) as [ks [Eks [Hnd Hin]]].
      exists ks. split; [|split; [exact Hnd|]].
      * unfold gather, remove_all. simpl. exact Eks.
      * intros k. rewrite Hin. simpl. split; [tauto|].
        intros [[<-|Hk] [v Hv]]; [congruence|eauto].
Qed.

(** At threshold 0 the trie strategy groups the records by barcode. *)
Lemma trie_groups_zero_exact (indels : bool) (mbs : list record) :
  exists ks,
    List.filter nonempty (trie_groups_from 0 indels (reads_map ∅ mbs) mbs)
    = map (reads_with mbs) ks
    /\ List.NoDup ks
    /\ forall k, In k ks <-> In k (map fst mbs).
Proof.
  destruct (lockstep_fill mbs (length <$> reads_map ∅ mbs) (reads_map ∅ mbs))
    as [[_ Hne] _].
  { pose proof (trie_fill_reads mbs ∅) as H. now rewrite fmap_empty in H. }
  destruct (trie_groups_zero indels mbs (reads_map ∅ mbs) Hne)
    as [ks [Eks [Hnd Hin]]].
  exists ks. split; [|split; [exact Hnd|]].
  - rewrite Eks. apply map_ext_in. intros k Hk. apply Hin in Hk as [Hk _].
    now rewrite reads_map_lookup_In, lookup_empty by exact Hk.
  - intros k. rewrite Hin. split; [tauto|]. intros Hk. split; [exact Hk|].
    rewrite reads_map_lookup_In by exact Hk. eauto.
Qed.
End ExactGroups.

Lemma filter_map_swap {A B : Type} (g : A -> B) (p : B -> bool) (l : list A) :
  List.filter p (map g l) = map g (List.filter (fun x => p (g x)) l).
Proof.
  induction l as [|x l IH]; simpl; [reflexivity|].
  destruct (p (g x)); simpl; now rewrite IH.
Qed.

Lemma filter_nth_seq {A : Type} (p : A -> bool) (l : list A) (x0 : A) :
  map (fun i => nth i l x0)
      (List.filter (fun i => p (nth i l x0)) (seq 0 (length l)))
  = List.filter p l.
Proof.
  rewrite <- (filter_map_swap (fun i => nth i l x0) p).
  now rewrite map_nth_seq.
Qed.

Lemma NoDup_map_in {A B : Type} (f : A -> B) (l : list A) :
  (forall x y, In x l -> In y l -> f x = f y -> x = y) ->
  List.NoDup l -> List.NoDup (map f l).
Proof.
  intros Hinj. induction 1 as [|x l Hx Hnd IH]; simpl; constructor.
  - intros Hin. apply in_map_iff in Hin as [y [E Hy]].
    assert (y = x) by (apply Hinj; [now right|now left|exact E]).
    subst. contradiction.
  - apply IH. intros a b Ha Hb. apply Hinj; now right.
Qed.

Section HierZero.
Context {Read : Type}.

Local Abbreviation record := (string * Read)%type.

(** When the labels tell the barcodes apart, the flat clusters are the
    groups of records with one barcode. *)
Lemma hier_groups_exact (mbs : list record) (r0 : record) (labels : list nat) :
  length labels = length mbs ->
  (forall i j a b ri rj,
     labels !! i = Some a -> labels !! j = Some b ->
     mbs !! i = Some ri -> mbs !! j = Some rj ->
     (a = b <-> ri.1 = rj.1)) ->
  exists ks,
    map (map snd)
        (map (fun item : nat * list nat => map (fun i => nth i mbs r0) item.2)
             (iteritems (reads_map ∅ (labelled labels))))
    = map (reads_with mbs) ks
    /\ List.NoDup ks
    /\ forall k, In k ks <-> In k (map fst mbs).
Proof.
  intros Hlen Hlab.
  set (items := iteritems (reads_map ∅ (labelled labels))).
  set (key := fun item : nat * list nat => (nth (hd O item.2) mbs r0).1).
  assert (Hnth : forall i, (i < length mbs)%nat -> mbs !! i = Some (nth i mbs r0)).
  { intros i Hi. destruct (lookup_lt_is_Some_2 mbs i Hi) as [r Hr].
    rewrite Hr. f_equal. symmetry. now apply nth_lookup_Some. }
  assert (Hitem : forall item, In item items ->
            labels !! (hd O item.2) = Some item.1
            /\ (hd O item.2 < length mbs)%nat
            /\ item.2 = reads_with (labelled labels) item.1).
  { intros [a idxs] Hin. apply iteritems_In in Hin.
    destruct (items_lookup _ _ _ Hin) as [Hidx [_ Hne]]. cbn [fst snd].
    assert (H0 : labels !! hd O idxs = Some a).
    { apply reads_with_labelled. rewrite <- Hidx.
      destruct idxs; [contradiction|now left]. }
    split; [exact H0|]. split; [|exact Hidx].
    rewrite <- Hlen. eapply lookup_lt_Some. exact H0. }
  assert (Hsame : forall item i, In item items -> (i < length mbs)%nat ->
            (labels !! i = Some item.1 <-> (nth i mbs r0).1 = key item)).
  { intros item i Hin Hi. destruct (Hitem item Hin) as [H0 [Hlt _]].
    assert (Hi' : (i < length labels)%nat) by lia.
    destruct (lookup_lt_is_Some_2 labels i Hi') as [a Ha]. rewrite Ha.
    pose proof (Hlab i (hd O item.2) a item.1 _ _ Ha H0
                  (Hnth i Hi) (Hnth _ Hlt)) as H.
    unfold key. rewrite <- H. split; congruence. }
  exists (map key items). split; [|split].
  - rewrite !map_map. apply map_ext_in. intros item Hin.
    destruct (Hitem item Hin) as [_ [_ Hidx]].
    rewrite Hidx, reads_with_labelled_filter, Hlen, map_map.
    unfold reads_with.
    rewrite <- (filter_nth_seq (fun r : record => bool_decide (r.1 = key item))
                               mbs r0).
    rewrite map_map. f_equal. apply filter_ext_in. intros i Hi.
    apply in_seq in Hi.
    destruct (Hsame item i Hin ltac:(lia)) as [H1 H2].
    case_bool_decide as E.
    + symmetry. apply bool_decide_eq_true_2. auto.
    + symmetry. apply bool_decide_eq_false_2. auto.
  - apply NoDup_map_in.
    + intros [a idxs] [a' idxs'] Hin Hin' Hk.
      destruct (Hitem _ Hin) as [H0 [Hlt _]].
      destruct (Hitem _ Hin') as [H0' [Hlt' _]]. cbn [fst snd] in *.
      assert (a = a').
      { apply (Hlab _ _ a a' _ _ H0 H0' (Hnth _ Hlt) (Hnth _ Hlt')).
        exact Hk. }
      subst a'. apply iteritems_In in Hin, Hin'. congruence.
    + eapply NoDup_map_inv. apply iteritems_NoDup.
  - intros k. split.
    + intros Hk. apply in_map_iff in Hk as [item [<- Hin]].
      destruct (Hitem item Hin) as [_ [Hlt _]].
      unfold key. apply in_map, nth_In. exact Hlt.
    + intros Hk. apply in_map_iff in Hk as [r [<- Hr]].
      apply (In_nth _ _ r0) in Hr as [i [Hi Hr]].
      assert (Hi' : (i < length labels)%nat) by lia.
      destruct (lookup_lt_is_Some_2 labels i Hi') as [a Ha].
      assert (Hin : In (a, reads_with (labelled labels) a) items).
      { apply iteritems_In, items_lookup_label.
        apply list_elem_of_In. eapply list_elem_of_lookup_2. exact Ha. }
      apply in_map_iff. exists (a, reads_with (labelled labels) a).
      split; [|exact Hin].
      symmetry. rewrite <- Hr. now apply (Hsame _ i Hin Hi).
Qed.
End HierZero.

(** ** The cut of the agglomerative dendrogram at height 0 *)

Section PairsFacts.
Context {X : Type}.

Lemma pairs_In (l : list X) (a b : X) :
  In (a, b) (Agglomerative.pairs l) -> In a l /\ In b l.
Proof.
  induction l as [|x l IH]; simpl; [tauto|].
  rewrite in_app_iff, in_map_iff. intros [[y [[= <- <-] Hy]]|H]; [tauto|].
  apply IH in H. tauto.
Qed.

Lemma pairs_split (l : list X) (a b : X) :
  In (a, b) (Agglomerative.pairs l) ->
  exists l1 l2 l3, l = l1 ++ a :: l2 ++ b :: l3.
Proof.
  induction l as [|x l IH]; simpl; [tauto|].
  rewrite in_app_iff, in_map_iff. intros [[y [[= <- <-] Hy]]|H].
  - apply in_split in Hy as [l2 [l3 ->]]. now exists [], l2, l3.
  - destruct (IH H) as [l1 [l2 [l3 ->]]]. now exists (x :: l1), l2, l3.
Qed.

Lemma pairs_both (l : list X) (a b : X) :
  In a l -> In b l -> a <> b ->
  In (a, b) (Agglomerative.pairs l) \/ In (b, a) (Agglomerative.pairs l).
Proof.
  induction l as [|x l IH]; simpl; [tauto|].
  rewrite !in_app_iff, !in_map_iff.
  intros [->|Ha] [->|Hb] Hne.
  - congruence.
  - left. left. eauto.
  - right. left. eauto.
  - destruct (IH Ha Hb Hne); tauto.
Qed.

Lemma pairs_snoc (l : list X) (c a b : X) :
  In (a, b) (Agglomerative.pairs (l ++ [c]))
  <-> In (a, b) (Agglomerative.pairs l) \/ (In a l /\ b = c).
Proof.
  induction l as [|x l IH]; simpl; [tauto|].
  rewrite !in_app_iff, IH, !in_map_iff. split.
  - intros [[y [E Hy]]|[H|[H ->]]]; [|tauto|tauto].
    injection E as -> ->.
    apply in_app_iff in Hy as [Hy|[<-|[]]]; [left; left; eauto|tauto].
  - intros [[[y [E Hy]]|H]|[[<-|H] ->]]; [|tauto| |tauto].
    + injection E as -> ->. left. exists b. split; [reflexivity|].
      apply in_app_iff. tauto.
    + left. exists c. split; [reflexivity|]. apply in_app_iff. simpl. tauto.
Qed.

Lemma pairs_filter (p : X -> bool) (l : list X) (a b : X) :
  In (a, b) (Agglomerative.pairs (List.filter p l)) ->
  In (a, b) (Agglomerative.pairs l).
Proof.
  induction l as [|x l IH]; simpl; [tauto|].
  destruct (p x); simpl; rewrite ?in_app_iff, ?in_map_iff.
  - intros [[y [E Hy]]|H].
    + injection E as -> ->. left. exists b. split; [reflexivity|].
      now apply List.filter_In in Hy.
    + right. now apply IH.
  - intros H. right. now apply IH.
Qed.

Lemma pairs_nil (l : list X) :
  Agglomerative.pairs l = [] -> (length l <= 1)%nat.
Proof.
  destruct l as [|x [|y l]]; simpl; try lia. discriminate.
Qed.
End PairsFacts.

Lemma min_list_In (d0 : nat) (l : list nat) :
  In (fold_right Nat.min d0 l) (d0 :: l).
Proof.
  induction l as [|x l IH]; simpl; [tauto|].
  destruct (Nat.min_spec x (fold_right Nat.min d0 l)) as [[_ ->]|[_ ->]];
    simpl in IH; tauto.
Qed.

Lemma min_list_le (d0 : nat) (l : list nat) (x : nat) :
  In x l -> (fold_right Nat.min d0 l <= x)%nat.
Proof.
  induction l as [|y l IH]; simpl; [tauto|].
  intros [->|H]; [lia|]. specialize (IH H). lia.
Qed.

Lemma max_list_le (l : list nat) (x : nat) :
  In x l -> (x <= fold_right Nat.max O l)%nat.
Proof.
  induction l as [|y l IH]; simpl; [tauto|].
  intros [->|H]; [lia|]. specialize (IH H). lia.
Qed.

Lemma max_list_In (l : list nat) :
  l <> [] -> In (fold_right Nat.max O l) l.
Proof.
  induction l as [|x l IH]; [congruence|]. intros _. cbn [fold_right].
  destruct l as [|y l]; [left; simpl; lia|].
  destruct (Nat.max_spec x (fold_right Nat.max O (y :: l))) as [[_ E]|[_ E]];
    rewrite E; [right; now apply IH|now left].
Qed.

Lemma max_list_zero (l : list nat) :
  Forall (fun x => x = O) l -> fold_right Nat.max O l = O.
Proof. induction 1 as [|x l -> _ IH]; simpl; [reflexivity|exact IH]. Qed.

Section ClosestFacts.
Context (method : string) (dm : list nat).

Local Abbreviation between := (Agglomerative.between method dm).

Lemma closest_fold (ps : list (list nat * list nat)) :
  forall best,
    match best with
    | None => True
    | Some (AB, h) => h = between AB.1 AB.2
    end ->
    match fold_left
            (fun best (AB : list nat * list nat) =>
               let height := between AB.1 AB.2 in
               match best with
               | None => Some (AB, height)
               | Some (_, lowest) =>
                   if (height <? lowest)%nat then Some (AB, height) else best
               end) ps best with
    | None => best = None /\ ps = []
    | Some (AB, h) =>
        h = between AB.1 AB.2
        /\ (In AB ps \/ best = Some (AB, h))
        /\ (forall XY, In XY ps -> h <= between XY.1 XY.2)%nat
        /\ (forall AB' h', best = Some (AB', h') -> h <= h')%nat
    end.
Proof.
  induction ps as [|XY ps IH]; intros best Hb; simpl.
  - destruct best as [[AB h]|]; [|tauto].
    repeat split; auto; [tauto|]. intros AB' h' [= _ ->]. lia.
  - match goal with |- context [fold_left ?f ps ?b] =>
      specialize (IH b); destruct (fold_left f ps b) as [[AB h]|] eqn:E
    end.
    + destruct best as [[AB0 h0]|].
      * destruct (between XY.1 XY.2 <? h0)%nat eqn:El.
        -- apply Nat.ltb_lt in El.
           destruct (IH eq_refl) as (H1 & H2 & H3 & H4).
           split; [exact H1|]. split; [|split].
           ++ destruct H2 as [H2|[= <- <-]]; tauto.
           ++ intros XY' [<-|H]; [|now apply H3].
              now apply (H4 XY _ eq_refl).
           ++ intros AB' h' [= _ <-]. specialize (H4 XY _ eq_refl). lia.
        -- apply Nat.ltb_ge in El.
           destruct (IH Hb) as (H1 & H2 & H3 & H4).
           split; [exact H1|]. split; [|split].
           ++ destruct H2 as [H2|H2]; tauto.
           ++ intros XY' [<-|H]; [|now apply H3].
              specialize (H4 AB0 h0 eq_refl). lia.
           ++ exact H4.
      * destruct (IH eq_refl) as (H1 & H2 & H3 & H4).
        split; [exact H1|]. split; [|split].
        -- destruct H2 as [H2|[= <- <-]]; tauto.
        -- intros XY' [<-|H]; [|now apply H3].
           now apply (H4 XY _ eq_refl).
        -- intros AB' h' [=].
    + destruct best as [[AB0 h0]|].
      * destruct (between XY.1 XY.2 <? h0)%nat;
          [destruct (IH eq_refl) as [[=] _]|destruct (IH Hb) as [[=] _]].
      * destruct (IH eq_refl) as [[=] _].
Qed.

Lemma closest_Some (cs : list (list nat)) (A B : list nat) (h : nat) :
  Agglomerative.closest method dm cs = Some (A, B, h) ->
  In (A, B) (Agglomerative.pairs cs)
  /\ h = between A B
  /\ forall X Y, In (X, Y) (Agglomerative.pairs cs) -> (h <= between X Y)%nat.
Proof.
  unfold Agglomerative.closest. intros E.
  pose proof (closest_fold (Agglomerative.pairs cs) None I) as H.
  cbv zeta in H, E. rewrite E in H. destruct H as (H1 & H2 & H3 & _).
  simpl in H1.
  split; [|split; [exact H1|]].
  - destruct H2 as [H2|[=]]. exact H2.
  - intros X Y HXY. apply (H3 (X, Y) HXY).
Qed.

Lemma closest_None (cs : list (list nat)) :
  Agglomerative.closest method dm cs = None -> (length cs <= 1)%nat.
Proof.
  unfold Agglomerative.closest. intros E.
  pose proof (closest_fold (Agglomerative.pairs cs) None I) as H.
  cbv zeta in H, E. rewrite E in H. destruct H as [_ H]. now apply pairs_nil.
Qed.
End ClosestFacts.

Section CutAtZero.
Context (method : string) (dm : list nat) (n : nat).
Context `{EqDecision K} (key : nat -> K).

(** The distance is 0 between the observations of one key and between no
    others. *)
Hypothesis distance_zero : forall i j, (i < n)%nat -> (j < n)%nat ->
  Agglomerative.distance dm i j = O <-> key i = key j.

Local Abbreviation between := (Agglomerative.between method dm).

(** Clusters of observations. *)
Local Abbreviation sound := (fun cs : list (list nat) =>
  Forall (fun c => c <> [] /\ Forall (fun i => (i < n)%nat) c) cs).
(** Every cluster holds observations of one key. *)
Local Abbreviation pure := (fun cs : list (list nat) =>
  Forall (fun c => forall x y, In x c -> In y c -> key x = key y) cs).
(** Two clusters hold observations of different keys. *)
Local Abbreviation separated := (fun cs : list (list nat) =>
  forall X Y, In (X, Y) (Agglomerative.pairs cs) ->
              forall x y, In x X -> In y Y -> key x <> key y).
(** Every observation is in a cluster. *)
Local Abbreviation covering := (fun cs : list (list nat) =>
  forall i, (i < n)%nat -> exists c, In c cs /\ In i c).

Lemma distances_In (A B : list nat) (v : nat) :
  In v (flat_map (fun a => map (Agglomerative.distance dm a) B) A)
  <-> exists a b, In a A /\ In b B /\ v = Agglomerative.distance dm a b.
Proof.
  rewrite in_flat_map. split.
  - intros [a [Ha Hv]]. apply in_map_iff in Hv as [b [<- Hb]]. eauto.
  - intros [a [b [Ha [Hb ->]]]]. exists a. split; [exact Ha|].
    now apply in_map.
Qed.

Lemma distances_nonempty (A B : list nat) :
  A <> [] -> B <> [] ->
  flat_map (fun a => map (Agglomerative.distance dm a) B) A <> [].
Proof.
  destruct A as [|a A]; [congruence|]. destruct B as [|b B]; [congruence|].
  discriminate.
Qed.

(** The inter-cluster distance is one of the distances between members. *)
Lemma between_In (A B : list nat) :
  A <> [] -> B <> [] ->
  exists a b, In a A /\ In b B /\ between A B = Agglomerative.distance dm a b.
Proof.
  intros HA HB. apply distances_In. unfold Agglomerative.between.
  pose proof (distances_nonempty A B HA HB) as Hne.
  destruct (String.eqb method "complete").
  - now apply max_list_In.
  - destruct (flat_map _ A) as [|d0 ds]; [congruence|]. cbn [hd].
    destruct (min_list_In d0 (d0 :: ds)) as [H|H];
      [rewrite <- H; now left|exact H].
Qed.

(** It is 0 when all the distances between members are. *)
Lemma between_all_zero (A B : list nat) :
  A <> [] -> B <> [] ->
  (forall a b, In a A -> In b B -> Agglomerative.distance dm a b = O) ->
  between A B = O.
Proof.
  intros HA HB H. destruct (between_In A B HA HB) as [a [b [Ha [Hb ->]]]].
  now apply H.
Qed.

(** When it is 0 for the method "complete", or for clusters of one key
    each, all the members have one key. *)
Lemma between_zero (A B : list nat) :
  A <> [] -> B <> [] ->
  Forall (fun i => (i < n)%nat) A -> Forall (fun i => (i < n)%nat) B ->
  (forall x y, In x A -> In y A -> key x = key y) ->
  (forall x y, In x B -> In y B -> key x = key y) ->
  between A B = O ->
  forall a b, In a A -> In b B -> key a = key b.
Proof.
  intros HA HB HnA HnB HpA HpB Hz a b Ha Hb.
  destruct (between_In A B HA HB) as [a0 [b0 [Ha0 [Hb0 E]]]].
  rewrite Hz in E. symmetry in E.
  rewrite List.Forall_forall in HnA, HnB.
  apply distance_zero in E; [|now apply HnA|now apply HnB].
  rewrite (HpA a a0 Ha Ha0), E. now apply HpB.
Qed.

(** It is positive between clusters of different keys. *)
Lemma between_pos (A B : list nat) :
  A <> [] -> B <> [] ->
  Forall (fun i => (i < n)%nat) A -> Forall (fun i => (i < n)%nat) B ->
  (forall a b, In a A -> In b B -> key a <> key b) ->
  (0 < between A B)%nat.
Proof.
  intros HA HB HnA HnB Hs.
  destruct (between_In A B HA HB) as [a [b [Ha [Hb E]]]].
  rewrite List.Forall_forall in HnA, HnB.
  destruct (between A B) as [|h] eqn:Eb; [|lia].
  exfalso. apply (Hs a b Ha Hb). apply distance_zero; auto.
Qed.

(** Clusters of one key each at a positive distance have different
    keys. *)
Lemma between_pos_separate (A B : list nat) :
  A <> [] -> B <> [] ->
  Forall (fun i => (i < n)%nat) A -> Forall (fun i => (i < n)%nat) B ->
  (forall x y, In x A -> In y A -> key x = key y) ->
  (forall x y, In x B -> In y B -> key x = key y) ->
  (0 < between A B)%nat ->
  forall a b, In a A -> In b B -> key a <> key b.
Proof.
  intros HA HB HnA HnB HpA HpB Hpos a b Ha Hb Hk.
  rewrite between_all_zero in Hpos; [lia|exact HA|exact HB|].
  intros a' b' Ha' Hb'. rewrite List.Forall_forall in HnA, HnB.
  apply distance_zero; auto.
  rewrite (HpA a' a Ha' Ha), Hk. now apply HpB.
Qed.

Lemma merge_In (A B : list nat) (cs : list (list nat)) (c : list nat) :
  In c (Agglomerative.merge A B cs)
  <-> (In c cs /\ c <> A /\ c <> B) \/ c = A ++ B.
Proof.
  unfold Agglomerative.merge. rewrite in_app_iff, List.filter_In. simpl.
  rewrite negb_true_iff, orb_false_iff, !bool_decide_eq_false. intuition.
Qed.

Lemma merge_sound (A B : list nat) (cs : list (list nat)) :
  In A cs -> In B cs -> sound cs -> sound (Agglomerative.merge A B cs).
Proof.
  intros HA HB Hs. rewrite List.Forall_forall in *. intros c Hc.
  apply merge_In in Hc as [[Hc _]| ->]; [now apply Hs|].
  destruct (Hs A HA) as [HnA HlA], (Hs B HB) as [HnB HlB]. split.
  - destruct A; [congruence|discriminate].
  - now apply Forall_app.
Qed.

Lemma merge_pure (A B : list nat) (cs : list (list nat)) :
  In A cs -> In B cs -> pure cs ->
  (forall a b, In a A -> In b B -> key a = key b) ->
  pure (Agglomerative.merge A B cs).
Proof.
  intros HA HB Hp Hz. rewrite List.Forall_forall in *. intros c Hc.
  apply merge_In in Hc as [[Hc _]| ->]; [now apply Hp|].
  intros x y Hx Hy. apply in_app_iff in Hx, Hy.
  destruct Hx as [Hx|Hx], Hy as [Hy|Hy].
  - now apply (Hp A HA).
  - now apply Hz.
  - symmetry. now apply Hz.
  - now apply (Hp B HB).
Qed.

Lemma merge_covering (A B : list nat) (cs : list (list nat)) :
  covering cs -> covering (Agglomerative.merge A B cs).
Proof.
  intros Hc i Hi. destruct (Hc i Hi) as [c [Hin Hic]].
  destruct (decide (c = A)) as [->|HnA];
    [exists (A ++ B); split; [apply merge_In; tauto|apply in_app_iff; tauto]|].
  destruct (decide (c = B)) as [->|HnB];
    [exists (A ++ B); split; [apply merge_In; tauto|apply in_app_iff; tauto]|].
  exists c. split; [apply merge_In; tauto|exact Hic].
Qed.

Lemma merge_separated (A B : list nat) (cs : list (list nat)) :
  In A cs -> In B cs -> separated cs ->
  separated (Agglomerative.merge A B cs).
Proof.
  intros HA HB Hs X Y HXY x y Hx Hy. unfold Agglomerative.merge in HXY.
  apply pairs_snoc in HXY as [HXY|[HX ->]].
  - apply pairs_filter in HXY. now apply (Hs X Y HXY).
  - apply List.filter_In in HX as [HX Hne]. simpl in Hne.
    rewrite negb_true_iff, orb_false_iff, !bool_decide_eq_false in Hne.
    destruct Hne as [HnA HnB]. apply in_app_iff in Hy as [Hy|Hy].
    + destruct (pairs_both cs X A HX HA HnA) as [H|H].
      * now apply (Hs X A H).
      * intros E. now apply (Hs A X H y x Hy Hx).
    + destruct (pairs_both cs X B HX HB HnB) as [H|H].
      * now apply (Hs X B H).
      * intros E. now apply (Hs B X H y x Hy Hx).
Qed.

Lemma merge_length (A B : list nat) (cs : list (list nat)) :
  In (A, B) (Agglomerative.pairs cs) ->
  (S (length (Agglomerative.merge A B cs)) <= length cs)%nat.
Proof.
  intros H. apply pairs_split in H as [l1 [l2 [l3 ->]]].
  unfold Agglomerative.merge.
  rewrite List.filter_app. cbn [List.filter].
  rewrite (bool_decide_eq_true_2 (A = A)) by reflexivity. cbn [orb negb].
  rewrite List.filter_app. cbn [List.filter].
  rewrite (bool_decide_eq_true_2 (B = B)) by reflexivity.
  rewrite orb_true_r. cbn [negb].
  rewrite !length_app. cbn [length]. rewrite !length_app. cbn [length].
  match goal with
  | |- context [List.filter ?p l1] =>
      pose proof (List.filter_length_le p l1);
      pose proof (List.filter_length_le p l2);
      pose proof (List.filter_length_le p l3)
  end.
  lia.
Qed.

(** Once the clusters are separated, every merge is at a positive
    distance. *)
Lemma agglomerate_positive (steps : nat) :
  forall cs, sound cs -> separated cs ->
    Forall (fun row : list nat * list nat * nat => (0 < row.2)%nat)
           (Agglomerative.agglomerate method dm steps cs).
Proof.
  induction steps as [|steps IH]; intros cs Hs Hsep; [constructor|].
  cbn [Agglomerative.agglomerate].
  destruct (Agglomerative.closest method dm cs) as [[[A B] h]|] eqn:E;
    [|constructor].
  apply closest_Some in E as (Hin & -> & _).
  destruct (pairs_In cs A B Hin) as [HA HB].
  constructor.
  - cbn [snd]. pose proof Hs as Hs'. rewrite List.Forall_forall in Hs'.
    destruct (Hs' A HA) as [HnA HlA], (Hs' B HB) as [HnB HlB].
    apply between_pos; auto. now apply Hsep.
  - apply IH; [now apply merge_sound|now apply merge_separated].
Qed.

(** The cut at 0 keeps no merge at a positive distance. *)
Lemma cut_positive (merges : list (list nat * list nat * nat)) :
  Forall (fun row : list nat * list nat * nat => (0 < row.2)%nat) merges ->
  forall cs, fold_left (Agglomerative.cut 0) merges cs = cs.
Proof.
  induction 1 as [|[[A B] h] merges Hh _ IH]; intros cs; [reflexivity|].
  cbn [fold_left Agglomerative.cut]. cbn [snd] in Hh.
  replace (Z.of_nat h <=? 0) with false by (symmetry; apply Z.leb_gt; lia).
  cbn [andb]. apply IH.
Qed.

Lemma existsb_cluster (A : list nat) (cs : list (list nat)) :
  In A cs -> existsb (fun C => bool_decide (C = A)) cs = true.
Proof.
  intros H. apply existsb_exists. exists A. split; [exact H|].
  now apply bool_decide_eq_true_2.
Qed.

(** The flat clusters at height 0: every cluster holds the observations of
    one key, and two clusters hold observations of different keys. *)
Lemma cut_zero (steps : nat) :
  forall cs, sound cs -> pure cs -> covering cs ->
    (length cs <= S steps)%nat ->
    let flat := fold_left (Agglomerative.cut 0)
                  (Agglomerative.agglomerate method dm steps cs) cs in
    pure flat /\ covering flat /\ separated flat.
Proof.
  induction steps as [|steps IH]; intros cs Hs Hp Hc Hl; cbv zeta.
  - cbn [Agglomerative.agglomerate fold_left]. split; [exact Hp|].
    split; [exact Hc|]. intros X Y HXY.
    apply pairs_split in HXY as [l1 [l2 [l3 ->]]].
    rewrite !length_app in Hl. cbn [length] in Hl.
    rewrite !length_app in Hl. cbn [length] in Hl. lia.
  - cbn [Agglomerative.agglomerate].
    destruct (Agglomerative.closest method dm cs) as [[[A B] h]|] eqn:E.
    + apply closest_Some in E as (Hin & Eh & Hmin).
      destruct (pairs_In cs A B Hin) as [HA HB].
      pose proof Hs as Hs'. rewrite List.Forall_forall in Hs'.
      pose proof Hp as Hp'. rewrite List.Forall_forall in Hp'.
      destruct (Hs' A HA) as [HnA HlA], (Hs' B HB) as [HnB HlB].
      cbn [fold_left Agglomerative.cut].
      rewrite (existsb_cluster A cs HA), (existsb_cluster B cs HB).
      rewrite !andb_true_r.
      destruct h as [|h].
      * change (Z.of_nat 0 <=? 0) with true. cbv iota.
        apply IH.
        -- now apply merge_sound.
        -- apply merge_pure; auto.
           apply between_zero; auto; [now apply Hp'|now apply Hp'].
        -- now apply merge_covering.
        -- pose proof (merge_length A B cs Hin). lia.
      * replace (Z.of_nat (S h) <=? 0) with false
          by (symmetry; apply Z.leb_gt; lia).
        assert (Hsep : separated cs).
        { intros X Y HXY. destruct (pairs_In cs X Y HXY) as [HX HY].
          destruct (Hs' X HX) as [HnX HlX], (Hs' Y HY) as [HnY HlY].
          apply between_pos_separate; auto;
            [now apply Hp'|now apply Hp'|].
          specialize (Hmin X Y HXY). lia. }
        rewrite cut_positive.
        -- auto.
        -- apply agglomerate_positive;
             [now apply merge_sound|now apply merge_separated].
    + cbn [fold_left]. split; [exact Hp|]. split; [exact Hc|].
      apply closest_None in E. intros X Y HXY.
      apply pairs_split in HXY as [l1 [l2 [l3 ->]]].
      rewrite !length_app in E. cbn [length] in E.
      rewrite !length_app in E. cbn [length] in E. lia.
Qed.
End CutAtZero.

Section Labels.
Context `{EqDecision K} (key : nat -> K).

Lemma existsb_eqb_In (i : nat) (c : list nat) :
  existsb (Nat.eqb i) c = true <-> In i c.
Proof.
  rewrite existsb_exists. split.
  - intros [x [Hx E]]. apply Nat.eqb_eq in E. now subst.
  - intros H. exists i. split; [exact H|apply Nat.eqb_refl].
Qed.

Lemma label_ge (cs : list (list nat)) :
  forall k i, (exists c, In c cs /\ In i c) ->
              (k <= Agglomerative.label cs k i)%nat.
Proof.
  induction cs as [|C cs IH]; intros k i [c [Hc Hi]]; [destruct Hc|].
  cbn [Agglomerative.label].
  destruct (existsb (Nat.eqb i) C) eqn:E; [lia|].
  destruct Hc as [->|Hc].
  - apply existsb_eqb_In in Hi. congruence.
  - specialize (IH (S k) i (ex_intro _ c (conj Hc Hi))). lia.
Qed.

(** Two observations have one label exactly when they have one key. *)
Lemma label_eq (cs : list (list nat)) :
  Forall (fun c => forall x y, In x c -> In y c -> key x = key y) cs ->
  (forall X Y, In (X, Y) (Agglomerative.pairs cs) ->
               forall x y, In x X -> In y Y -> key x <> key y) ->
  forall k i j,
    (exists c, In c cs /\ In i c) -> (exists c, In c cs /\ In j c) ->
    Agglomerative.label cs k i = Agglomerative.label cs k j
    <-> key i = key j.
Proof.
  induction cs as [|C cs IH]; intros Hp Hs k i j Hi Hj;
    [destruct Hi as [c [[] _]]|].
  apply Forall_cons_1 in Hp as [HpC Hp].
  assert (Hs' : forall X Y, In (X, Y) (Agglomerative.pairs cs) ->
                  forall x y, In x X -> In y Y -> key x <> key y).
  { intros X Y HXY. apply Hs. simpl. apply in_app_iff. now right. }
  assert (HsC : forall Y, In Y cs ->
                  forall x y, In x C -> In y Y -> key x <> key y).
  { intros Y HY. apply Hs. simpl. apply in_app_iff. left. now apply in_map. }
  assert (Hrest : forall x, existsb (Nat.eqb x) C = false ->
                    (exists c, In c (C :: cs) /\ In x c) ->
                    exists c, In c cs /\ In x c).
  { intros x E [c [[->|Hc] Hx]]; [|eauto].
    apply existsb_eqb_In in Hx. congruence. }
  cbn [Agglomerative.label].
  destruct (existsb (Nat.eqb i) C) eqn:Ei, (existsb (Nat.eqb j) C) eqn:Ej.
  - apply existsb_eqb_In in Ei, Ej. split; [intros _; now apply HpC|auto].
  - apply existsb_eqb_In in Ei.
    destruct (Hrest j Ej Hj) as [c [Hc Hjc]].
    pose proof (label_ge cs (S k) j (ex_intro _ c (conj Hc Hjc))).
    split; [lia|]. intros E. now elim (HsC c Hc i j Ei Hjc).
  - apply existsb_eqb_In in Ej.
    destruct (Hrest i Ei Hi) as [c [Hc Hic]].
    pose proof (label_ge cs (S k) i (ex_intro _ c (conj Hc Hic))).
    split; [lia|]. intros E. now elim (HsC c Hc j i Ej Hic).
  - apply IH; auto.
Qed.
End Labels.

Lemma singletons_In (n : nat) (c : list nat) :
  In c (Agglomerative.singletons n) <-> exists i, (i < n)%nat /\ c = [i].
Proof.
  unfold Agglomerative.singletons. rewrite in_map_iff. split.
  - intros [i [<- Hi]]. apply in_seq in Hi. exists i. split; [lia|reflexivity].
  - intros [i [Hi ->]]. exists i. split; [reflexivity|]. apply in_seq. lia.
Qed.

Lemma triu_indices_length (n : nat) :
  (2 * length (triu_indices n) = n * (n - 1))%nat.
Proof.
  unfold triu_indices.
  assert (H : forall k, (k <= n)%nat ->
            (2 * length (flat_map
                           (fun i => map (fun j => (i, j))
                                         (seq (S i) (n - S i)))
                           (seq 0 k))
             = k * (2 * n - k - 1))%nat).
  { induction k as [|k IH]; intros Hk; [reflexivity|].
    rewrite seq_S, flat_map_app, length_app. cbn [flat_map plus].
    rewrite app_nil_r, length_map, length_seq.
    specialize (IH ltac:(lia)). nia. }
  rewrite (H n) by lia. nia.
Qed.

Lemma observations_triu (n : nat) (l : list nat) :
  (2 <= n)%nat -> length l = length (triu_indices n) ->
  Agglomerative.observations l = n.
Proof.
  intros Hn Hl. unfold Agglomerative.observations. rewrite Hl.
  pose proof (triu_indices_length n) as Ht.
  set (len := length (triu_indices n)) in *.
  assert (Hdiv : forall m, (m * (m - 1) / 2 =? len)%nat = true
                           <-> (m * (m - 1) = 2 * len)%nat).
  { intros m. rewrite Nat.eqb_eq.
    assert (He : exists q, (m * (m - 1) = 2 * q)%nat).
    { induction m as [|m [q IHq]]; [now exists O|].
      replace (S m - 1)%nat with m by lia.
      destruct m as [|m]; [now exists O|].
      replace (S m - 1)%nat with m in IHq by lia.
      exists (q + S m)%nat. nia. }
    destruct He as [q ->].
    rewrite (Nat.mul_comm 2 q), Nat.div_mul by lia. lia. }
  destruct (List.find _ _) as [m|] eqn:E.
  - apply find_some in E as [Hin E]. apply Hdiv in E. simpl.
    assert (m * (m - 1) = n * (n - 1))%nat by lia.
    destruct (Nat.lt_trichotomy m n) as [H1|[H1|H1]]; [|exact H1|]; nia.
  - exfalso. eapply find_none in E.
    + assert (T : (n * (n - 1) / 2 =? len)%nat = true)
        by (apply Hdiv; lia).
      rewrite T in E. discriminate E.
    + apply in_seq. nia.
Qed.

Lemma find_condensed (f : nat * nat -> nat) (l : list (nat * nat))
    (key : nat * nat) :
  (In key l ->
   List.find (fun e : nat * nat * nat =>
                (e.1.1 =? key.1)%nat && (e.1.2 =? key.2)%nat)
             (combine l (map f l)) = Some (key, f key))
  /\ (~ In key l ->
      List.find (fun e : nat * nat * nat =>
                   (e.1.1 =? key.1)%nat && (e.1.2 =? key.2)%nat)
                (combine l (map f l)) = None).
Proof.
  induction l as [|k l [IH1 IH2]]; [split; [intros []|reflexivity]|].
  cbn [map combine List.find fst snd].
  destruct ((k.1 =? key.1)%nat && (k.2 =? key.2)%nat) eqn:E.
  - apply andb_true_iff in E as [E1 E2]. apply Nat.eqb_eq in E1, E2.
    assert (k = key) by (destruct k, key; simpl in *; congruence). subst k.
    split; [reflexivity|]. intros H. elim H. now left.
  - split.
    + intros [->|H]; [|now apply IH1].
      rewrite !Nat.eqb_refl in E. discriminate E.
    + intros H. apply IH2. intros H'. apply H. now right.
Qed.

Section MatrixDistance.
Context {Read : Type}.

Local Abbreviation record := (string * Read)%type.
Local Abbreviation barcode mbs := (fun i => nth i (map fst mbs) ""%string).

Lemma barcode_length (mbs : list record) (i j : nat) :
  uniform mbs -> (i < length mbs)%nat -> (j < length mbs)%nat ->
  String.length (barcode mbs i) = String.length (barcode mbs j).
Proof.
  intros Hu Hi Hj. destruct mbs as [|r0 mbs']; [simpl in Hi; lia|].
  set (mbs := r0 :: mbs') in *.
  rewrite (nth_indep (map fst mbs) ""%string r0.1),
          (nth_indep (map fst mbs) ""%string r0.1)
    by (rewrite length_map; lia).
  rewrite !map_nth. apply Hu; apply nth_In; lia.
Qed.

Lemma matrix_observations (mbs : list record) :
  (2 <= length mbs)%nat ->
  Agglomerative.observations (distance_matrix mbs) = length mbs.
Proof.
  intros Hn. apply observations_triu; [exact Hn|].
  unfold distance_matrix. apply length_map.
Qed.

Lemma matrix_distance (mbs : list record) (i j : nat) :
  uniform mbs -> (2 <= length mbs)%nat ->
  (i < length mbs)%nat -> (j < length mbs)%nat ->
  Agglomerative.distance (distance_matrix mbs) i j = O
  <-> barcode mbs i = barcode mbs j.
Proof.
  intros Hu Hn Hi Hj. unfold Agglomerative.distance.
  rewrite matrix_observations by exact Hn. unfold distance_matrix.
  destruct (find_condensed
              (fun coord : nat * nat =>
                 mismatches (barcode mbs coord.1) (barcode mbs coord.2))
              (triu_indices (length mbs))
              (if (i <? j)%nat then (i, j) else (j, i))) as [F1 F2].
  destruct (i <? j)%nat eqn:Eij.
  - apply Nat.ltb_lt in Eij.
    rewrite F1 by (apply triu_indices_In; lia).
    cbn [fst snd]. split.
    + apply mismatches_zero. now apply barcode_length.
    + intros ->. apply mismatches_refl.
  - apply Nat.ltb_ge in Eij.
    destruct (Nat.eq_dec i j) as [->|Hne].
    + rewrite F2; [tauto|]. intros H. apply triu_indices_In in H. lia.
    + rewrite F1 by (apply triu_indices_In; lia).
      cbn [fst snd]. split.
      * intros E. symmetry. revert E. apply mismatches_zero.
        now apply barcode_length.
      * intros ->. apply mismatches_refl.
Qed.

(** The labels of the model at height 0: one per record, and two records
    have one label exactly when their barcodes are equal. *)
Lemma agglomerative_labels_zero (mbs : list record) (method : string) :
  uniform mbs -> (2 < length mbs)%nat ->
  let labels :=
    flat_labels Agglomerative.linkage Agglomerative.fcluster mbs 0 method in
  length labels = length mbs
  /\ forall i j a b ri rj,
       labels !! i = Some a -> labels !! j = Some b ->
       mbs !! i = Some ri -> mbs !! j = Some rj ->
       (a = b <-> ri.1 = rj.1).
Proof.
  intros Hu Hn. cbv zeta.
  unfold flat_labels, Agglomerative.linkage, Agglomerative.fcluster.
  rewrite matrix_observations by lia.
  set (n := length mbs). set (dm := distance_matrix mbs).
  set (flat := fold_left (Agglomerative.cut 0) _ _).
  split; [now rewrite length_map, length_seq|].
  destruct (cut_zero method dm n (barcode mbs)
              (fun i j Hi Hj => matrix_distance mbs i j Hu ltac:(lia) Hi Hj)
              (n - 1) (Agglomerative.singletons n))
    as (Hp & Hc & Hs).
  - apply List.Forall_forall. intros c Hc.
    apply singletons_In in Hc as [i [Hi ->]].
    split; [discriminate|]. now repeat constructor.
  - apply List.Forall_forall. intros c Hc.
    apply singletons_In in Hc as [i [Hi ->]].
    intros x y [<-|[]] [<-|[]]. reflexivity.
  - intros i Hi. exists [i]. split; [|now left].
    apply singletons_In. eauto.
  - unfold Agglomerative.singletons. rewrite length_map, length_seq. lia.
  - fold flat in Hp, Hc, Hs.
    intros i j a b ri rj Ha Hb Hri Hrj.
    assert (Hi : (i < n)%nat) by (eapply lookup_lt_Some; exact Hri).
    assert (Hj : (j < n)%nat) by (eapply lookup_lt_Some; exact Hrj).
    assert (Hlab : forall k x, (k < n)%nat ->
              map (Agglomerative.label flat 1) (seq 0 n) !! k = Some x ->
              x = Agglomerative.label flat 1 k).
    { intros k x Hk E. apply (nth_lookup_Some _ _ O) in E. rewrite <- E.
      rewrite (nth_indep _ O (Agglomerative.label flat 1 O))
        by (rewrite length_map, length_seq; exact Hk).
      rewrite map_nth, seq_nth by exact Hk. reflexivity. }
    apply Hlab in Ha, Hb; try assumption. subst a b.
    assert (Hkey : forall k r, mbs !! k = Some r -> barcode mbs k = r.1).
    { intros k r E. pose proof (lookup_lt_Some _ _ _ E) as Hk.
      apply (nth_lookup_Some _ _ r) in E.
      rewrite (nth_indep (map fst mbs) ""%string r.1)
        by (rewrite length_map; exact Hk).
      now rewrite map_nth, E. }
    rewrite <- (Hkey i ri Hri), <- (Hkey j rj Hrj).
    apply (label_eq (barcode mbs) flat Hp Hs 1%nat i j); auto.
Qed.
End MatrixDistance.

(** C1.  On records whose barcodes have one length, with the threshold 0
    the three functions form the same clusters: each forms exactly the
    groups of records with equal barcodes, resolves every group by the size
    policy and returns the reads so obtained, and this grouping does not
    depend on the order of the input.  For the hierarchical strategy on
    more than two records the library is the agglomerative linkage and cut
    written after the specification, for the methods it names. *)
Theorem threshold0_agreement {Read : Type}
    (molecular_barcodes : list (string * Read)) (min_cluster_size : Z)
    (g : rng) :
  uniform molecular_barcodes ->
  (forall s, named_method s ->
     exists groups outs g',
       membership Agglomerative.linkage Agglomerative.fcluster s
                  molecular_barcodes 0 = Ok groups
       /\ run Agglomerative.linkage Agglomerative.fcluster s
              molecular_barcodes 0 min_cluster_size g
          = Ok (concat outs, g')
       /\ Forall2 (resolved min_cluster_size) groups outs
       /\ Permutation groups (exact_groups molecular_barcodes))
  /\ (forall s1 s2, named_method s1 -> named_method s2 ->
      exists groups1 groups2,
        membership Agglomerative.linkage Agglomerative.fcluster s1
                   molecular_barcodes 0 = Ok groups1
        /\ membership Agglomerative.linkage Agglomerative.fcluster s2
                      molecular_barcodes 0 = Ok groups2
        /\ Permutation groups1 groups2)
  /\ (forall molecular_barcodes',
        Permutation molecular_barcodes molecular_barcodes' ->
        same_membership (exact_groups molecular_barcodes)
                        (exact_groups molecular_barcodes')).
Proof.
  intros Hu.
  assert (Hlab : forall method, (2 < length molecular_barcodes)%nat ->
            let labels := flat_labels Agglomerative.linkage
                            Agglomerative.fcluster molecular_barcodes 0
                            method in
            length labels = length molecular_barcodes
            /\ forall i j a b ri rj,
                 labels !! i = Some a -> labels !! j = Some b ->
                 molecular_barcodes !! i = Some ri ->
                 molecular_barcodes !! j = Some rj ->
                 (a = b <-> ri.1 = rj.1)).
  { intros method Hn. now apply agglomerative_labels_zero. }
  assert (Hexact : forall s, exists groups,
            membership Agglomerative.linkage Agglomerative.fcluster s
                       molecular_barcodes 0 = Ok groups
            /\ Permutation groups (exact_groups molecular_barcodes)).
  { assert (Hnaive : exists groups,
              membership Agglomerative.linkage Agglomerative.fcluster Naive
                         molecular_barcodes 0 = Ok groups
              /\ Permutation groups (exact_groups molecular_barcodes)).
    { destruct (naive_groups_zero molecular_barcodes Hu)
        as [ks [E [Em [Hnd Hin]]]].
      eexists. unfold membership. rewrite E, bind_Ok.
      split; [reflexivity|]. rewrite Em. now apply exact_groups_of. }
    intros [|indels|method].
    - exact Hnaive.
    - destruct (trie_groups_zero_exact indels molecular_barcodes)
        as [ks [E [Hnd Hin]]].
      eexists. split.
      + unfold membership. rewrite trie_clusters_groups, map_map. simpl.
        rewrite map_id. reflexivity.
      + change (fun g : list Read => negb (length g =? 0)%nat)
          with (@nonempty Read).
        rewrite E. now apply exact_groups_of.
    - destruct (le_lt_dec (length molecular_barcodes) 2) as [Hn|Hn].
      + unfold membership, hier_clusters in *.
        now rewrite (proj2 (Nat.leb_le _ _) Hn).
      + destruct (Hlab method Hn) as [Hlen Hl].
        destruct molecular_barcodes as [|r0 mbs']; [simpl in Hn; lia|].
        set (mbs := r0 :: mbs') in *.
        destruct (hier_groups_exact mbs r0 _ Hlen Hl)
          as [ks [E [Hnd Hin]]].
        eexists. unfold membership.
        rewrite (hier_clusters_eq Agglomerative.linkage
                   Agglomerative.fcluster mbs 0 method r0 Hu Hn Hlen).
        rewrite bind_Ok. split; [reflexivity|].
        rewrite E. now apply exact_groups_of. }
  assert (Hall : forall s, exists groups outs g',
            membership Agglomerative.linkage Agglomerative.fcluster s
                       molecular_barcodes 0 = Ok groups
            /\ run Agglomerative.linkage Agglomerative.fcluster s
                   molecular_barcodes 0 min_cluster_size g
               = Ok (concat outs, g')
            /\ Forall2 (resolved min_cluster_size) groups outs
            /\ Permutation groups (exact_groups molecular_barcodes)).
  { intros s.
    destruct (strategy_groups Agglomerative.linkage Agglomerative.fcluster s
                molecular_barcodes 0 min_cluster_size g)
      as [groups [outs [g' [Hmem [Hrun [_ [_ Hres]]]]]]].
    - intros _. exact Hu.
    - intros; lia.
    - intros method _ Hn. now apply Hlab.
    - destruct (Hexact s) as [groups' [E P]].
      rewrite Hmem in E. injection E as <-.
      exists groups, outs, g'. repeat split; auto. }
  split; [intros s _; apply Hall|]. split.
  - intros s1 s2 _ _.
    destruct (Hall s1) as [g1 [_ [_ [E1 [_ [_ P1]]]]]].
    destruct (Hall s2) as [g2 [_ [_ [E2 [_ [_ P2]]]]]].
    exists g1, g2. split; [exact E1|]. split; [exact E2|].
    now rewrite P1, P2.
  - intros mbs'. apply exact_groups_Permutation.
Qed.

Lemma threshold0_agreement_witness :
  let mbs := [("AAAA", 1); ("AAAA", 2); ("AAAT", 3); ("TTTT", 4)]%string%nat in
  uniform mbs
  /\ forall s, named_method s ->
       exists groups outs g',
         membership Agglomerative.linkage Agglomerative.fcluster s mbs 0
         = Ok groups
         /\ run Agglomerative.linkage Agglomerative.fcluster s mbs 0 2
                (fun n => n)
            = Ok (concat outs, g')
         /\ Forall2 (resolved 2) groups outs
         /\ Permutation groups (exact_groups mbs).
Proof.
  intros mbs.
  assert (Hu : uniform mbs) by (apply uniform_Forall; repeat constructor).
  split; [exact Hu|].
  apply (threshold0_agreement mbs 2 (fun n => n) Hu).
Defined.

(** ** The sort is the stable sort *)

Section StableSort.
Context {A : Type} (le : A -> A -> bool).
Hypothesis le_total : forall x y, le x y = true \/ le y x = true.
Hypothesis le_trans : forall x y z, le x y = true -> le y z = true -> le x z = true.

Lemma same_key_refl (x : A) : same_key le x x = true.
Proof. unfold same_key. now destruct (le_total x x) as [-> | ->]. Qed.

Lemma same_key_sym (x y : A) : same_key le x y = same_key le y x.
Proof. unfold same_key. apply andb_comm. Qed.

(** Two sorted lists with the same elements of every key, in the same
    order, are equal. *)
Lemma stable_sorted_unique (l1 l2 : list A) :
  StronglySorted (fun a b => le a b = true) l1 ->
  StronglySorted (fun a b => le a b = true) l2 ->
  (forall x, List.filter (same_key le x) l1 = List.filter (same_key le x) l2) ->
  l1 = l2.
Proof.
  intros H1. revert l2. induction H1 as [|a l1 H1 IH Ha]; intros l2 H2 Hf.
  - destruct l2 as [|b l2]; [reflexivity|].
    specialize (Hf b). simpl in Hf. now rewrite same_key_refl in Hf.
  - destruct H2 as [|b l2 H2 Hb].
    + specialize (Hf a). simpl in Hf. now rewrite same_key_refl in Hf.
    + assert (Hab : a = b).
      { pose proof (Hf a) as Fa. pose proof (Hf b) as Fb. simpl in Fa, Fb.
        rewrite same_key_refl in Fa, Fb.
        destruct (same_key le a b) eqn:E; [congruence|].
        rewrite same_key_sym, E in Fb.
        assert (Ia : In a l2).
        { assert (H : In a (a :: List.filter (same_key le a) l1)) by now left.
          rewrite Fa in H. now apply filter_In in H. }
        assert (Ib : In b l1).
        { assert (H : In b (b :: List.filter (same_key le b) l2)) by now left.
          rewrite <- Fb in H. now apply filter_In in H. }
        rewrite List.Forall_forall in Ha, Hb.
        unfold same_key in E. rewrite (Ha b Ib), (Hb a Ia) in E. discriminate. }
      subst b. f_equal. apply IH; [exact H2|].
      intros x. specialize (Hf x). simpl in Hf.
      destruct (same_key le x a); congruence.
Qed.

Lemma same_key_StronglySorted (x : A) (l : list A) :
  StronglySorted (fun a b => le a b = true) (List.filter (same_key le x) l).
Proof.
  induction l as [|y l IH]; simpl; [constructor|].
  destruct (same_key le x y) eqn:E; [|exact IH].
  constructor; [exact IH|]. apply List.Forall_forall. intros z Hz.
  apply filter_In in Hz as [_ Hz]. unfold same_key in E, Hz.
  apply andb_true_iff in E as [_ E]. apply andb_true_iff in Hz as [Hz _].
  now apply le_trans with x.
Qed.

(** Every stable sort computes [sorted]: a sorted list that keeps the
    elements of every key in their input order is [sorted le l]. *)
Lemma sorted_unique (l l' : list A) :
  StronglySorted (fun a b => le a b = true) l' ->
  (forall x, List.filter (same_key le x) l' = List.filter (same_key le x) l) ->
  l' = sorted le l.
Proof.
  intros Hs Hf. apply stable_sorted_unique; [exact Hs| |].
  - now apply sorted_StronglySorted.
  - intros x. rewrite Hf, filter_sorted by assumption.
    symmetry. apply sorted_id, same_key_StronglySorted.
Qed.
End StableSort.

(** ** The scenarios of the specification *)

(** Scenario 1: AAAA, AAAA, AAAT collapse to one read and TTTT stays, with
    every strategy. *)
Example scenario_1 :
  let mbs := [("AAAA", 1); ("AAAA", 2); ("AAAT", 3); ("TTTT", 4)]%string%nat in
  forall s, named_method s ->
    exists out g',
      run Agglomerative.linkage Agglomerative.fcluster s mbs 1 2 (fun n => n)
      = Ok (out, g')
      /\ length out = 2%nat.
Proof.
  intros mbs [|[|]|method] H; [| | |destruct H as [-> | ->]];
    eexists _, _; (split; [vm_compute; reflexivity|]); reflexivity.
Qed.

(** Scenario 2: barcodes further apart than the threshold are not merged. *)
Example scenario_2 :
  let mbs := [("AAAA", 1); ("CCCC", 2); ("TTTT", 3)]%string%nat in
  forall s, named_method s ->
    exists out g',
      run Agglomerative.linkage Agglomerative.fcluster s mbs 1 2 (fun n => n)
      = Ok (out, g')
      /\ Permutation out [1; 2; 3]%nat.
Proof.
  intros mbs [|[|]|method] H; [| | |destruct H as [-> | ->]];
    eexists _, _; (split; [vm_compute; reflexivity|]); reflexivity.
Qed.

(** The trie strategy with the records of scenario 1 in another order: the
    record with the consumed barcode AAAA adds nothing. *)
Example trie_skips_at_distance_0 :
  trie_clusters [("AAAA", 1); ("AAAA", 2); ("TTTT", 4)]%string%nat 0 true
  = [(2, [1; 2]); (0, []); (1, [4])]%nat.
Proof. vm_compute. reflexivity. Qed.

(** Outside the interface: barcodes of different lengths make the naive
    strategy fail. *)
Example naive_length_mismatch :
  countMolecularBarcodesClustersNaive [("AAAA", 1); ("AAA", 2)]%string%nat
                                      1 1 (fun n => n)
  = Raise LengthMismatchError.
Proof. vm_compute. reflexivity. Qed.

(** * Further properties *)

(** ** The extractor's order *)

Section ExtractOrder.
Context {Read : Type} (read_0 : Read -> string).
Context (mc_start_position mc_end_position : Z).

Local Abbreviation barcode_of :=
  (fun read => slice (read_0 read) mc_start_position mc_end_position).

(** The record the extractor builds for a read of the batch. *)
Local Abbreviation record_of reads :=
  (fun read => (barcode_of read, read,
                count_occ string_dec (map barcode_of reads) (barcode_of read),
                str_count "N"%char (barcode_of read))).

Lemma extraction_le_same_barcode (reads : list Read) (x y : @extraction Read) :
  In x (map (record_of reads) reads) -> In y (map (record_of reads) reads) ->
  x_0 x = x_0 y -> extraction_le x y = true.
Proof.
  intros Hx Hy E. apply in_map_iff in Hx as [rx [<- _]].
  apply in_map_iff in Hy as [ry [<- _]]. unfold x_0 in E. simpl in E.
  apply extraction_le_before. unfold extraction_before, x_0, x_2, x_3. simpl.
  right. split; [exact E|]. right. rewrite E. split; [reflexivity|lia].
Qed.

Lemma StronglySorted_all {A : Type} (R : A -> A -> Prop) (l : list A) :
  (forall x y, In x l -> In y l -> R x y) -> StronglySorted R l.
Proof.
  induction l as [|a l IH]; intros H; constructor.
  - apply IH. intros x y Hx Hy. apply H; now right.
  - apply List.Forall_forall. intros y Hy. apply H; [now left|now right].
Qed.

Lemma extract_filter_barcode (reads : list Read) (barcode : string) :
  List.filter (fun x : @extraction Read => String.eqb (x_0 x) barcode)
              (sorted extraction_le (map (record_of reads) reads))
  = map (record_of reads)
        (List.filter (fun read => String.eqb (barcode_of read) barcode) reads).
Proof.
  rewrite filter_sorted, sorted_id.
  - now rewrite filter_map_swap.
  - apply StronglySorted_all. intros x y Hx Hy.
    apply List.filter_In in Hx as [Hx Ex], Hy as [Hy Ey].
    apply String.eqb_eq in Ex, Ey.
    apply (extraction_le_same_barcode reads); congruence.
  - intros x y. apply key_le_total.
  - intros x y z. apply key_le_trans.
Qed.
End ExtractOrder.

(** X1.  The extractor is stable on the barcode: for offsets with
    end > start >= 0, the returned records that carry a given barcode hold
    exactly the input reads with that barcode, in their input order (the
    two secondary sort keys never reorder reads, since they only depend on
    the barcode). *)
Theorem extract_keeps_input_order {Read : Type} (read_0 : Read -> string)
    (reads : list Read) (mc_start_position mc_end_position : Z) :
  mc_end_position > mc_start_position -> mc_start_position >= 0 ->
  exists records,
    extractMolecularBarcodes read_0 reads mc_start_position mc_end_position
    = Ok records
    /\ forall barcode,
         map x_1 (List.filter (fun x => String.eqb (x_0 x) barcode) records)
         = List.filter
             (fun read =>
                String.eqb
                  (slice (read_0 read) mc_start_position mc_end_position)
                  barcode)
             reads.
Proof.
  intros H1 H2. rewrite extract_eq by assumption.
  eexists. split; [reflexivity|]. intros barcode.
  rewrite extract_filter_barcode, map_map. unfold x_1. simpl.
  now rewrite map_id.
Qed.

Lemma extract_keeps_input_order_witness :
  4 > 1 /\ 1 >= 0
  /\ exists records,
       extractMolecularBarcodes (fun r : string => r)
         ["TCGTA"; "ACGTC"; "GCGTN"; "TTTTT"]%string 1 4 = Ok records
       /\ map x_1 (List.filter (fun x => String.eqb (x_0 x) "CGT") records)
          = ["TCGTA"; "ACGTC"; "GCGTN"]%string.
Proof.
  split; [lia|]. split; [lia|].
  destruct (extract_keeps_input_order (fun r : string => r)
              ["TCGTA"; "ACGTC"; "GCGTN"; "TTTTT"]%string 1 4)
    as [records [E H]]; [lia|lia|].
  exists records. split; [exact E|]. rewrite H. reflexivity.
Defined.

(** ** The extractor feeding the naive strategy

    The clustering functions read the positions 0 and 1 of the tuples they
    are given, so they take the extractor's records as they are. *)

Section ExtractNaive.
Context {Read : Type} (read_0 : Read -> string).
Context (mc_start_position mc_end_position : Z).

Local Abbreviation barcode_of :=
  (fun read => slice (read_0 read) mc_start_position mc_end_position).
Local Abbreviation by_barcode :=
  (fun x y : string * Read => str_le x.1 y.1).
Local Abbreviation pair_of := (fun x : @extraction Read => (x_0 x, x_1 x)).

Lemma StronglySorted_map {A B : Type} (R : A -> A -> Prop) (R' : B -> B -> Prop)
    (f : A -> B) (l : list A) :
  (forall x y, R x y -> R' (f x) (f y)) ->
  StronglySorted R l -> StronglySorted R' (map f l).
Proof.
  intros HR. induction 1 as [|a l _ IH Ha]; simpl; constructor; auto.
  apply List.Forall_forall. intros y Hy. apply in_map_iff in Hy as [x [<- Hx]].
  apply HR. eapply List.Forall_forall in Ha; eauto.
Qed.

Lemma extract_pairs_sorted (l : list (@extraction Read)) :
  sorted by_barcode (map pair_of (sorted extraction_le l))
  = map pair_of (sorted extraction_le l).
Proof.
  apply sorted_id.
  eapply StronglySorted_map; [|apply sorted_StronglySorted].
  - intros x y Hxy. apply extraction_le_before in Hxy.
    cbn [fst]. apply str_le_lt_or_eq.
    destruct Hxy as [Hlt|[Heq _]]; [now left|now right].
  - intros x y. apply key_le_total.
  - intros x y z. apply key_le_trans.
Qed.

Lemma extract_pairs_uniform (reads : list Read) (l : list (@extraction Read)) :
  Forall (fun read => mc_end_position
                      <= Z.of_nat (String.length (read_0 read))) reads ->
  0 <= mc_start_position < mc_end_position ->
  Forall (fun x => exists read, In read reads /\ x_0 x = barcode_of read) l ->
  uniform (map pair_of l).
Proof.
  intros Hlen Hr Hl.
  assert (Hx : forall p, In p (map pair_of l) ->
                 String.length p.1
                 = Z.to_nat (mc_end_position - mc_start_position)).
  { intros p Hp. apply in_map_iff in Hp as [x [<- Hx]]. cbn [fst].
    eapply List.Forall_forall in Hl as [read [Hin ->]]; [|exact Hx].
    eapply List.Forall_forall in Hlen; [|exact Hin]. cbv beta in Hlen.
    unfold slice. rewrite substring_length. lia. }
  intros x y Hx' Hy'. now rewrite (Hx x), (Hx y).
Qed.
End ExtractNaive.

(** X2.  Extraction followed by the naive strategy.  When every read is at
    least as long as the end offset (and end > start >= 0), the barcodes
    extracted have one length, so the naive strategy raises nothing on the
    extractor's records; its sort by barcode leaves them in the extractor's
    order, so its clusters are the runs of consecutive extractor records
    whose barcodes are within the threshold of their predecessor; and it
    returns reads of the input only. *)
Theorem extract_then_naive {Read : Type} (read_0 : Read -> string)
    (reads : list Read) (mc_start_position mc_end_position : Z)
    (allowed_mismatches min_cluster_size : Z) (g : rng) :
  mc_end_position > mc_start_position -> mc_start_position >= 0 ->
  Forall (fun read => mc_end_position
                      <= Z.of_nat (String.length (read_0 read))) reads ->
  exists records out g',
    extractMolecularBarcodes read_0 reads mc_start_position mc_end_position
    = Ok records
    /\ naive_clusters (map (fun x => (x_0 x, x_1 x)) records)
                      allowed_mismatches
       = Ok (chain (linked allowed_mismatches)
                   (map (fun x => (x_0 x, x_1 x)) records))
    /\ countMolecularBarcodesClustersNaive
         (map (fun x => (x_0 x, x_1 x)) records)
         allowed_mismatches min_cluster_size g
       = Ok (out, g')
    /\ incl out reads.
Proof.
  intros H1 H2 Hlen. rewrite extract_eq by assumption.
  set (records := sorted extraction_le _).
  assert (Hperm : Permutation (map x_1 records) reads).
  { unfold records. rewrite sorted_Permutation, map_map. unfold x_1. simpl.
    now rewrite map_id. }
  assert (Hu : uniform (map (fun x : @extraction Read => (x_0 x, x_1 x))
                            records)).
  { apply (extract_pairs_uniform read_0 mc_start_position mc_end_position
                                  reads); [exact Hlen|lia|].
    apply List.Forall_forall. intros x Hx.
    eapply Permutation_in in Hx; [|apply sorted_Permutation].
    apply in_map_iff in Hx as [read [<- Hin]]. now exists read. }
  destruct (naive_run _ allowed_mismatches min_cluster_size g Hu)
    as [outs [g' [Hrun Hres]]].
  unfold records in Hrun, Hres. rewrite extract_pairs_sorted in Hres.
  exists records, (concat outs), g'. split; [reflexivity|].
  split; [|split].
  - rewrite naive_clusters_uniform by exact Hu. unfold records.
    now rewrite extract_pairs_sorted.
  - exact Hrun.
  - intros x Hx. apply (resolved_concat_incl _ _ _ Hres) in Hx.
    rewrite <- concat_map, concat_chain, map_map in Hx.
    eapply Permutation_in; [exact Hperm|exact Hx].
Qed.

Lemma extract_then_naive_witness :
  exists records out g',
    extractMolecularBarcodes (fun r : string => r)
      ["TCGTA"; "ACGAC"; "GTTTN"]%string 1 4 = Ok records
    /\ naive_clusters (map (fun x => (x_0 x, x_1 x)) records) 1
       = Ok (chain (linked 1) (map (fun x => (x_0 x, x_1 x)) records))
    /\ countMolecularBarcodesClustersNaive
         (map (fun x => (x_0 x, x_1 x)) records) 1 2 (fun n => n)
       = Ok (out, g')
    /\ incl out ["TCGTA"; "ACGAC"; "GTTTN"]%string.
Proof.
  apply (extract_then_naive (fun r : string => r)
           ["TCGTA"; "ACGAC"; "GTTTN"]%string 1 4 1 2 (fun n => n));
    [lia|lia|].
  repeat constructor; simpl; lia.
Defined.

(** ** Errors of the strategies *)

Section StrategyErrors.
Context {Read : Type}.

Local Abbreviation record := (string * Read)%type.

Lemma naive_raise (mbs : list record) (t m : Z) (g : rng) :
  ~ uniform mbs ->
  countMolecularBarcodesClustersNaive mbs t m g = Raise LengthMismatchError.
Proof.
  intros Hn. rewrite naive_is_cluster_naive. unfold cluster_naive.
  rewrite M_bind_run, <- naive_clusters_spec, naive_clusters_mismatch
    by exact Hn.
  reflexivity.
Qed.
End StrategyErrors.

(** X3.  The naive strategy fails exactly on barcodes of different
    lengths: it returns a list of reads when all the barcodes of the input
    have one length, whatever the thresholds and the random source, and it
    raises the error of the distance primitive otherwise (never an index or
    key error of its own cluster dictionary). *)
Theorem naive_fails_on_lengths_only {Read : Type}
    (molecular_barcodes : list (string * Read))
    (allowed_mismatches min_cluster_size : Z) (g : rng) :
  (uniform molecular_barcodes ->
   exists out g',
     countMolecularBarcodesClustersNaive molecular_barcodes allowed_mismatches
                                         min_cluster_size g = Ok (out, g'))
  /\ (~ uniform molecular_barcodes ->
      countMolecularBarcodesClustersNaive molecular_barcodes
        allowed_mismatches min_cluster_size g = Raise LengthMismatchError).
Proof.
  split.
  - intros Hu.
    destruct (naive_run molecular_barcodes allowed_mismatches
                        min_cluster_size g Hu) as [outs [g' [E _]]].
    eauto.
  - apply naive_raise.
Qed.

Lemma mapM_Raise {A B : Type} (f : A -> result B) (e : exn) (l : list A) :
  (forall x, In x l -> (exists y, f x = Ok y) \/ f x = Raise e) ->
  (exists x, In x l /\ f x = Raise e) ->
  mapM f l = Raise e.
Proof.
  induction l as [|a l IH]; intros Hall [x [Hin Hx]]; [destruct Hin|].
  cbn [mapM]. destruct (Hall a (or_introl eq_refl)) as [[y Hy]|Hy].
  - rewrite Hy, bind_Ok. destruct Hin as [->|Hin]; [congruence|].
    rewrite IH; [reflexivity| |now exists x].
    intros z Hz. apply Hall. now right.
  - now rewrite Hy.
Qed.

Lemma not_uniform_pair {Read : Type} (mbs : list (string * Read)) :
  ~ uniform mbs ->
  exists x y, In x mbs /\ In y mbs /\ String.length x.1 <> String.length y.1.
Proof.
  intros Hn.
  destruct (List.Exists_dec
              (fun x : string * Read =>
                 List.Exists (fun y : string * Read =>
                                String.length x.1 <> String.length y.1) mbs)
              mbs) as [He|He].
  - intros x. apply List.Exists_dec. intros y.
    destruct (Nat.eq_dec (String.length x.1) (String.length y.1));
      [right|left]; tauto.
  - apply List.Exists_exists in He as [x [Hx He]].
    apply List.Exists_exists in He as [y [Hy He]]. eauto.
  - exfalso. apply Hn. intros x y Hx Hy.
    destruct (Nat.eq_dec (String.length x.1) (String.length y.1)) as [E|E];
      [exact E|].
    exfalso. apply He. apply List.Exists_exists. exists x. split; [exact Hx|].
    apply List.Exists_exists. now exists y.
Qed.

Section HierErrors.
Context {Read Dendrogram : Type}.
Context (linkage : list nat -> string -> Dendrogram).
Context (fcluster : Dendrogram -> Z -> list nat).

Local Abbreviation record := (string * Read)%type.

Lemma hier_matrix_raise (mbs : list record) :
  ~ uniform mbs ->
  mapM (d mbs) (triu_indices (length mbs)) = Raise LengthMismatchError.
Proof.
  intros Hn. destruct (not_uniform_pair mbs Hn) as [x [y [Hx [Hy Hxy]]]].
  apply mapM_Raise.
  - intros [i j] Hij. apply triu_indices_In in Hij. unfold d.
    rewrite (getitem_nth mbs i x), (getitem_nth mbs j x) by lia.
    rewrite !bind_Ok. unfold hamming_distance.
    destruct (_ =? _)%nat; eauto.
  - destruct (In_nth mbs x x Hx) as [i [Hi Ei]].
    destruct (In_nth mbs y x Hy) as [j [Hj Ej]].
    assert (Hne : i <> j) by (intros ->; congruence).
    destruct (Nat.lt_ge_cases i j) as [Hlt|Hge].
    + exists (i, j). split; [apply triu_indices_In; lia|]. unfold d.
      rewrite (getitem_nth mbs i x), (getitem_nth mbs j x) by lia.
      rewrite !bind_Ok, Ei, Ej. now apply hamming_distance_mismatch.
    + exists (j, i). split; [apply triu_indices_In; lia|]. unfold d.
      rewrite (getitem_nth mbs i x), (getitem_nth mbs j x) by lia.
      rewrite !bind_Ok, Ei, Ej. apply hamming_distance_mismatch. congruence.
Qed.
End HierErrors.

(** X4.  The hierarchical strategy fails on barcodes of different lengths,
    for every input size, linkage method and thresholds: on more than two
    records the distance of some pair of the distance matrix raises the
    error of the distance primitive before [linkage] is called, and on at
    most two records the naive strategy it delegates to raises it. *)
Theorem hierarchical_fails_on_lengths {Read Dendrogram : Type}
    (linkage : list nat -> string -> Dendrogram)
    (fcluster : Dendrogram -> Z -> list nat)
    (molecular_barcodes : list (string * Read))
    (allowed_mismatches min_cluster_size : Z) (method : string) (g : rng) :
  ~ uniform molecular_barcodes ->
  countMolecularBarcodesClustersHierarchical linkage fcluster
    molecular_barcodes allowed_mismatches min_cluster_size method g
  = Raise LengthMismatchError
  /\ ((2 < length molecular_barcodes)%nat ->
      hier_items linkage fcluster molecular_barcodes allowed_mismatches method
      = Raise LengthMismatchError).
Proof.
  intros Hn. split.
  - unfold countMolecularBarcodesClustersHierarchical.
    destruct (length molecular_barcodes <=? 2)%nat.
    + now apply naive_raise.
    + rewrite M_bind_run. unfold hier_items.
      now rewrite hier_matrix_raise.
  - intros _. unfold hier_items. now rewrite hier_matrix_raise.
Qed.

Lemma hierarchical_fails_on_lengths_witness :
  countMolecularBarcodesClustersHierarchical
    Agglomerative.linkage Agglomerative.fcluster
    [("AAAA", 1); ("AAAT", 2); ("AAA", 3)]%string%nat 1 2 "single"
    (fun n => n)
  = Raise LengthMismatchError.
Proof.
  apply (hierarchical_fails_on_lengths Agglomerative.linkage
           Agglomerative.fcluster
           [("AAAA", 1); ("AAAT", 2); ("AAA", 3)]%string%nat 1 2 "single"
           (fun n => n)).
  intros H.
  specialize (H ("AAAA", 1)%string%nat ("AAA", 3)%string%nat).
  simpl in H. assert (E : 4%nat = 3%nat) by (apply H; tauto). discriminate E.
Defined.




(** ** The size policy *)

Section SizePolicy.
Context {X : Type}.

Lemma resolved_representatives (m : Z) (groups outs : list (list X)) :
  m <= 1 -> Forall (fun grp => grp <> []) groups ->
  Forall2 (resolved m) groups outs ->
  Forall2 (fun grp x => In x grp) groups (concat outs).
Proof.
  intros Hm Hne H. induction H as [|grp out groups outs H _ IH];
    [constructor|].
  apply Forall_cons_1 in Hne as [Hg Hne].
  destruct H as [[_ [x [Hx ->]]]|[Hlt ->]].
  - simpl. constructor; auto.
  - destruct grp; [congruence|]. simpl length in Hlt. lia.
Qed.

Lemma resolved_everything (m : Z) (groups outs : list (list X)) :
  Forall (fun grp => Z.of_nat (length grp) < m) groups ->
  Forall2 (resolved m) groups outs -> outs = groups.
Proof.
  intros Hlt H. induction H as [|grp out groups outs H _ IH];
    [reflexivity|].
  apply Forall_cons_1 in Hlt as [Hg Hlt].
  rewrite IH by exact Hlt. destruct H as [[Hge _]|[_ ->]]; [lia|reflexivity].
Qed.

Lemma group_length_le (groups : list (list X)) :
  Forall (fun grp => (length grp <= length (concat groups))%nat) groups.
Proof.
  induction groups as [|grp groups IH]; constructor.
  - simpl. rewrite length_app. lia.
  - eapply List.Forall_impl; [|exact IH]. intros a Ha. cbv beta in Ha.
    simpl. rewrite length_app. lia.
Qed.

Lemma resolved_length_mono (m1 m2 : Z) (groups outs1 outs2 : list (list X)) :
  m1 <= m2 -> Forall (fun grp => grp <> []) groups ->
  Forall2 (resolved m1) groups outs1 -> Forall2 (resolved m2) groups outs2 ->
  (length (concat outs1) <= length (concat outs2))%nat.
Proof.
  intros Hm Hne H1. revert outs2.
  induction H1 as [|grp out1 groups outs1 H1 _ IH]; intros outs2 H2;
    inversion H2 as [|? out2 ? outs2' H2a H2b]; subst; [simpl; lia|].
  apply Forall_cons_1 in Hne as [Hg Hne].
  simpl. rewrite !length_app. specialize (IH Hne _ H2b).
  assert (length out1 <= length out2)%nat; [|lia].
  destruct H1 as [[Hge1 [x1 [_ ->]]]|[Hlt1 ->]];
    destruct H2a as [[Hge2 [x2 [_ ->]]]|[Hlt2 ->]]; simpl; try lia.
  destruct grp; [congruence|simpl; lia].
Qed.
End SizePolicy.

(** X6.  With [min_cluster_size] at most 1 every cluster counts as a
    cluster of duplicates: the strategy returns exactly one read per
    cluster, a read of that cluster, in the order of the clusters.  (The
    hypotheses are what each strategy asks of its input: barcodes of one
    length unless the strategy is the trie, a non-negative threshold for
    the trie, and for the hierarchical strategy on more than two records
    one label per record from [fcluster].) *)
Theorem small_min_size_one_read_per_cluster {Read Dendrogram : Type}
    (linkage : list nat -> string -> Dendrogram)
    (fcluster : Dendrogram -> Z -> list nat)
    (s : strategy) (molecular_barcodes : list (string * Read))
    (allowed_mismatches min_cluster_size : Z) (g : rng) :
  ((forall allow_indels, s <> Prefixtrie allow_indels) ->
   uniform molecular_barcodes) ->
  (forall allow_indels, s = Prefixtrie allow_indels ->
   0 <= allowed_mismatches) ->
  (forall method, s = Hierarchical method ->
   (2 < length molecular_barcodes)%nat ->
   length (flat_labels linkage fcluster molecular_barcodes
                       allowed_mismatches method)
   = length molecular_barcodes) ->
  min_cluster_size <= 1 ->
  exists groups out g',
    membership linkage fcluster s molecular_barcodes allowed_mismatches
    = Ok groups
    /\ run linkage fcluster s molecular_barcodes allowed_mismatches
           min_cluster_size g = Ok (out, g')
    /\ Forall2 (fun grp read => In read grp) groups out.
Proof.
  intros Hu Ht Hl Hm.
  destruct (strategy_groups linkage fcluster s molecular_barcodes
              allowed_mismatches min_cluster_size g Hu Ht Hl)
    as [groups [outs [g' [Hmem [Hrun [Hne [_ Hres]]]]]]].
  exists groups, (concat outs), g'. split; [exact Hmem|].
  split; [exact Hrun|].
  eapply resolved_representatives; eauto.
Qed.

Lemma small_min_size_one_read_per_cluster_witness :
  exists groups out g',
    membership Agglomerative.linkage Agglomerative.fcluster Naive
      [("AAAT", 1); ("CCCC", 2); ("AAAA", 3)]%string%nat 1
    = Ok groups
    /\ run Agglomerative.linkage Agglomerative.fcluster Naive
         [("AAAT", 1); ("CCCC", 2); ("AAAA", 3)]%string%nat 1 1 (fun n => n)
       = Ok (out, g')
    /\ Forall2 (fun grp read => In read grp) groups out.
Proof.
  apply (small_min_size_one_read_per_cluster
           Agglomerative.linkage Agglomerative.fcluster Naive
           [("AAAT", 1); ("CCCC", 2); ("AAAA", 3)]%string%nat 1 1
           (fun n => n)).
  - intros _. apply uniform_Forall. repeat constructor.
  - intros allow_indels H. discriminate H.
  - intros method H. discriminate H.
  - lia.
Defined.

(** X7.  With [min_cluster_size] above the number of records no cluster is
    large enough to be collapsed: the strategy returns all the reads of
    all its clusters, cluster after cluster, which is every input read
    exactly once. *)
Theorem large_min_size_keeps_every_read {Read Dendrogram : Type}
    (linkage : list nat -> string -> Dendrogram)
    (fcluster : Dendrogram -> Z -> list nat)
    (s : strategy) (molecular_barcodes : list (string * Read))
    (allowed_mismatches min_cluster_size : Z) (g : rng) :
  ((forall allow_indels, s <> Prefixtrie allow_indels) ->
   uniform molecular_barcodes) ->
  (forall allow_indels, s = Prefixtrie allow_indels ->
   0 <= allowed_mismatches) ->
  (forall method, s = Hierarchical method ->
   (2 < length molecular_barcodes)%nat ->
   length (flat_labels linkage fcluster molecular_barcodes
                       allowed_mismatches method)
   = length molecular_barcodes) ->
  Z.of_nat (length molecular_barcodes) < min_cluster_size ->
  exists groups g',
    membership linkage fcluster s molecular_barcodes allowed_mismatches
    = Ok groups
    /\ run linkage fcluster s molecular_barcodes allowed_mismatches
           min_cluster_size g = Ok (concat groups, g')
    /\ Permutation (concat groups) (map snd molecular_barcodes).
Proof.
  intros Hu Ht Hl Hm.
  destruct (strategy_groups linkage fcluster s molecular_barcodes
              allowed_mismatches min_cluster_size g Hu Ht Hl)
    as [groups [outs [g' [Hmem [Hrun [_ [Hperm Hres]]]]]]].
  exists groups, g'. split; [exact Hmem|]. split; [|exact Hperm].
  rewrite Hrun. f_equal. f_equal. f_equal.
  apply (resolved_everything min_cluster_size); [|exact Hres].
  eapply List.Forall_impl; [|apply group_length_le].
  intros grp Hg. cbv beta in Hg. apply Permutation_length in Hperm.
  rewrite length_map in Hperm. lia.
Qed.

Lemma large_min_size_keeps_every_read_witness :
  exists groups g',
    membership Agglomerative.linkage Agglomerative.fcluster
      (Prefixtrie false)
      [("AAAT", 1); ("CCCC", 2); ("AAAA", 3)]%string%nat 1
    = Ok groups
    /\ run Agglomerative.linkage Agglomerative.fcluster (Prefixtrie false)
         [("AAAT", 1); ("CCCC", 2); ("AAAA", 3)]%string%nat 1 4 (fun n => n)
       = Ok (concat groups, g')
    /\ Permutation (concat groups) [1; 2; 3]%nat.
Proof.
  apply (large_min_size_keeps_every_read
           Agglomerative.linkage Agglomerative.fcluster (Prefixtrie false)
           [("AAAT", 1); ("CCCC", 2); ("AAAA", 3)]%string%nat 1 4
           (fun n => n)).
  - intros H. now destruct (H false).
  - intros; lia.
  - intros method H. discriminate H.
  - simpl. lia.
Defined.

(** X8.  Raising [min_cluster_size] never makes a strategy return fewer
    reads, whatever the random draws of the two runs; in particular the
    number of reads returned does not depend on the random source. *)
Theorem output_grows_with_min_size {Read Dendrogram : Type}
    (linkage : list nat -> string -> Dendrogram)
    (fcluster : Dendrogram -> Z -> list nat)
    (s : strategy) (molecular_barcodes : list (string * Read))
    (allowed_mismatches m1 m2 : Z) (g1 g2 : rng) :
  ((forall allow_indels, s <> Prefixtrie allow_indels) ->
   uniform molecular_barcodes) ->
  (forall allow_indels, s = Prefixtrie allow_indels ->
   0 <= allowed_mismatches) ->
  (forall method, s = Hierarchical method ->
   (2 < length molecular_barcodes)%nat ->
   length (flat_labels linkage fcluster molecular_barcodes
                       allowed_mismatches method)
   = length molecular_barcodes) ->
  m1 <= m2 ->
  exists out1 out2 g1' g2',
    run linkage fcluster s molecular_barcodes allowed_mismatches m1 g1
    = Ok (out1, g1')
    /\ run linkage fcluster s molecular_barcodes allowed_mismatches m2 g2
       = Ok (out2, g2')
    /\ (length out1 <= length out2)%nat.
Proof.
  intros Hu Ht Hl Hm.
  destruct (strategy_groups linkage fcluster s molecular_barcodes
              allowed_mismatches m1 g1 Hu Ht Hl)
    as [groups [outs1 [g1' [Hmem1 [Hrun1 [Hne [_ Hres1]]]]]]].
  destruct (strategy_groups linkage fcluster s molecular_barcodes
              allowed_mismatches m2 g2 Hu Ht Hl)
    as [groups' [outs2 [g2' [Hmem2 [Hrun2 [_ [_ Hres2]]]]]]].
  assert (groups' = groups) by congruence. subst groups'.
  exists (concat outs1), (concat outs2), g1', g2'.
  split; [exact Hrun1|]. split; [exact Hrun2|].
  eapply resolved_length_mono; eauto.
Qed.

Lemma output_grows_with_min_size_witness :
  exists out1 out2 g1' g2',
    run Agglomerative.linkage Agglomerative.fcluster (Hierarchical "single")
      [("AAAT", 1); ("CCCC", 2); ("AAAA", 3); ("CCCG", 4)]%string%nat 1 2
      (fun n => n)
    = Ok (out1, g1')
    /\ run Agglomerative.linkage Agglomerative.fcluster
         (Hierarchical "single")
         [("AAAT", 1); ("CCCC", 2); ("AAAA", 3); ("CCCG", 4)]%string%nat 1 3
         (fun n => S n)
       = Ok (out2, g2')
    /\ (length out1 <= length out2)%nat.
Proof.
  apply (output_grows_with_min_size
           Agglomerative.linkage Agglomerative.fcluster
           (Hierarchical "single")
           [("AAAT", 1); ("CCCC", 2); ("AAAA", 3); ("CCCG", 4)]%string%nat
           1 2 3 (fun n => n) (fun n => S n)).
  - intros _. apply uniform_Forall. repeat constructor.
  - intros allow_indels H. discriminate H.
  - intros method _ _. vm_compute. reflexivity.
  - lia.
Defined.

(** ** The order of the naive strategy's output *)

Section NaiveOrder.
Context {Read : Type}.

Local Abbreviation record := (string * Read)%type.
Local Abbreviation by_barcode := (fun x y : record => str_le x.1 y.1).

Lemma singleton_sublist {X : Type} (x : X) (l : list X) :
  In x l -> sublist [x] l.
Proof.
  intros H. apply in_split in H as [l1 [l2 ->]].
  apply sublist_inserts_l. constructor. apply sublist_nil_l.
Qed.

Lemma resolved_sublist {X : Type} (m : Z) (groups outs : list (list X)) :
  Forall2 (resolved m) groups outs ->
  sublist (concat outs) (concat groups).
Proof.
  induction 1 as [|grp out groups outs H _ IH]; [constructor|].
  simpl. apply sublist_app; [|exact IH].
  destruct H as [[_ [x [Hx ->]]]|[_ ->]]; [|reflexivity].
  now apply singleton_sublist.
Qed.

Lemma resolved_singletons {X : Type} (m : Z) (l : list X)
    (outs : list (list X)) :
  Forall2 (resolved m) (map (fun x => [x]) l) outs -> concat outs = l.
Proof.
  revert outs. induction l as [|a l IH]; intros outs H;
    inversion H as [|? out ? outs' Ha Hl]; subst; [reflexivity|].
  simpl. rewrite (IH _ Hl).
  destruct Ha as [[_ [x [[<-|[]] ->]]]|[_ ->]]; reflexivity.
Qed.

Lemma NoDup_barcodes_records (l : list record) :
  List.NoDup (map fst l) -> List.NoDup l.
Proof. apply List.NoDup_map_inv. Qed.

Lemma NoDup_barcodes_distinct (l : list record) (x y : record) :
  List.NoDup (map fst l) -> In x l -> In y l -> x <> y -> x.1 <> y.1.
Proof.
  induction l as [|a l IH]; intros Hnd Hx Hy Hne; [destruct Hx|].
  simpl in Hnd. apply List.NoDup_cons_iff in Hnd as [Hna Hnd].
  destruct Hx as [->|Hx], Hy as [->|Hy].
  - congruence.
  - intros E. apply Hna. rewrite E. now apply in_map.
  - intros E. apply Hna. rewrite <- E. now apply in_map.
  - now apply IH.
Qed.
End NaiveOrder.

(** X9.  The naive strategy returns its reads in barcode order: on
    barcodes of one length, its output is a subsequence of the reads of the
    records sorted by barcode (records with the same barcode in their input
    order). *)
Theorem naive_output_in_barcode_order {Read : Type}
    (molecular_barcodes : list (string * Read))
    (allowed_mismatches min_cluster_size : Z) (g : rng) :
  uniform molecular_barcodes ->
  exists out g',
    countMolecularBarcodesClustersNaive molecular_barcodes allowed_mismatches
                                        min_cluster_size g = Ok (out, g')
    /\ sublist out
         (map snd (sorted (fun x y => str_le x.1 y.1) molecular_barcodes)).
Proof.
  intros Hu.
  destruct (naive_run molecular_barcodes allowed_mismatches min_cluster_size
                      g Hu) as [outs [g' [E Hres]]].
  exists (concat outs), g'. split; [exact E|].
  apply resolved_sublist in Hres.
  now rewrite <- concat_map, concat_chain in Hres.
Qed.

Lemma naive_output_in_barcode_order_witness :
  exists out g',
    countMolecularBarcodesClustersNaive
      [("CCCC", 1); ("AAAT", 2); ("AAAA", 3)]%string%nat 1 2 (fun n => n)
    = Ok (out, g')
    /\ sublist out
         (map snd (sorted (fun x y => str_le x.1 y.1)
                          [("CCCC", 1); ("AAAT", 2); ("AAAA", 3)]%string%nat)).
Proof.
  apply (naive_output_in_barcode_order
           [("CCCC", 1); ("AAAT", 2); ("AAAA", 3)]%string%nat 1 2
           (fun n => n)).
  apply uniform_Forall. repeat constructor.
Defined.

(** X10.  Singletons are kept: when the barcodes of the records have one
    length, are pairwise distinct and no two of them are within the
    threshold, the naive strategy returns every read, in barcode order,
    whatever [min_cluster_size] and the random source. *)
Theorem naive_keeps_singletons {Read : Type}
    (molecular_barcodes : list (string * Read))
    (allowed_mismatches min_cluster_size : Z) (g : rng) :
  uniform molecular_barcodes ->
  List.NoDup (map fst molecular_barcodes) ->
  (forall a b, In a (map fst molecular_barcodes) ->
               In b (map fst molecular_barcodes) -> a <> b ->
               close allowed_mismatches a b = false) ->
  exists g',
    countMolecularBarcodesClustersNaive molecular_barcodes allowed_mismatches
                                        min_cluster_size g
    = Ok (map snd (sorted (fun x y => str_le x.1 y.1) molecular_barcodes), g').
Proof.
  intros Hu Hnd Hfar.
  destruct (naive_run molecular_barcodes allowed_mismatches min_cluster_size
                      g Hu) as [outs [g' [E Hres]]].
  exists g'. rewrite E. f_equal. f_equal.
  set (l := sorted _ molecular_barcodes) in *.
  assert (Hp : Permutation l molecular_barcodes)
    by apply sorted_Permutation.
  assert (Hnd' : List.NoDup (map fst l)).
  { eapply Permutation_NoDup; [|exact Hnd].
    apply Permutation_map. now symmetry. }
  rewrite (chain_distinct (linked allowed_mismatches) l) in Hres.
  - rewrite map_map in Hres. cbn [map] in Hres.
    rewrite <- (map_map snd (fun x => [x])) in Hres.
    now apply resolved_singletons in Hres.
  - now apply NoDup_barcodes_records.
  - intros a b Ha Hb Hab. unfold linked. apply Hfar.
    + apply in_map. eapply Permutation_in; eauto.
    + apply in_map. eapply Permutation_in; eauto.
    + eapply NoDup_barcodes_distinct; eauto.
Qed.

Lemma naive_keeps_singletons_witness :
  exists g',
    countMolecularBarcodesClustersNaive
      [("TTTT", 1); ("AAAA", 2); ("CCCC", 3)]%string%nat 1 1 (fun n => n)
    = Ok (map snd (sorted (fun x y => str_le x.1 y.1)
                     [("TTTT", 1); ("AAAA", 2); ("CCCC", 3)]%string%nat), g').
Proof.
  apply (naive_keeps_singletons
           [("TTTT", 1); ("AAAA", 2); ("CCCC", 3)]%string%nat 1 1
           (fun n => n)).
  - apply uniform_Forall. repeat constructor.
  - repeat constructor; simpl; intuition discriminate.
  - intros a b Ha Hb Hab. simpl in Ha, Hb.
    destruct Ha as [<-|[<-|[<-|[]]]]; destruct Hb as [<-|[<-|[<-|[]]]];
      try reflexivity; congruence.
Defined.

(** ** The trie strategy on barcodes far apart *)

Section TrieSingletons.
Context {Read : Type}.

Local Abbreviation record := (string * Read)%type.

Lemma NoDup_only (q : string) (l : list string) :
  List.NoDup l -> (forall k, In k l <-> k = q) -> l = [q].
Proof.
  intros Hnd H. destruct l as [|a l]; [now elim (proj2 (H q) eq_refl)|].
  assert (a = q) by (apply H; now left). subst a.
  destruct l as [|b l]; [reflexivity|].
  assert (b = q) by (apply H; right; now left). subst b.
  apply List.NoDup_cons_iff in Hnd as [Hq _]. elim Hq. now left.
Qed.

Lemma trie_out_singletons {X : Type} (m : Z) (l : list X)
    (outs : list (list X)) :
  Forall2 (trie_out m) (map (fun x => [x]) l) outs -> concat outs = l.
Proof.
  revert outs. induction l as [|a l IH]; intros outs H;
    inversion H as [|? out ? outs' Ha Hl]; subst; [reflexivity|].
  simpl. rewrite (IH _ Hl).
  destruct Ha as [[Hnil _]|[_ [[_ [x [[<-|[]] ->]]]|[_ ->]]]];
    [discriminate|reflexivity|reflexivity].
Qed.

Lemma trie_groups_far (t : Z) (indels : bool) (mbs : list record) :
  0 <= t ->
  forall reads : gmap string (list Read),
    List.NoDup (map fst mbs) ->
    (forall mb, In mb mbs -> reads !! mb.1 = Some [mb.2]) ->
    (forall k mb, is_Some (reads !! k) -> In mb mbs -> mb.1 <> k ->
                  CountTrie.within indels t mb.1 k = false) ->
    trie_groups_from t indels reads mbs = map (fun mb => [mb.2]) mbs.
Proof.
  intros Ht. induction mbs as [|mb mbs IH]; intros reads Hnd Hl Hfar;
    [reflexivity|].
  simpl in Hnd. apply List.NoDup_cons_iff in Hnd as [Hmb Hnd].
  assert (Hn : neighbours t indels reads mb.1 = [mb.1]).
  { apply NoDup_only; [apply neighbours_NoDup|]. intros k.
    rewrite neighbours_In. split.
    - intros [Hk Hw]. destruct (string_dec mb.1 k) as [E|E]; [now symmetry|].
      rewrite (Hfar k mb Hk (or_introl eq_refl) E) in Hw. discriminate.
    - intros ->. split; [|now apply within_refl].
      rewrite (Hl mb) by now left. eauto. }
  cbn [trie_groups_from map]. cbv zeta. rewrite Hn. f_equal.
  - unfold gather. simpl. rewrite (Hl mb) by now left. reflexivity.
  - unfold remove_all. simpl. apply IH; [exact Hnd| |].
    + intros mb' Hin. rewrite lookup_delete_ne; [apply Hl; now right|].
      intros E. apply Hmb. rewrite E. now apply in_map.
    + intros k mb' [v Hk] Hin. apply lookup_delete_Some in Hk as [_ Hk].
      apply Hfar; [eauto|now right].
Qed.

Lemma reads_with_NoDup (mbs : list record) (mb : record) :
  List.NoDup (map fst mbs) -> In mb mbs -> reads_with mbs mb.1 = [mb.2].
Proof.
  induction mbs as [|a mbs IH]; intros Hnd Hin; [destruct Hin|].
  simpl in Hnd. apply List.NoDup_cons_iff in Hnd as [Ha Hnd].
  unfold reads_with. simpl. destruct Hin as [->|Hin].
  - rewrite bool_decide_eq_true_2 by reflexivity. simpl. f_equal.
    apply (reads_with_notin mbs mb.1 Ha).
  - rewrite bool_decide_eq_false_2.
    + now apply IH.
    + intros E. apply Ha. rewrite E. now apply in_map.
Qed.
End TrieSingletons.

(** X11.  Singletons are kept by the trie strategy too, in input order:
    when the threshold is not negative, the barcodes of the records are
    pairwise distinct and no barcode is found within the threshold of
    another one, the trie strategy returns the reads of the records as they
    come, whatever [min_cluster_size] and the random source. *)
Theorem trie_keeps_singletons {Read : Type}
    (molecular_barcodes : list (string * Read))
    (allowed_mismatches min_cluster_size : Z) (allow_indels : bool)
    (g : rng) :
  0 <= allowed_mismatches ->
  List.NoDup (map fst molecular_barcodes) ->
  (forall a b, In a (map fst molecular_barcodes) ->
               In b (map fst molecular_barcodes) -> a <> b ->
               CountTrie.within allow_indels allowed_mismatches a b = false) ->
  exists g',
    countMolecularBarcodesPrefixtrie molecular_barcodes allowed_mismatches
      min_cluster_size allow_indels g
    = Ok (map snd molecular_barcodes, g').
Proof.
  intros Ht Hnd Hfar.
  destruct (trie_run molecular_barcodes allowed_mismatches min_cluster_size
                     allow_indels g) as [outs [g' [E Hout]]].
  exists g'. rewrite E. f_equal. f_equal.
  rewrite trie_groups_far in Hout; try assumption.
  - rewrite <- (map_map snd (fun x => [x])) in Hout.
    now apply trie_out_singletons in Hout.
  - intros mb Hin.
    rewrite reads_map_lookup_In, lookup_empty by now apply in_map.
    simpl. now rewrite reads_with_NoDup.
  - intros k mb [v Hk] Hin Hne. apply Hfar; [now apply in_map| |exact Hne].
    destruct (in_dec string_dec k (map fst molecular_barcodes)) as [H|H];
      [exact H|].
    rewrite reads_map_lookup_notin, lookup_empty in Hk by exact H.
    discriminate Hk.
Qed.

Lemma trie_keeps_singletons_witness :
  exists g',
    countMolecularBarcodesPrefixtrie
      [("TTTT", 1); ("AAAA", 2); ("CCCC", 3)]%string%nat 1 1 true
      (fun n => n)
    = Ok ([1; 2; 3]%nat, g').
Proof.
  apply (trie_keeps_singletons
           [("TTTT", 1); ("AAAA", 2); ("CCCC", 3)]%string%nat 1 1 true
           (fun n => n)).
  - lia.
  - repeat constructor; simpl; intuition discriminate.
  - intros a b Ha Hb Hab. simpl in Ha, Hb.
    destruct Ha as [<-|[<-|[<-|[]]]]; destruct Hb as [<-|[<-|[<-|[]]]];
      try reflexivity; congruence.
Defined.

(** ** The clusters of the hierarchical strategy by label *)

Section HierLabels.
Context {Read Dendrogram : Type}.
Context (linkage : list nat -> string -> Dendrogram).
Context (fcluster : Dendrogram -> Z -> list nat).

Local Abbreviation record := (string * Read)%type.

Lemma items_by_key {V : Type} (f : nat -> V) (l : list (nat * V)) :
  (forall k v, In (k, v) l -> v = f k) ->
  l = map (fun k => (k, f k)) (map fst l).
Proof.
  induction l as [|[k v] l IH]; intros H; [reflexivity|].
  simpl. rewrite <- IH by (intros; apply H; now right).
  now rewrite <- (H k v) by now left.
Qed.

Lemma iteritems_keys_sorted {V : Type} (d : gmap nat V) :
  StronglySorted lt (map fst (iteritems d)).
Proof.
  assert (Hs : StronglySorted le (map fst (iteritems d))).
  { eapply StronglySorted_map; [|apply sorted_StronglySorted].
    - intros x y Hxy. apply Nat.leb_le in Hxy. exact Hxy.
    - intros x y. rewrite !Nat.leb_le. lia.
    - intros x y z. rewrite !Nat.leb_le. lia. }
  pose proof (iteritems_NoDup d) as Hnd.
  induction Hs as [|a l Hs IH Ha]; constructor.
  - apply IH. now apply List.NoDup_cons_iff in Hnd.
  - apply List.NoDup_cons_iff in Hnd as [Hn _].
    apply List.Forall_forall. intros b Hb.
    eapply List.Forall_forall in Ha; [|exact Hb].
    assert (a <> b) by (intros ->; contradiction). lia.
Qed.

Lemma reads_by_label (mbs : list record) (r0 : record) (labels : list nat)
    (a : nat) :
  length labels = length mbs ->
  map (fun i => (nth i mbs r0).2) (reads_with (labelled labels) a)
  = reads_with (combine labels (map snd mbs)) a.
Proof.
  intros Hlen. rewrite reads_with_labelled_filter. unfold reads_with.
  assert (Hc : length (combine labels (map snd mbs)) = length labels).
  { rewrite length_combine, length_map. lia. }
  rewrite <- (filter_nth_seq (fun r : nat * Read => bool_decide (r.1 = a))
                             (combine labels (map snd mbs)) (O, r0.2)).
  rewrite Hc, map_map.
  rewrite (filter_ext_in
             (fun i => bool_decide (labels !! i = Some a))
             (fun i => bool_decide
                         ((nth i (combine labels (map snd mbs)) (O, r0.2)).1
                          = a))).
  - apply map_ext. intros i.
    rewrite combine_nth by (rewrite length_map; lia). cbn [snd].
    now rewrite map_nth.
  - intros i Hi. apply in_seq in Hi.
    rewrite combine_nth by (rewrite length_map; lia). cbn [fst].
    destruct (lookup_lt_is_Some_2 labels i ltac:(lia)) as [b Hb].
    rewrite Hb, (nth_lookup_Some _ _ O _ Hb).
    apply bool_decide_ext. split; congruence.
Qed.
End HierLabels.

(** X12.  On more than two records with barcodes of one length, the
    hierarchical strategy groups the records by the label [fcluster] gives
    them (one label per record): its clusters are, for every label in
    ascending order, the reads of the records with that label, in input
    order; so two records share a cluster exactly when they share a
    label. *)
Theorem hierarchical_groups_by_label {Read Dendrogram : Type}
    (linkage : list nat -> string -> Dendrogram)
    (fcluster : Dendrogram -> Z -> list nat)
    (molecular_barcodes : list (string * Read))
    (allowed_mismatches : Z) (method : string) :
  uniform molecular_barcodes ->
  (2 < length molecular_barcodes)%nat ->
  length (flat_labels linkage fcluster molecular_barcodes
                      allowed_mismatches method)
  = length molecular_barcodes ->
  exists labels,
    membership linkage fcluster (Hierarchical method) molecular_barcodes
               allowed_mismatches
    = Ok (map (reads_with
                 (combine (flat_labels linkage fcluster molecular_barcodes
                                       allowed_mismatches method)
                          (map snd molecular_barcodes)))
              labels)
    /\ StronglySorted lt labels
    /\ forall a, In a labels
                 <-> In a (flat_labels linkage fcluster molecular_barcodes
                                       allowed_mismatches method).
Proof.
  intros Hu Hn Hlen.
  set (labels := flat_labels _ _ _ _ _) in *.
  destruct molecular_barcodes as [|r0 mbs']; [simpl in Hn; lia|].
  set (mbs := r0 :: mbs') in *.
  set (items := iteritems (reads_map ∅ (labelled labels))).
  exists (map fst items). split; [|split].
  - unfold membership.
    rewrite (hier_clusters_eq linkage fcluster mbs allowed_mismatches method
                              r0 Hu Hn Hlen).
    rewrite bind_Ok. f_equal. fold labels. fold items.
    rewrite (items_by_key (reads_with (labelled labels)) items) at 1.
    + rewrite !map_map. apply map_ext. intros a. cbn [snd].
      rewrite map_map. now apply reads_by_label.
    + intros k v Hin. apply iteritems_In in Hin.
      now apply items_lookup in Hin as [-> _].
  - apply iteritems_keys_sorted.
  - intros a. split.
    + intros Hin. apply in_map_iff in Hin as [[k v] [<- Hin]].
      apply iteritems_In in Hin. now apply items_lookup in Hin as [_ [H _]].
    + intros Hin. apply in_map_iff.
      exists (a, reads_with (labelled labels) a). split; [reflexivity|].
      apply iteritems_In. now apply items_lookup_label.
Qed.

Lemma hierarchical_groups_by_label_witness :
  exists labels,
    membership Agglomerative.linkage Agglomerative.fcluster
      (Hierarchical "single")
      [("AAAT", 1); ("CCCC", 2); ("AAAA", 3); ("CCCG", 4)]%string%nat 1
    = Ok (map (reads_with (combine [1; 2; 1; 2] [1; 2; 3; 4]))%nat labels)
    /\ StronglySorted lt labels
    /\ forall a, In a labels <-> In a [1; 2; 1; 2]%nat.
Proof.
  apply (hierarchical_groups_by_label
           Agglomerative.linkage Agglomerative.fcluster
           [("AAAT", 1); ("CCCC", 2); ("AAAA", 3); ("CCCG", 4)]%string%nat
           1 "single").
  - apply uniform_Forall. repeat constructor.
  - simpl. lia.
  - vm_compute. reflexivity.
Defined.

Section TrieCounts.
Context {Read : Type}.

Local Abbreviation record := (string * Read)%type.

Lemma reads_map_default (mbs : list record) (k : string) :
  default [] (reads_map ∅ mbs !! k) = reads_with mbs k.
Proof.
  destruct (in_dec string_dec k (map fst mbs)) as [H|H].
  - now rewrite reads_map_lookup_In, lookup_empty by exact H.
  - rewrite reads_map_lookup_notin, lookup_empty by exact H.
    now rewrite reads_with_notin.
Qed.
End TrieCounts.

(** X13.  The first loop of the trie strategy leaves the trie and the map
    of reads in step: under every barcode the map holds the reads of the
    records with that barcode, in input order, and the trie counts them;
    the map has an entry exactly for the barcodes of the input. *)
Theorem trie_first_loop {Read : Type}
    (molecular_barcodes : list (string * Read))
    (trie : gmap string nat) (reads : gmap string (list Read)) :
  fold_left trie_fill molecular_barcodes (∅, ∅) = (trie, reads) ->
  forall k,
    default [] (reads !! k) = reads_with molecular_barcodes k
    /\ CountTrie.get_count k trie = length (reads_with molecular_barcodes k)
    /\ (is_Some (reads !! k) <-> In k (map fst molecular_barcodes)).
Proof.
  intros E k.
  pose proof (trie_fill_reads molecular_barcodes ∅) as H.
  rewrite fmap_empty, E in H. injection H as -> ->.
  split; [apply reads_map_default|]. split.
  - unfold CountTrie.get_count. rewrite lookup_fmap.
    rewrite <- reads_map_default.
    now destruct (reads_map ∅ molecular_barcodes !! k).
  - split.
    + intros [v Hv].
      destruct (in_dec string_dec k (map fst molecular_barcodes))
        as [H|H]; [exact H|].
      rewrite reads_map_lookup_notin, lookup_empty in Hv by exact H.
      discriminate Hv.
    + intros H. rewrite reads_map_lookup_In by exact H. eauto.
Qed.

Lemma trie_first_loop_witness :
  exists (trie : gmap string nat) (reads : gmap string (list nat)),
    fold_left trie_fill [("AAAA", 1); ("AAAT", 2); ("AAAA", 3)]%string%nat
              (∅, ∅)
    = (trie, reads)
    /\ forall k,
         default [] (reads !! k)
         = reads_with [("AAAA", 1); ("AAAT", 2); ("AAAA", 3)]%string%nat k
         /\ CountTrie.get_count k trie
            = length (reads_with
                        [("AAAA", 1); ("AAAT", 2); ("AAAA", 3)]%string%nat k)
         /\ (is_Some (reads !! k)
             <-> In k (map fst
                         [("AAAA", 1); ("AAAT", 2); ("AAAA", 3)]%string%nat)).
Proof.
  eexists _, _. split; [reflexivity|].
  apply (trie_first_loop [("AAAA", 1); ("AAAT", 2); ("AAAA", 3)]%string%nat).
  reflexivity.
Defined.

(** X14.  In every iteration of the second loop of the trie strategy,
    [size_cluster] is the number of reads gathered in [original_reads]:
    the cluster size counts reads, not distinct barcodes, and the guard
    [len(original_reads) > 0] holds exactly when [size_cluster] is
    positive. *)
Theorem trie_size_counts_reads {Read : Type}
    (molecular_barcodes : list (string * Read)) (allowed_mismatches : Z)
    (allow_indels : bool) :
  Forall (fun cluster : nat * list Read => cluster.1 = length cluster.2)
         (trie_clusters molecular_barcodes allowed_mismatches allow_indels)
  /\ length (trie_clusters molecular_barcodes allowed_mismatches allow_indels)
     = length molecular_barcodes.
Proof.
  rewrite trie_clusters_groups. split.
  - apply List.Forall_forall. intros c Hc.
    apply in_map_iff in Hc as [grp [<- _]]. reflexivity.
  - rewrite length_map.
    generalize (reads_map ∅ molecular_barcodes).
    induction molecular_barcodes as [|mb mbs IH]; intros reads;
      [reflexivity|].
    simpl. now rewrite IH.
Qed.

(** * The filter of the mapped reads *)

Section SamFacts.
Context {Tags : Type}.
Context (hash : string -> Z).
Context (set_tag : Tags -> string -> option string -> option string
                   -> Sam.outcome Tags).

Local Abbreviation segment := (Sam.AlignedSegment Tags).

Local Abbreviation same_read := (@Sam.same_read Tags).

Lemma sam_bind_Done {A B : Type} (a : A) (k : A -> Sam.outcome B) :
  (Sam.Done a ≫= k) = k a.
Proof. reflexivity. Qed.

Lemma sam_bind_inv {A B : Type} (c : Sam.outcome A) (k : A -> Sam.outcome B)
    (b : B) :
  (c ≫= k) = Sam.Done b -> exists a, c = Sam.Done a /\ k a = Sam.Done b.
Proof. destruct c as [a|e]; [eauto|discriminate]. Qed.

Lemma sam_bind_Raises_inv {A B : Type} (c : Sam.outcome A)
    (k : A -> Sam.outcome B) (e : Sam.raised) :
  (c ≫= k) = Sam.Raises e ->
  c = Sam.Raises e \/ exists a, c = Sam.Done a /\ k a = Sam.Raises e.
Proof. destruct c as [a|e']; [eauto|intros [= ->]; now left]. Qed.

Lemma set_tag_same (r r' : segment) (tag : string)
    (value value_type : option string) :
  Sam.sam_record_set_tag set_tag r tag value value_type = Sam.Done r' ->
  same_read r r'.
Proof.
  unfold Sam.sam_record_set_tag. intros H.
  apply sam_bind_inv in H as [tags' [_ [= <-]]]. unfold Sam.same_read. auto.
Qed.

Lemma item_Raises (l : list string) (i : nat) (e : Sam.raised) :
  Sam.item l i = Sam.Raises e -> e = Sam.Builtin IndexError.
Proof. unfold Sam.item. destruct (l !! i); [discriminate|]. now intros [= <-]. Qed.

Lemma add_tag_same (r r' : segment) (tag : string) :
  Sam.add_tag set_tag r tag = Sam.Done r' -> same_read r r'.
Proof.
  unfold Sam.add_tag. intros H.
  apply sam_bind_inv in H as [t0 [_ H]].
  apply sam_bind_inv in H as [t2 [_ H]].
  apply sam_bind_inv in H as [t1 [_ H]].
  now apply set_tag_same in H.
Qed.

Lemma add_tags_loop_same (tags : list string) :
  forall r r' : segment,
    for_in tags (Sam.add_tag set_tag) r = Sam.Done r' -> same_read r r'.
Proof.
  induction tags as [|tag tags IH]; intros r r' H.
  - injection H as <-. unfold Sam.same_read. auto.
  - rewrite for_in_cons in H. apply sam_bind_inv in H as [r1 [H1 H2]].
    apply add_tag_same in H1 as (E1 & E2 & E3).
    apply IH in H2 as (F1 & F2 & F3). unfold Sam.same_read. repeat split; congruence.
Qed.

Lemma add_tags_Done (hash_reads : gmap Z (list string)) (r r' : segment) :
  Sam.add_tags hash set_tag hash_reads r = Sam.Done r' ->
  same_read r r' /\ Sam.annotated hash hash_reads r = true.
Proof.
  unfold Sam.add_tags, Sam.annotated. intros H.
  destruct (hash_reads !! hash (Sam.query_name r)) as [tags|] eqn:E;
    [|discriminate].
  simpl in H. split; [now apply add_tags_loop_same in H|].
  apply bool_decide_eq_true_2. eauto.
Qed.

(** [set_tag] raises no [KeyError]. *)
Local Abbreviation no_KeyError := (forall tags tag value value_type,
  set_tag tags tag value value_type <> Sam.Raises (Sam.Builtin KeyError)).

Lemma add_tag_no_KeyError (r : segment) (tag : string) :
  no_KeyError ->
  Sam.add_tag set_tag r tag <> Sam.Raises (Sam.Builtin KeyError).
Proof.
  intros Hk H. unfold Sam.add_tag in H.
  apply sam_bind_Raises_inv in H as [H|[t0 [_ H]]];
    [apply item_Raises in H; discriminate|].
  apply sam_bind_Raises_inv in H as [H|[t2 [_ H]]];
    [apply item_Raises in H; discriminate|].
  apply sam_bind_Raises_inv in H as [H|[t1 [_ H]]];
    [apply item_Raises in H; discriminate|].
  unfold Sam.sam_record_set_tag in H.
  apply sam_bind_Raises_inv in H as [H|[t' [_ H]]]; [|discriminate].
  now apply Hk in H.
Qed.

Lemma add_tags_loop_no_KeyError (tags : list string) :
  no_KeyError ->
  forall r : segment,
    for_in tags (Sam.add_tag set_tag) r <> Sam.Raises (Sam.Builtin KeyError).
Proof.
  intros Hk. induction tags as [|tag tags IH]; intros r H; [discriminate|].
  rewrite for_in_cons in H.
  apply sam_bind_Raises_inv in H as [H|[r1 [_ H]]].
  - now apply add_tag_no_KeyError in H.
  - now apply (IH r1).
Qed.

Lemma add_tags_KeyError (hash_reads : gmap Z (list string)) (r : segment) :
  no_KeyError ->
  Sam.add_tags hash set_tag hash_reads r = Sam.Raises (Sam.Builtin KeyError) ->
  Sam.annotated hash hash_reads r = false.
Proof.
  intros Hk. unfold Sam.add_tags, Sam.annotated.
  destruct (hash_reads !! hash (Sam.query_name r)) as [tags|] eqn:E.
  - simpl. intros H. now apply add_tags_loop_no_KeyError in H.
  - intros _. apply bool_decide_eq_false_2. intros [v Hv]. discriminate.
Qed.
End SamFacts.

Section SamLoop.
Context {Tags : Type}.
Context (hash : string -> Z).
Context (set_tag : Tags -> string -> option string -> option string
                   -> Sam.outcome Tags).
Context (hash_reads : gmap Z (list string)) (min_length : Z)
        (keep_discarded_files : bool).

Local Abbreviation segment := (Sam.AlignedSegment Tags).
Local Abbreviation annotated := (Sam.annotated hash hash_reads).
Local Abbreviation too_short := (@Sam.too_short Tags min_length).
Local Abbreviation kept := (Sam.kept hash hash_reads min_length).
Local Abbreviation discarded := (Sam.discarded hash hash_reads min_length).
Local Abbreviation filter_record :=
  (Sam.filter_record hash set_tag hash_reads min_length keep_discarded_files).

Hypothesis set_tag_no_KeyError : forall tags tag value value_type,
  set_tag tags tag value value_type <> Sam.Raises (Sam.Builtin KeyError).

Lemma mapped_bases_same (r r' : segment) :
  Sam.same_read r r' -> Sam.mapped_bases_of r' = Sam.mapped_bases_of r.
Proof. intros (_ & _ & E). unfold Sam.mapped_bases_of. now rewrite E. Qed.

(** What an iteration that raises nothing does. *)
Lemma filter_record_Done (st st' : Sam.state Tags) (r : segment) :
  filter_record st r = Sam.Done st' ->
  Sam.present st' = Sam.present st + 1
  /\ ((annotated r = false
       /\ Sam.dropped_barcode st' = Sam.dropped_barcode st + 1
       /\ Sam.dropped_secondary st' = Sam.dropped_secondary st
       /\ Sam.dropped_short st' = Sam.dropped_short st
       /\ Sam.outfile st' = Sam.outfile st
       /\ Sam.outfile_discarded st' = Sam.outfile_discarded st)
      \/ (annotated r = true
          /\ Sam.dropped_barcode st' = Sam.dropped_barcode st
          /\ exists r', Sam.same_read r r'
             /\ ((Sam.is_secondary r = true
                  /\ Sam.dropped_secondary st' = Sam.dropped_secondary st + 1
                  /\ Sam.dropped_short st' = Sam.dropped_short st
                  /\ Sam.outfile st' = Sam.outfile st
                  /\ Sam.outfile_discarded st'
                     = Sam.outfile_discarded st
                       ++ (if keep_discarded_files then [r'] else []))
                 \/ (Sam.is_secondary r = false /\ too_short r = true
                     /\ Sam.dropped_secondary st' = Sam.dropped_secondary st
                     /\ Sam.dropped_short st' = Sam.dropped_short st + 1
                     /\ Sam.outfile st' = Sam.outfile st
                     /\ Sam.outfile_discarded st'
                        = Sam.outfile_discarded st
                          ++ (if keep_discarded_files then [r'] else []))
                 \/ (Sam.is_secondary r = false /\ too_short r = false
                     /\ Sam.dropped_secondary st' = Sam.dropped_secondary st
                     /\ Sam.dropped_short st' = Sam.dropped_short st
                     /\ Sam.outfile st' = Sam.outfile st ++ [r']
                     /\ Sam.outfile_discarded st'
                        = Sam.outfile_discarded st)))).
Proof.
  unfold Sam.filter_record.
  destruct (Sam.add_tags hash set_tag hash_reads r) as [r1|e] eqn:E.
  - apply add_tags_Done in E as [Hs Ha].
    intros H. apply sam_bind_inv in H as [r2 [H2 H]].
    assert (Hs2 : Sam.same_read r1 r2).
    { destruct (Sam.is_secondary r1); simpl in H2.
      - injection H2 as <-. unfold Sam.same_read. auto.
      - now apply set_tag_same in H2. }
    assert (Hs' : Sam.same_read r r2).
    { destruct Hs as (A1 & A2 & A3), Hs2 as (B1 & B2 & B3).
      unfold Sam.same_read. repeat split; congruence. }
    assert (Hsec : Sam.is_secondary r2 = Sam.is_secondary r) by apply Hs'.
    assert (Hmb : Sam.mapped_bases_of r1 = Sam.mapped_bases_of r)
      by now apply mapped_bases_same.
    rewrite Hsec, Hmb in H. fold (too_short r) in H.
    destruct (Sam.is_secondary r) eqn:Es; [|destruct (too_short r) eqn:Et];
      injection H as <-; simpl; (split; [reflexivity|]); right;
      (split; [exact Ha|]); (split; [reflexivity|]); exists r2;
      (split; [exact Hs'|]).
    + left. repeat split. destruct keep_discarded_files;
        [reflexivity|now rewrite app_nil_r].
    + right; left. repeat split. destruct keep_discarded_files;
        [reflexivity|now rewrite app_nil_r].
    + right; right. repeat split.
  - destruct e as [[| | |]|msg|msg]; try discriminate.
    apply add_tags_KeyError in E; [|exact set_tag_no_KeyError].
    intros [= <-]. simpl. split; [reflexivity|]. left. repeat split.
    exact E.
Qed.

(** What a run of the loop that raises nothing leaves in its variables. *)
Lemma filter_loop_Done (records : list segment) :
  forall st st' : Sam.state Tags,
    for_in records filter_record st = Sam.Done st' ->
    Sam.present st' = Sam.present st + Z.of_nat (length records)
    /\ Sam.dropped_barcode st'
       = Sam.dropped_barcode st
         + Z.of_nat (length (List.filter (fun r => negb (annotated r))
                                         records))
    /\ Sam.dropped_secondary st'
       = Sam.dropped_secondary st
         + Z.of_nat (length (List.filter
                               (fun r => annotated r && Sam.is_secondary r)
                               records))
    /\ Sam.dropped_short st'
       = Sam.dropped_short st
         + Z.of_nat (length (List.filter
                               (fun r => annotated r
                                         && negb (Sam.is_secondary r)
                                         && too_short r)
                               records))
    /\ (exists written,
          Sam.outfile st' = Sam.outfile st ++ written
          /\ Forall2 Sam.same_read (List.filter kept records) written)
    /\ (exists written,
          Sam.outfile_discarded st' = Sam.outfile_discarded st ++ written
          /\ Forall2 Sam.same_read
                     (if keep_discarded_files
                      then List.filter discarded records else [])
                     written).
Proof.
  induction records as [|r records IH]; intros st st' H.
  - injection H as <-. simpl. repeat split; try lia.
    + exists []. now rewrite app_nil_r.
    + exists []. rewrite app_nil_r. now destruct keep_discarded_files.
  - rewrite for_in_cons in H. apply sam_bind_inv in H as [st1 [H1 H2]].
    apply IH in H2 as (P & B & S & T & [w [Ew Hw]] & [w' [Ew' Hw']]).
    apply filter_record_Done in H1 as [P1 H1].
    cbn [List.filter length]. unfold Sam.kept, Sam.discarded in *.
    destruct H1 as [(A & B1 & S1 & T1 & O1 & D1)
                   |(A & B1 & r' & Hr & [(Es & S1 & T1 & O1 & D1)
                                        |[(Es & Et & S1 & T1 & O1 & D1)
                                         |(Es & Et & S1 & T1 & O1 & D1)]])];
      rewrite A in *; try rewrite Es in *; try rewrite Et in *;
      cbn [negb andb orb length] in *;
      (split; [lia|]); (split; [lia|]); (split; [lia|]); (split; [lia|]).
    + split.
      * exists w. split; [congruence|exact Hw].
      * exists w'. split; [congruence|exact Hw'].
    + split.
      * exists w. split; [congruence|exact Hw].
      * destruct keep_discarded_files.
        -- exists (r' :: w'). rewrite Ew', D1, <- app_assoc.
           split; [reflexivity|now constructor].
        -- exists w'. rewrite Ew', D1, app_nil_r. auto.
    + split.
      * exists w. split; [congruence|exact Hw].
      * destruct keep_discarded_files.
        -- exists (r' :: w'). rewrite Ew', D1, <- app_assoc.
           split; [reflexivity|now constructor].
        -- exists w'. rewrite Ew', D1, app_nil_r. auto.
    + split.
      * exists (r' :: w). rewrite Ew, O1, <- app_assoc.
        split; [reflexivity|now constructor].
      * exists w'. split; [congruence|].
        destruct keep_discarded_files; exact Hw'.
Qed.
End SamLoop.

Lemma split_length (sep : ascii) (s : string) :
  length (Sam.split sep s) = S (str_count sep s).
Proof.
  induction s as [|c s IH]; [reflexivity|]. simpl.
  destruct (Ascii.eqb c sep); simpl; [now rewrite IH|].
  destruct (Sam.split sep s); simpl in *; [discriminate|exact IH].
Qed.

Section SamErrors.
Context {Tags : Type}.
Context (hash : string -> Z).
Context (set_tag : Tags -> string -> option string -> option string
                   -> Sam.outcome Tags).

Local Abbreviation segment := (Sam.AlignedSegment Tags).

Hypothesis set_tag_total : forall tags tag value value_type,
  exists tags', set_tag tags tag value value_type = Sam.Done tags'.

Lemma add_tag_fields (r : segment) (tag : string) :
  (2 <= str_count ":"%char tag)%nat ->
  exists r', Sam.add_tag set_tag r tag = Sam.Done r'.
Proof.
  intros H. unfold Sam.add_tag. pose proof (split_length ":"%char tag) as Hl.
  destruct (Sam.split ":"%char tag) as [|t0 [|t1 [|t2 ts]]];
    simpl in Hl; try lia.
  unfold Sam.item. simpl. unfold Sam.sam_record_set_tag.
  destruct (set_tag_total (Sam.tags r) t0 (Some t2) (Some t1)) as [t' ->].
  simpl. eauto.
Qed.

Lemma add_tag_few_fields (r : segment) (tag : string) :
  (str_count ":"%char tag < 2)%nat ->
  Sam.add_tag set_tag r tag = Sam.Raises (Sam.Builtin IndexError).
Proof.
  intros H. unfold Sam.add_tag. pose proof (split_length ":"%char tag) as Hl.
  destruct (Sam.split ":"%char tag) as [|t0 [|t1 [|t2 ts]]];
    simpl in Hl; try lia; reflexivity.
Qed.

Lemma add_tags_loop_total (tags : list string) :
  forall r : segment,
    (exists r', for_in tags (Sam.add_tag set_tag) r = Sam.Done r'
                /\ Forall (fun tag => (2 <= str_count ":"%char tag)%nat) tags)
    \/ (for_in tags (Sam.add_tag set_tag) r
        = Sam.Raises (Sam.Builtin IndexError)
        /\ Exists (fun tag => (str_count ":"%char tag < 2)%nat) tags).
Proof.
  induction tags as [|tag tags IH]; intros r.
  - left. exists r. split; [reflexivity|constructor].
  - rewrite for_in_cons.
    destruct (le_lt_dec 2 (str_count ":"%char tag)) as [H|H].
    + destruct (add_tag_fields r tag H) as [r1 ->]. rewrite sam_bind_Done.
      destruct (IH r1) as [[r' [E F]]|[E F]].
      * left. exists r'. split; [exact E|now constructor].
      * right. split; [exact E|now apply Exists_cons_tl].
    + right. rewrite add_tag_few_fields by exact H.
      split; [reflexivity|now apply Exists_cons_hd].
Qed.

(** A read is well formed when every tag listed for it has three fields
    at least. *)
Local Abbreviation well_formed hash_reads := (fun r : segment =>
  forall tags, hash_reads !! hash (Sam.query_name r) = Some tags ->
               Forall (fun tag => (2 <= str_count ":"%char tag)%nat) tags).

Lemma filter_record_total (hash_reads : gmap Z (list string))
    (min_length : Z) (keep_discarded_files : bool) (st : Sam.state Tags)
    (r : segment) :
  (exists st', Sam.filter_record hash set_tag hash_reads min_length
                 keep_discarded_files st r = Sam.Done st'
               /\ well_formed hash_reads r)
  \/ (Sam.filter_record hash set_tag hash_reads min_length
        keep_discarded_files st r = Sam.Raises (Sam.Builtin IndexError)
      /\ ~ well_formed hash_reads r).
Proof.
  unfold Sam.filter_record, Sam.add_tags.
  destruct (hash_reads !! hash (Sam.query_name r)) as [tags|] eqn:E.
  - cbn [from_option]. rewrite sam_bind_Done.
    destruct (add_tags_loop_total tags r) as [[r1 [-> F]]|[-> F]].
    + left. unfold Sam.sam_record_set_tag.
      destruct (Sam.is_secondary r1) eqn:Es; cbn [negb].
      * rewrite sam_bind_Done, Es. eexists. split; [reflexivity|].
        intros tags' [= <-]. exact F.
      * destruct (set_tag_total (Sam.tags r1) "NH" None None) as [t' ->].
        rewrite !sam_bind_Done. simpl. rewrite ?Es.
        destruct (_ && _); eexists; (split; [reflexivity|]);
          intros tags' [= <-]; exact F.
    + right. split; [reflexivity|]. intros W. specialize (W tags eq_refl).
      apply List.Exists_exists in F as [tag [Hin Hlt]].
      eapply List.Forall_forall in W; [|exact Hin]. cbv beta in W. lia.
  - left. cbn [from_option]. eexists. split; [reflexivity|].
    intros tags [=].
Qed.

Lemma filter_loop_total (hash_reads : gmap Z (list string))
    (min_length : Z) (keep_discarded_files : bool) (records : list segment) :
  forall st,
    (exists st', for_in records
                   (Sam.filter_record hash set_tag hash_reads min_length
                      keep_discarded_files) st = Sam.Done st'
                 /\ Forall (well_formed hash_reads) records)
    \/ (for_in records
          (Sam.filter_record hash set_tag hash_reads min_length
             keep_discarded_files) st = Sam.Raises (Sam.Builtin IndexError)
        /\ ~ Forall (well_formed hash_reads) records).
Proof.
  induction records as [|r records IH]; intros st.
  - left. exists st. split; [reflexivity|constructor].
  - rewrite for_in_cons.
    destruct (filter_record_total hash_reads min_length keep_discarded_files
                                  st r) as [[st1 [-> W]]|[-> W]].
    + rewrite sam_bind_Done. destruct (IH st1) as [[st' [E F]]|[E F]].
      * left. exists st'. split; [exact E|now constructor].
      * right. split; [exact E|]. intros H. apply F.
        now apply Forall_cons_1 in H.
    + right. split; [reflexivity|]. intros H. apply W.
      now apply Forall_cons_1 in H.
Qed.
End SamErrors.

Section SamCounts.
Context {Tags : Type}.
Context (hash : string -> Z).
Context (hash_reads : gmap Z (list string)) (min_length : Z).

Local Abbreviation segment := (Sam.AlignedSegment Tags).

Lemma filter_counts (records : list segment) :
  length records
  = (length (List.filter (fun r => negb (Sam.annotated hash hash_reads r))
                         records)
     + length (List.filter (Sam.kept hash hash_reads min_length) records)
     + length (List.filter (Sam.discarded hash hash_reads min_length)
                           records))%nat
  /\ length (List.filter (Sam.discarded hash hash_reads min_length) records)
     = (length (List.filter
                  (fun r => Sam.annotated hash hash_reads r
                            && Sam.is_secondary r) records)
        + length (List.filter
                    (fun r => Sam.annotated hash hash_reads r
                              && negb (Sam.is_secondary r)
                              && Sam.too_short min_length r) records))%nat.
Proof.
  induction records as [|r records [IH1 IH2]]; [split; reflexivity|].
  cbn [List.filter]. unfold Sam.kept, Sam.discarded in *.
  destruct (Sam.annotated hash hash_reads r), (Sam.is_secondary r),
    (Sam.too_short min_length r); cbn [negb andb orb length]; lia.
Qed.
End SamCounts.

(** X15.  The QA count [reads_after_mapping] of a run of
    [filterMappedReads] that raises nothing is the number of records
    written to the output file plus the number of reads without an entry
    in [hash_reads]: the reads dropped for their missing barcode are
    written to no file but are not taken off the count.  With the reads
    discarded as secondary or too short it adds up to the number of
    records of the input.  ([set_tag] is assumed to raise no [KeyError],
    which the [except] clause would take for a missing barcode.) *)
Theorem reads_after_mapping_counts {Tags : Type} (hash : string -> Z)
    (set_tag : Tags -> string -> option string -> option string
               -> Sam.outcome Tags)
    (mapped_reads : list (Sam.AlignedSegment Tags))
    (hash_reads : gmap Z (list string)) (min_length : Z)
    (keep_discarded_files : bool) (file_output : string) (fileOk : bool)
    (reads_after_mapping : Z)
    (written written_discarded : list (Sam.AlignedSegment Tags)) :
  (forall tags tag value value_type,
     set_tag tags tag value value_type
     <> Sam.Raises (Sam.Builtin KeyError)) ->
  Sam.filterMappedReads hash set_tag mapped_reads hash_reads min_length
    keep_discarded_files file_output fileOk
  = Sam.Done (reads_after_mapping, written, written_discarded) ->
  reads_after_mapping
  = Z.of_nat (length written)
    + Z.of_nat (length (List.filter
                          (fun r => negb (Sam.annotated hash hash_reads r))
                          mapped_reads))
  /\ Z.of_nat (length mapped_reads)
     = reads_after_mapping
       + Z.of_nat (length (List.filter
                             (Sam.discarded hash hash_reads min_length)
                             mapped_reads)).
Proof.
  intros Hk H. unfold Sam.filterMappedReads in H.
  apply sam_bind_inv in H as [st [Hst H]].
  destruct fileOk; [|discriminate]. cbn [negb] in H.
  injection H as <- <- <-.
  apply (filter_loop_Done hash set_tag hash_reads min_length
                          keep_discarded_files Hk) in Hst
    as (P & _ & S & T & [w [Ew Hw]] & _).
  simpl in P, S, T, Ew. subst w.
  apply Forall2_length in Hw.
  destruct (filter_counts hash hash_reads min_length mapped_reads)
    as [C1 C2].
  lia.
Qed.

Lemma reads_after_mapping_counts_witness :
  let hash := fun s => Z.of_nat (String.length s) in
  let mapped_reads :=
    [ {| Sam.query_name := "r1"; Sam.is_secondary := false;
         Sam.cigartuples := [(0, 30); (4, 5)];
         Sam.tags := [("NH", "i", "2")] |};
      {| Sam.query_name := "r22"; Sam.is_secondary := false;
         Sam.cigartuples := [(0, 30)]; Sam.tags := [] |};
      {| Sam.query_name := "r333"; Sam.is_secondary := false;
         Sam.cigartuples := [(0, 30)]; Sam.tags := [] |};
      {| Sam.query_name := "r4"; Sam.is_secondary := true;
         Sam.cigartuples := [(0, 30)]; Sam.tags := [] |} ]%string in
  let hash_reads : gmap Z (list string) :=
    <[2 := ["B0:Z:ACGT"; "B1:Z:3"]%string]> ∅ in
  let written :=
    [ {| Sam.query_name := "r1"; Sam.is_secondary := false;
         Sam.cigartuples := [(0, 30); (4, 5)];
         Sam.tags := [("B0", "Z", "ACGT"); ("B1", "Z", "3")] |} ]%string in
  Sam.filterMappedReads hash Sam.set_tag_list mapped_reads hash_reads 28
    false "mapped_filtered.bam" true
  = Sam.Done (3, written, [])
  /\ 3 = Z.of_nat (length written)
         + Z.of_nat (length (List.filter
                               (fun r => negb (Sam.annotated hash hash_reads r))
                               mapped_reads)).
Proof.
  intros hash mapped_reads hash_reads written.
  assert (E : Sam.filterMappedReads hash Sam.set_tag_list mapped_reads
                hash_reads 28 false "mapped_filtered.bam" true
              = Sam.Done (3, written, []))
    by (vm_compute; reflexivity).
  split; [exact E|].
  apply (reads_after_mapping_counts hash Sam.set_tag_list mapped_reads
           hash_reads 28 false "mapped_filtered.bam" true 3 written []).
  - intros tags tag [v|] value_type; discriminate.
  - exact E.
Defined.

(** X16.  What a run of [filterMappedReads] that raises nothing writes:
    the output file holds, in input order, the reads that have an entry in
    [hash_reads], are not secondary alignments and have either no mapped
    base at all or at least [min_length] mapped bases (a read with no
    mapped base is never dropped as too short); the file of discarded
    reads holds the other reads with an entry when
    [keep_discarded_files] is set and nothing otherwise; a read without an
    entry is written to neither file.  The records written carry the
    name, the flag and the CIGAR of the records read. *)
Theorem filter_writes_kept_reads {Tags : Type} (hash : string -> Z)
    (set_tag : Tags -> string -> option string -> option string
               -> Sam.outcome Tags)
    (mapped_reads : list (Sam.AlignedSegment Tags))
    (hash_reads : gmap Z (list string)) (min_length : Z)
    (keep_discarded_files : bool) (file_output : string) (fileOk : bool)
    (reads_after_mapping : Z)
    (written written_discarded : list (Sam.AlignedSegment Tags)) :
  (forall tags tag value value_type,
     set_tag tags tag value value_type
     <> Sam.Raises (Sam.Builtin KeyError)) ->
  Sam.filterMappedReads hash set_tag mapped_reads hash_reads min_length
    keep_discarded_files file_output fileOk
  = Sam.Done (reads_after_mapping, written, written_discarded) ->
  Forall2 Sam.same_read
          (List.filter (Sam.kept hash hash_reads min_length) mapped_reads)
          written
  /\ Forall2 Sam.same_read
             (if keep_discarded_files
              then List.filter (Sam.discarded hash hash_reads min_length)
                               mapped_reads
              else [])
             written_discarded.
Proof.
  intros Hk H. unfold Sam.filterMappedReads in H.
  apply sam_bind_inv in H as [st [Hst H]].
  destruct fileOk; [|discriminate]. cbn [negb] in H.
  injection H as <- <- <-.
  apply (filter_loop_Done hash set_tag hash_reads min_length
                          keep_discarded_files Hk) in Hst
    as (_ & _ & _ & _ & [w [Ew Hw]] & [w' [Ew' Hw']]).
  simpl in Ew, Ew'. subst w w'. auto.
Qed.

Lemma filter_writes_kept_reads_witness :
  let hash := fun s => Z.of_nat (String.length s) in
  let mapped_reads :=
    [ {| Sam.query_name := "r1"; Sam.is_secondary := false;
         Sam.cigartuples := [(0, 10); (4, 5)]; Sam.tags := [] |};
      {| Sam.query_name := "r22"; Sam.is_secondary := false;
         Sam.cigartuples := [(0, 30)]; Sam.tags := [] |};
      {| Sam.query_name := "r3"; Sam.is_secondary := false;
         Sam.cigartuples := [(4, 30)]; Sam.tags := [("NH", "i", "2")] |};
      {| Sam.query_name := "r4"; Sam.is_secondary := true;
         Sam.cigartuples := [(0, 30)]; Sam.tags := [] |} ]%string in
  let hash_reads : gmap Z (list string) :=
    <[2 := ["B0:Z:ACGT"]%string]> ∅ in
  let written :=
    [ {| Sam.query_name := "r3"; Sam.is_secondary := false;
         Sam.cigartuples := [(4, 30)];
         Sam.tags := [("B0", "Z", "ACGT")] |} ]%string in
  let written_discarded :=
    [ {| Sam.query_name := "r1"; Sam.is_secondary := false;
         Sam.cigartuples := [(0, 10); (4, 5)];
         Sam.tags := [("B0", "Z", "ACGT")] |};
      {| Sam.query_name := "r4"; Sam.is_secondary := true;
         Sam.cigartuples := [(0, 30)];
         Sam.tags := [("B0", "Z", "ACGT")] |} ]%string in
  Sam.filterMappedReads hash Sam.set_tag_list mapped_reads hash_reads 28
    true "mapped_filtered.bam" true
  = Sam.Done (2, written, written_discarded)
  /\ Forall2 Sam.same_read
             (List.filter (Sam.kept hash hash_reads 28) mapped_reads)
             written.
Proof.
  intros hash mapped_reads hash_reads written written_discarded.
  assert (E : Sam.filterMappedReads hash Sam.set_tag_list mapped_reads
                hash_reads 28 true "mapped_filtered.bam" true
              = Sam.Done (2, written, written_discarded))
    by (vm_compute; reflexivity).
  split; [exact E|].
  apply (filter_writes_kept_reads hash Sam.set_tag_list mapped_reads
           hash_reads 28 true "mapped_filtered.bam" true 2 written
           written_discarded).
  - intros tags tag [v|] value_type; discriminate.
  - exact E.
Defined.

(** X17.  The errors of [filterMappedReads] when [set_tag] raises
    nothing.  The function raises [IndexError] exactly when some read of
    the file has, in its entry of [hash_reads], a tag with fewer than
    three fields (fewer than two colons); otherwise the loop goes through
    the whole file, and the function raises [RuntimeError] when the output
    file is not there and returns otherwise.  A read without an entry is
    no error. *)
Theorem filter_fails_on_short_tags {Tags : Type} (hash : string -> Z)
    (set_tag : Tags -> string -> option string -> option string
               -> Sam.outcome Tags)
    (mapped_reads : list (Sam.AlignedSegment Tags))
    (hash_reads : gmap Z (list string)) (min_length : Z)
    (keep_discarded_files : bool) (file_output : string) (fileOk : bool) :
  (forall tags tag value value_type,
     exists tags', set_tag tags tag value value_type = Sam.Done tags') ->
  let well_formed := fun r : Sam.AlignedSegment Tags =>
    forall tags, hash_reads !! hash (Sam.query_name r) = Some tags ->
                 Forall (fun tag => (2 <= str_count ":"%char tag)%nat) tags in
  (~ Forall well_formed mapped_reads ->
   Sam.filterMappedReads hash set_tag mapped_reads hash_reads min_length
     keep_discarded_files file_output fileOk
   = Sam.Raises (Sam.Builtin IndexError))
  /\ (Forall well_formed mapped_reads ->
      if fileOk
      then exists result,
             Sam.filterMappedReads hash set_tag mapped_reads hash_reads
               min_length keep_discarded_files file_output fileOk
             = Sam.Done result
      else exists error,
             Sam.filterMappedReads hash set_tag mapped_reads hash_reads
               min_length keep_discarded_files file_output fileOk
             = Sam.Raises (Sam.RuntimeError error)).
Proof.
  intros Ht well_formed. unfold Sam.filterMappedReads, Sam.filter_records.
  match goal with
  | |- context [for_in mapped_reads ?body ?st] =>
      destruct (filter_loop_total hash set_tag Ht hash_reads min_length
                  keep_discarded_files mapped_reads st)
        as [[st' [E W]]|[E W]]; rewrite E
  end.
  - split; [intros H; now elim H|]. intros _. rewrite sam_bind_Done.
    destruct fileOk; cbn [negb]; eauto.
  - split; [reflexivity|]. intros H. now elim W.
Qed.

Lemma filter_fails_on_short_tags_witness :
  Sam.filterMappedReads (fun s => Z.of_nat (String.length s))
    Sam.set_tag_list
    [ {| Sam.query_name := "r1"; Sam.is_secondary := false;
         Sam.cigartuples := [(0, 30)]; Sam.tags := [] |};
      {| Sam.query_name := "r22"; Sam.is_secondary := false;
         Sam.cigartuples := [(0, 30)]; Sam.tags := [] |} ]%string
    (<[3 := ["B0:Z:ACGT"; "B1:3"]%string]> ∅) 28 false
    "mapped_filtered.bam" true
  = Sam.Raises (Sam.Builtin IndexError).
Proof.
  apply (filter_fails_on_short_tags (fun s => Z.of_nat (String.length s))
           Sam.set_tag_list).
  - intros tags tag [v|] value_type; eexists; reflexivity.
  - intros H. apply Forall_cons_1 in H as [_ H].
    apply Forall_cons_1 in H as [H _].
    specialize (H _ eq_refl). apply Forall_cons_1 in H as [_ H].
    apply Forall_cons_1 in H as [H _]. simpl in H. lia.
Defined.
